(** * Retrieval engine of the Paves chat companion

    A shallow embedding of [document_processor.py] (the chunker) and
    [vector_store.py] (the TF-IDF index and the cosine ranker), and the
    properties of the specification settled against them.

    Modelling conventions.
    - A Python [str] is a [list ascii]; a character is a code point below
      256 (Latin-1).  The character classes of [str.strip], [str.lower]
      and of the regular expressions ([\s], [\w], [\d]) are those of
      Python on that range.
    - A Python [float] is a real number ([R]): [math.log] is [ln],
      [math.sqrt] is [sqrt], [/] is real division.  Sums over a [set] or a
      [dict] are taken in the order of [elements] / [map_to_list]; real
      addition makes the order irrelevant.  Rounding is not modelled: no
      statement bounds a score from above or gives its value when it is
      not 0, and the concrete weights that the counterexamples evaluate
      are 0 and 1, which binary floating point computes exactly as well.
    - A [dict] or [Counter] keyed by tokens is a [gmap], a [set] a [gset];
      a [dict] whose order is observable (chunk metadata, the fields of a
      JSON object) is an association list.
    - The dictionaries handled by the store are typed records: a chunk
      has a [str] content and a metadata dictionary, as [create_chunks]
      builds them.
    - Object state is passed explicitly: a [VectorStore.t] record for the
      index, a [Disk] record for the snapshot file; [uuid.uuid4] is a
      supply of identifiers passed to [add_documents].
    - [json.dump] and [json.load] store and read back a JSON value.  The
      text of the file is not modelled, except that a file whose text is
      not the text of a JSON value, as a truncated file, is
      [Unreadable]: [open(path, 'w')] truncates the file before
      [json.dump] writes, and [_save_data] catches what either raises.
    - The conversions between [int] and [str] raise [ValueError] beyond
      [int_max_str_digits] digits: [int] in [create_chunks] for the
      digits of a page marker, [int.__repr__] in [json.dump] for an
      integer of the metadata, the f-string of [_prepare_context] for a
      file name or a page.  A method that does not catch the exception
      returns an [option], [None] standing for the exception.
    - The [try]/[except] blocks of [add_documents] and
      [similarity_search] catch exceptions that no well-typed input
      raises; the functions are total.
    - The other modules of the program are embedded as far as they are
      functions of their arguments: the text cleaning, the file names
      and the keywords of [utils.py], the fallback responses and the
      streaming of [llm_client.py], and [add_document] and [query] of
      [rag_system.py].  What lies outside the program is an argument:
      reading a PDF file gives the texts of its pages or an exception
      ([DocumentProcessor.pdf]), and the language-model service answers
      a prompt with a completion, without choice, or with an exception
      ([LLMClient.completion], [LLMClient.stream]). *)

From Stdlib Require Import Reals Lra ZArith Ascii String List Lia Bool.
From Stdlib Require DecimalNat.
From stdpp Require Import gmap strings list fin_maps sorting.

Abbreviation str := (list ascii).

(** A string literal as a Python [str]. *)
Definition py (s : string) : str := list_ascii_of_string s.

(** ** Python string primitives *)
Module PyStr.

Definition code (c : ascii) : nat := nat_of_ascii c.

Definition in_range (lo hi n : nat) : bool := (lo <=? n) && (n <=? hi).

(** [str.isspace] on one character, also the class [\s] of [re]:
    TAB..CR, FS..US, space, NEL and NBSP. *)
Definition is_space (c : ascii) : bool :=
  let n := code c in
  in_range 9 13 n || in_range 28 32 n || (n =? 133) || (n =? 160).

(** The class [[a-zA-Z]]. *)
Definition is_alpha (c : ascii) : bool :=
  let n := code c in in_range 65 90 n || in_range 97 122 n.

(** The class [\d]. *)
Definition is_digit (c : ascii) : bool := in_range 48 57 (code c).

(** The class [\w]: alphanumeric characters and the underscore. *)
Definition is_word (c : ascii) : bool :=
  let n := code c in
  is_alpha c || is_digit c || (n =? 95)
  || (n =? 170) || (n =? 178) || (n =? 179) || (n =? 181)
  || (n =? 185) || (n =? 186) || in_range 188 190 n
  || in_range 192 214 n || in_range 216 246 n || in_range 248 255 n.

(** [str.lower] on one character. *)
Definition lower_char (c : ascii) : ascii :=
  let n := code c in
  if in_range 65 90 n || (in_range 192 222 n && negb (n =? 215))
  then ascii_of_nat (n + 32) else c.

Definition lower (s : str) : str := map lower_char s.

Fixpoint lstrip (s : str) : str :=
  match s with
  | c :: s' => if is_space c then lstrip s' else s
  | [] => []
  end.

Definition rstrip (s : str) : str := rev (lstrip (rev s)).

(** [s.strip()] *)
Definition strip (s : str) : str := lstrip (rstrip s).

(** Truth value of a string: [bool(s)]. *)
Definition truthy {A} (s : list A) : bool :=
  match s with [] => false | _ :: _ => true end.

(** [s.startswith(p)] *)
Fixpoint starts_with (p s : str) : bool :=
  match p, s with
  | [], _ => true
  | a :: p', b :: s' => if decide (a = b) then starts_with p' s' else false
  | _ :: _, [] => false
  end.

(** [sys.get_int_max_str_digits()]: the number of digits beyond which
    the conversions between [int] and [str] raise [ValueError]
    (Python 3.11 and the security releases of the versions before). *)
Definition int_max_str_digits : nat := 4300.

(** The value of [int(s)] for a string of decimal digits. *)
Definition int_of_digits (s : str) : Z :=
  fold_left (fun acc c => (10 * acc + Z.of_nat (code c - 48))%Z) s 0%Z.

(** [int(s)] on a string of decimal digits; [None] stands for the
    [ValueError] raised when [s] has more digits than the limit, leading
    zeros included. *)
Definition int (s : str) : option Z :=
  if (int_max_str_digits <? length s)%nat then None else Some (int_of_digits s).

(** [len(s)] as a Python integer. *)
Definition len {A} (s : list A) : Z := Z.of_nat (length s).

(** The double quote and the line feed. *)
Definition dquote : ascii := ascii_of_nat 34.
Definition newline : ascii := ascii_of_nat 10.

(** [sep.join(l)] *)
Fixpoint join (sep : str) (l : list str) : str :=
  match l with
  | [] => []
  | x :: l' =>
      match l' with
      | [] => x
      | _ :: _ => x ++ sep ++ join sep l'
      end
  end.

(** [s.replace(old, new)]: the occurrences of [old] are replaced from
    the left, and the search goes on after each of them.  [skip] counts
    the characters of the current occurrence still to be passed over. *)
Fixpoint replace_go (old new : str) (skip : nat) (s : str) : str :=
  match s with
  | [] => []
  | c :: s' =>
      match skip with
      | S k => replace_go old new k s'
      | O =>
          if starts_with old s
          then new ++ replace_go old new (length old - 1) s'
          else c :: replace_go old new 0 s'
      end
  end.

Definition replace (old new s : str) : str :=
  match old with
  | [] => new ++ concat (map (fun c => c :: new) s)
  | _ :: _ => replace_go old new 0 s
  end.

(** The decimal digits of a number. *)
Fixpoint digits_of_uint (d : Decimal.uint) : str :=
  match d with
  | Decimal.Nil => []
  | Decimal.D0 d => "0"%char :: digits_of_uint d
  | Decimal.D1 d => "1"%char :: digits_of_uint d
  | Decimal.D2 d => "2"%char :: digits_of_uint d
  | Decimal.D3 d => "3"%char :: digits_of_uint d
  | Decimal.D4 d => "4"%char :: digits_of_uint d
  | Decimal.D5 d => "5"%char :: digits_of_uint d
  | Decimal.D6 d => "6"%char :: digits_of_uint d
  | Decimal.D7 d => "7"%char :: digits_of_uint d
  | Decimal.D8 d => "8"%char :: digits_of_uint d
  | Decimal.D9 d => "9"%char :: digits_of_uint d
  end.

(** [str(n)] for a length or an index of a list, whose digits are far
    fewer than the limit. *)
Definition str_of_nat (n : nat) : str := digits_of_uint (Nat.to_uint n).


(** [s.lstrip(chars)] and [s.strip(chars)] *)
Fixpoint lstrip_of (chars s : str) : str :=
  match s with
  | c :: s' => if bool_decide (c ∈ chars) then lstrip_of chars s' else s
  | [] => []
  end.

Definition strip_of (chars s : str) : str :=
  lstrip_of chars (rev (lstrip_of chars (rev s))).

(** [s.rfind(ch)] for a character [ch], positions counted from [i]. *)
Fixpoint rfind_go (ch : ascii) (i : nat) (s : str) : option nat :=
  match s with
  | [] => None
  | c :: s' =>
      match rfind_go ch (S i) s' with
      | Some j => Some j
      | None => if bool_decide (c = ch) then Some i else None
      end
  end.

Definition rfind (ch : ascii) (s : str) : option nat := rfind_go ch 0 s.

(** [sub in s] *)
Fixpoint contains (sub s : str) : bool :=
  starts_with sub s || match s with [] => false | _ :: s' => contains sub s' end.

(** [s.split()]: the maximal runs of characters that are no whitespace.
    [cur] is the word being read, reversed. *)
Fixpoint split_go (cur : str) (s : str) : list str :=
  match s with
  | [] => if truthy cur then [rev cur] else []
  | c :: s' =>
      if is_space c
      then if truthy cur then rev cur :: split_go [] s' else split_go [] s'
      else split_go (c :: cur) s'
  end.

Definition split (s : str) : list str := split_go [] s.

(** The decimal text of an integer. *)
Definition str_of_int (n : Z) : str :=
  if (n <? 0)%Z then "-"%char :: str_of_nat (Z.to_nat (- n))
  else str_of_nat (Z.to_nat n).

(** The decimal text of [n] has no more digits than the limit, the sign
    not counted. *)
Definition within_str_digits (n : Z) : bool :=
  (Z.abs n <? 10 ^ Z.of_nat int_max_str_digits)%Z.

(** [str(n)] for an [int], also [int.__repr__] and the conversion of an
    f-string; [None] stands for the [ValueError] raised beyond the limit
    of digits. *)
Definition str_of (n : Z) : option str :=
  if within_str_digits n then Some (str_of_int n) else None.

End PyStr.

(** ** The regular expressions of the program *)
Module Re.
Import PyStr.

(** [span p s]: the longest prefix of [s] whose characters satisfy [p],
    and the rest. *)
Fixpoint span (p : ascii -> bool) (s : str) : str * str :=
  match s with
  | c :: s' => if p c then let '(a, b) := span p s' in (c :: a, b) else ([], s)
  | [] => ([], [])
  end.

Definition is_sentence_end (c : ascii) : bool :=
  let n := code c in (n =? 46) || (n =? 33) || (n =? 63).

(** [re.split(r'(?<=[.!?])\s+', text)].  A match starts at a whitespace
    character that follows one of [. ! ?] and extends over the whole
    whitespace run.  [prev] is the character before the cursor (the
    lookbehind), [in_sep] tells that the cursor is inside a match, [cur]
    is the piece being read, reversed. *)
Fixpoint split_sentences_go (prev : option ascii) (in_sep : bool)
    (cur : str) (s : str) : list str :=
  match s with
  | [] => [rev cur]
  | c :: s' =>
      if is_space c then
        if in_sep then split_sentences_go (Some c) true cur s'
        else match prev with
             | Some p =>
                 if is_sentence_end p
                 then rev cur :: split_sentences_go (Some c) true [] s'
                 else split_sentences_go (Some c) false (c :: cur) s'
             | None => split_sentences_go (Some c) false (c :: cur) s'
             end
      else split_sentences_go (Some c) false (c :: cur) s'
  end.

Definition split_sentences (text : str) : list str :=
  split_sentences_go None false [] text.

(** One attempt to match [\[PAGE (\d+)\]] at the head of [s]: the captured
    digits and the text after the match.  [\d+] is greedy and a shorter
    run of digits is followed by a digit, never by [\]], so backtracking
    finds no other match. *)
Definition match_page_marker (s : str) : option (str * str) :=
  if starts_with (py "[PAGE ") s then
    let '(digits, rest) := span is_digit (drop 6 s) in
    match digits, rest with
    | _ :: _, c :: rest' => if code c =? 93 then Some (digits, rest') else None
    | _, _ => None
    end
  else None.

(** [re.split(r'\[PAGE (\d+)\]', text)]: the pieces between the matches,
    with the captured group of each match between them.  [skip] counts
    the characters of the current match still to be passed over. *)
Fixpoint split_pages_go (skip : nat) (cur : str) (s : str) : list str :=
  match s with
  | [] => [rev cur]
  | c :: s' =>
      match skip with
      | S k => split_pages_go k cur s'
      | O =>
          match match_page_marker s with
          | Some (digits, rest) =>
              rev cur :: digits :: split_pages_go (length s' - length rest) [] s'
          | None => split_pages_go 0 (c :: cur) s'
          end
      end
  end.

Definition split_pages (text : str) : list str := split_pages_go 0 [] text.

(** [re.findall(r'\b[a-zA-Z]+\b', text)].  At a position where the
    previous character is no word character, the greedy run of letters
    matches when it is followed by no word character; a shorter run ends
    between two letters, where [\b] fails.  [prev_word] tells whether the
    character before the cursor is a word character. *)
Fixpoint findall_words_go (prev_word : bool) (skip : nat) (s : str) : list str :=
  match s with
  | [] => []
  | c :: s' =>
      match skip with
      | S k => findall_words_go (is_word c) k s'
      | O =>
          let '(run, rest) := span is_alpha s in
          let at_end := match rest with [] => true | d :: _ => negb (is_word d) end in
          if negb prev_word && truthy run && at_end
          then run :: findall_words_go (is_word c) (length run - 1) s'
          else findall_words_go (is_word c) 0 s'
      end
  end.

Definition findall_words (text : str) : list str := findall_words_go false 0 text.


Definition is_newline (c : ascii) : bool := code c =? 10.

(** The position of the last line feed of [run], counted from [i]. *)
Fixpoint last_newline (i : nat) (run : str) : option nat :=
  match run with
  | [] => None
  | c :: run' =>
      match last_newline (S i) run' with
      | Some j => Some j
      | None => if is_newline c then Some i else None
      end
  end.

(** [re.sub(r'\n\s*\n', '\n\n', text)].  A match starts at a line feed;
    [\s*] takes the whole run of whitespace after it and gives characters
    back until a line feed follows, so that the match ends at the last
    line feed of that run; a run without line feed gives no match at this
    position.  [skip] counts the characters of the current match still to
    be passed over. *)
Fixpoint sub_blank_lines_go (skip : nat) (s : str) : str :=
  match s with
  | [] => []
  | c :: s' =>
      match skip with
      | S k => sub_blank_lines_go k s'
      | O =>
          if is_newline c then
            match last_newline 0 (span is_space s').1 with
            | Some j => newline :: newline :: sub_blank_lines_go (S j) s'
            | None => c :: sub_blank_lines_go 0 s'
            end
          else c :: sub_blank_lines_go 0 s'
      end
  end.

Definition sub_blank_lines (text : str) : str := sub_blank_lines_go 0 text.

(** [re.sub(r'\s+', ' ', text)]: every maximal run of whitespace becomes
    one space.  [in_run] tells that the cursor is inside a run. *)
Fixpoint sub_spaces_go (in_run : bool) (s : str) : str :=
  match s with
  | [] => []
  | c :: s' =>
      if is_space c
      then if in_run then sub_spaces_go true s' else " "%char :: sub_spaces_go true s'
      else c :: sub_spaces_go false s'
  end.

Definition sub_spaces (text : str) : str := sub_spaces_go false text.

(** The punctuation listed after [\w] and [\s] in the character class of
    [_clean_text]. *)
Definition kept_punctuation : str :=
  py ".,!?;:-()[]{}" ++ [dquote] ++ py "'/&%$#@+=*".

Definition is_kept (c : ascii) : bool :=
  is_word c || is_space c || bool_decide (c ∈ kept_punctuation).

(** [re.sub(r'[^\w\s...]', ' ', text)] with the character class of
    [_clean_text]: a character that is neither a word character nor
    whitespace nor listed becomes a space. *)
Definition sub_special (text : str) : str :=
  map (fun c => if is_kept c then c else " "%char) text.


(** [re.sub(r'([.!?]){2,}', r'\1', text)]: a run of two or more of
    [. ! ?] is matched as a whole and replaced by what the group matched
    last, the last character of the run.  [skip] counts the characters of
    the current match still to be passed over. *)
Fixpoint sub_punctuation_runs_go (skip : nat) (s : str) : str :=
  match s with
  | [] => []
  | c :: s' =>
      match skip with
      | S k => sub_punctuation_runs_go k s'
      | O =>
          let run := (span is_sentence_end s).1 in
          if (2 <=? length run)%nat
          then List.last run c :: sub_punctuation_runs_go (length run - 1) s'
          else c :: sub_punctuation_runs_go 0 s'
      end
  end.

Definition sub_punctuation_runs (text : str) : str := sub_punctuation_runs_go 0 text.

End Re.

Import PyStr.

(** ** document_processor.py *)
Module DocumentProcessor.

(** A JSON-like Python value, as stored in chunk metadata. *)
Inductive pyval :=
  | PyInt (n : Z)
  | PyStr (s : str).

(** A metadata [dict]: keys in insertion order. *)
Abbreviation pydict := (list (str * pyval)).

(** The chunk dictionaries [{"content": ..., "metadata": ...}]. *)
Record Chunk := mkChunk { content : str; metadata : pydict }.

(** [d.get(key)] *)
Definition dict_get (d : pydict) (key : str) : option pyval :=
  snd <$> List.find (fun kv => bool_decide (kv.1 = key)) d.

(** [chunk["metadata"].get("page")] *)
Definition page_of (c : Chunk) : option pyval := dict_get (metadata c) (py "page").

(** [self.chunk_size], [self.chunk_overlap] *)
Record t := mk { chunk_size : Z; chunk_overlap : Z }.

(** [DocumentProcessor()] *)
Definition defaults : t := {| chunk_size := 800; chunk_overlap := 100 |}.

Section Methods.
Variable self : t.

(** [_get_overlap_text] *)
Definition _get_overlap_text (text : str) : str :=
  if (len text <=? chunk_overlap self)%Z then text
  else
    let overlap_start := Z.to_nat (len text - chunk_overlap self) in
    let window := drop overlap_start text in
    let sentences := Re.split_sentences window in
    if (1 <? length sentences)%nat then
      let final := List.last sentences [] in
      if truthy final then final else window
    else window.

(** The variables of the loop of [_split_text_into_chunks]. *)
Record loop := mkLoop {
  chunks : list str;
  current_chunk : str;
  current_length : Z
}.

(** One iteration of [for sentence in sentences]. *)
Definition chunk_step (st : loop) (raw : str) : loop :=
  let sentence := strip raw in
  if negb (truthy sentence) then st
  else
    let sentence_length := len sentence in
    if (current_length st + sentence_length >? chunk_size self)%Z
       && truthy (current_chunk st)
    then
      let overlap_text := _get_overlap_text (current_chunk st) in
      let next := overlap_text ++ py " " ++ sentence in
      {| chunks := chunks st ++ [strip (current_chunk st)];
         current_chunk := next;
         current_length := len next |}
    else
      let next := if truthy (current_chunk st)
                  then current_chunk st ++ py " " ++ sentence
                  else sentence in
      {| chunks := chunks st;
         current_chunk := next;
         current_length :=
           (current_length st + (sentence_length + (if truthy next then 1 else 0)))%Z |}.

Definition loop_init : loop :=
  {| chunks := []; current_chunk := []; current_length := 0 |}.

(** [_split_text_into_chunks] *)
Definition _split_text_into_chunks (text : str) : list str :=
  if negb (truthy text) then []
  else
    let st := fold_left chunk_step (Re.split_sentences text) loop_init in
    if truthy (strip (current_chunk st))
    then chunks st ++ [strip (current_chunk st)]
    else chunks st.

(** The sentences that the loop of [_split_text_into_chunks] appends:
    the pieces of the split, stripped, without the empty ones. *)
Definition sentences_of (text : str) : list str :=
  filter (fun s => s ≠ []) (strip <$> Re.split_sentences text).

(** [_get_overlap_text] took the text after a sentence boundary inside
    the overlap window. *)
Definition snapped (text : str) : Prop :=
  (chunk_overlap self < len text)%Z
  ∧ (1 < length (Re.split_sentences
                   (drop (Z.to_nat (len text - chunk_overlap self)) text)))%nat.

(** The dictionary appended for a kept chunk. *)
Definition chunk_record (filename : str) (page : pyval) (chunk_text : str) : Chunk :=
  {| content := strip chunk_text;
     metadata := [ (py "filename", PyStr filename);
                   (py "page", page);
                   (py "chunk_length", PyInt (len chunk_text)) ] |}.

(** [for chunk_text in ...: if len(chunk_text.strip()) > 50: chunks.append(...)] *)
Definition keep_chunks (filename : str) (page : pyval) (texts : list str) : list Chunk :=
  map (chunk_record filename page)
      (filter (fun chunk_text => (50 < len (strip chunk_text))%Z) texts).

(** The pairs [(pages[i], pages[i + 1])] visited by
    [for i in range(1, len(pages), 2): if i + 1 < len(pages)],
    from [pages[1:]]. *)
Fixpoint page_regions (rest : list str) : list (str * str) :=
  match rest with
  | num :: body :: rest' => (num, body) :: page_regions rest'
  | _ => []
  end.

(** The body of the loop over the page regions; [None] when
    [int(pages[i])] raises. *)
Definition region_chunks (filename : str) (region : str * str) : option (list Chunk) :=
  page_num ← int region.1;
  let page_text := strip region.2 in
  Some (if truthy page_text
        then keep_chunks filename (PyInt page_num) (_split_text_into_chunks page_text)
        else []).

(** The chunks gathered from the marker-delimited page regions; [None]
    when an iteration raises. *)
Definition marked_chunks (text filename : str) : option (list Chunk) :=
  found ← mapM (region_chunks filename) (page_regions (tail (Re.split_pages text)));
  Some (concat found).

(** The branch [if not chunks:] of [create_chunks]. *)
Definition fallback_chunks (text filename : str) : list Chunk :=
  keep_chunks filename (PyStr (py "N/A")) (_split_text_into_chunks text).

(** [create_chunks]; [None] stands for the [ValueError] of [int], which
    the method does not catch. *)
Definition create_chunks (text filename : str) : option (list Chunk) :=
  if negb (truthy text) then Some []
  else
    chunks ← marked_chunks text filename;
    Some (if negb (truthy chunks) then chunks ++ fallback_chunks text filename
          else chunks).

End Methods.

(** *** Text extraction *)

(** The first argument of the last [replace] of [_clean_text].  The line
    is written with ASCII quotes only,
    [.replace(''', "'").replace(''', "'")]: three apostrophes open a
    string that the next three apostrophes close, so that this is one
    call of [replace], whose first argument is the text between them and
    whose second argument is an apostrophe. *)
Definition quote_pattern : str :=
  py ", " ++ [dquote] ++ py "'" ++ [dquote] ++ py ").replace(".

(** [_clean_text] *)
Definition _clean_text (text : str) : str :=
  if negb (truthy text) then []
  else
    let text := Re.sub_blank_lines text in
    let text := Re.sub_spaces text in
    let text := Re.sub_special text in
    let text :=
      replace quote_pattern (py "'")
        (replace [dquote] [dquote] (replace [dquote] [dquote] text)) in
    strip text.

(** The literal [sample_text] of [_get_sample_text], line by line. *)
Definition sample_text : str :=
  join [newline] [
    py "";
    py "        [PAGE 1]";
    py "        PAVES TECHNOLOGIES - COMPANY OVERVIEW";
    py "        ";
    py "        Paves Technologies is a leading construction and infrastructure company specializing in ";
    py "        road construction, bridge building, and urban development projects. Founded in 2010, ";
    py "        we have completed over 500 major infrastructure projects across the region.";
    py "        ";
    py "        Our core services include:";
    py "        - Highway and road construction";
    py "        - Bridge engineering and construction";
    py "        - Urban planning and development";
    py "        - Environmental impact assessments";
    py "        - Project management and consulting";
    py "        ";
    py "        [PAGE 2]";
    py "        SAFETY PROTOCOLS";
    py "        ";
    py "        Safety is our top priority at Paves Technologies. All employees must follow these ";
    py "        essential safety protocols:";
    py "        ";
    py "        1. Personal Protective Equipment (PPE) must be worn at all times on construction sites";
    py "        2. Daily safety meetings are mandatory before starting work";
    py "        3. All equipment must be inspected before use";
    py "        4. Emergency procedures must be reviewed weekly";
    py "        5. Incident reporting is required within 24 hours";
    py "        ";
    py "        For emergency situations, contact the safety hotline: 1-800-PAVES-SAFE";
    py "        ";
    py "        [PAGE 3]";
    py "        PROJECT MANAGEMENT GUIDELINES";
    py "        ";
    py "        Effective project management is crucial for successful delivery of infrastructure projects.";
    py "        Our standard procedures include:";
    py "        ";
    py "        - Initial site assessment and planning";
    py "        - Environmental compliance verification";
    py "        - Resource allocation and scheduling";
    py "        - Quality control checkpoints";
    py "        - Client communication protocols";
    py "        - Final project documentation and handover";
    py "        "
  ].

(** [_get_sample_text] *)
Definition _get_sample_text : str := _clean_text sample_text.

(** What [page.extract_text()] does for one page: it raises, or it
    returns a text ([None] counts as the empty text). *)
Inductive page_read :=
  | PageRaises
  | PageText (page_text : str).

(** What reading the file at [file_path] gives: [None] when [open],
    [PdfReader] or the enumeration of the pages raises, else the pages. *)
Abbreviation pdf := (option (list page_read)).

(** What one iteration of the loop over the pages adds to [text_content]. *)
Definition page_piece (page_num : nat) (page : page_read) : str :=
  match page with
  | PageRaises => []
  | PageText page_text =>
      if truthy page_text
      then [newline] ++ py "[PAGE " ++ str_of_nat (page_num + 1) ++ py "]"
           ++ [newline] ++ page_text ++ [newline]
      else []
  end.

(** [extract_text] *)
Definition extract_text (file : pdf) : str :=
  match file with
  | None => _get_sample_text
  | Some pages =>
      let text_content := concat (imap page_piece pages) in
      if negb (truthy (strip text_content)) then _get_sample_text
      else _clean_text text_content
  end.

End DocumentProcessor.

(** ** vector_store.py *)
Module VectorStore.
Import DocumentProcessor.

(** An element of [self.documents]. *)
Record DocEntry := mkDoc {
  id : str;
  doc_content : str;
  doc_metadata : pydict;
  tokens : list str
}.

(** The in-memory state of the store. *)
Record t := mk {
  documents : list DocEntry;
  vocabulary : gset str;
  idf_scores : gmap str R
}.

(** The state set up by [__init__] before [_load_data]. *)
Definition empty : t := {| documents := []; vocabulary := ∅; idf_scores := ∅ |}.

(** An element of the list returned by [similarity_search]. *)
Record Result := mkResult {
  res_content : str;
  res_metadata : pydict;
  score : R
}.

(** *** Floats *)

(** [sum(xs)]: from 0, left to right. *)
Definition sum (xs : list R) : R := fold_left Rplus xs 0%R.

(** [x > y] *)
Definition Rgtb (x y : R) : bool := if Rgt_dec x y then true else false.

(** [x == y] *)
Definition Reqb (x y : R) : bool := if Req_dec_T x y then true else false.

#[export] Instance R_eq_dec : EqDecision R := Req_dec_T.

(** *** Tokens and weights *)

(** [_tokenize] *)
Definition _tokenize (text : str) : list str :=
  filter (fun token => (2 < length token)%nat) (Re.findall_words (lower text)).

(** [c[key] += 1] on a [Counter]. *)
Definition incr (c : gmap str nat) (key : str) : gmap str nat :=
  <[key := S (default 0%nat (c !! key))]> c.

(** [Counter(tokens)] *)
Definition Counter (tokens : list str) : gmap str nat := fold_left incr tokens ∅.

(** [_calculate_tf] *)
Definition _calculate_tf (tokens : list str) : gmap str R :=
  let token_count := Counter tokens in
  let total_tokens := length tokens in
  (fun count : nat => (INR count / INR total_tokens)%R) <$> token_count.

(** The counter [term_doc_count] at the end of the loop of [_calculate_idf]:
    one increment per document and distinct token of its content. *)
Definition term_doc_count (docs : list DocEntry) : gmap str nat :=
  fold_left
    (fun c doc =>
       let doc_tokens : gset str := list_to_set (_tokenize (doc_content doc)) in
       fold_left incr (elements doc_tokens) c)
    docs ∅.

(** The dictionary built at the end of [_calculate_idf]. *)
Definition idf_table (docs : list DocEntry) : gmap str R :=
  let total_docs := length docs in
  (fun count : nat => ln (INR total_docs / INR count)) <$> term_doc_count docs.

(** [_calculate_idf] *)
Definition _calculate_idf (self : t) : t :=
  if negb (truthy (documents self)) then self
  else {| documents := documents self;
          vocabulary := vocabulary self;
          idf_scores := idf_table (documents self) |}.

(** [d.get(term, 0)] *)
Definition get0 (d : gmap str R) (term : str) : R := default 0%R (d !! term).

(** One iteration of the loop of [_get_tfidf_vector].  [tf_scores[token]]
    is defined for every token of the loop. *)
Definition tfidf_step (self : t) (tf_scores tfidf_vector : gmap str R)
    (token : str) : gmap str R :=
  match idf_scores self !! token with
  | Some w => <[token := (get0 tf_scores token * w)%R]> tfidf_vector
  | None => tfidf_vector
  end.

(** [_get_tfidf_vector] *)
Definition _get_tfidf_vector (self : t) (tokens : list str) : gmap str R :=
  let tf_scores := _calculate_tf tokens in
  fold_left (tfidf_step self tf_scores) tokens ∅.

(** [dict.values()] *)
Definition values (d : gmap str R) : list R := (map_to_list d).*2.

Definition dot_product (vec1 vec2 : gmap str R) : R :=
  let all_terms : gset str := dom vec1 ∪ dom vec2 in
  sum (map (fun term => (get0 vec1 term * get0 vec2 term)%R) (elements all_terms)).

Definition magnitude (vec : gmap str R) : R :=
  sqrt (sum (map (fun val => (val ^ 2)%R) (values vec))).

(** [_calculate_cosine_similarity] *)
Definition _calculate_cosine_similarity (vec1 vec2 : gmap str R) : R :=
  let all_terms : gset str := dom vec1 ∪ dom vec2 in
  if negb (truthy (elements all_terms)) then 0%R
  else
    let magnitude1 := magnitude vec1 in
    let magnitude2 := magnitude vec2 in
    if Reqb magnitude1 0 || Reqb magnitude2 0 then 0%R
    else (dot_product vec1 vec2 / (magnitude1 * magnitude2))%R.

(** *** Ranking *)

(** The similarity computed for one stored document. *)
Definition similarity_of (self : t) (query_tfidf : gmap str R) (doc : DocEntry) : R :=
  _calculate_cosine_similarity query_tfidf (_get_tfidf_vector self (tokens doc)).

Definition result_of (doc : DocEntry) (similarity : R) : Result :=
  {| res_content := doc_content doc;
     res_metadata := doc_metadata doc;
     score := similarity |}.

(** The list [similarities] after the loop over [self.documents]. *)
Definition similarities (self : t) (query_tfidf : gmap str R) : list Result :=
  omap (fun doc =>
          let similarity := similarity_of self query_tfidf doc in
          if Rgtb similarity 0 then Some (result_of doc similarity) else None)
       (documents self).

(** [list.sort(key=lambda x: x['score'], reverse=True)].  The sort of
    Python is stable, also with [reverse=True]: the result is the unique
    arrangement in descending order of the key that keeps elements of
    equal key in their original order.  It is computed here by insertion
    from the right: an element goes before the first one whose key is not
    greater than its own. *)
Fixpoint insert_desc (x : Result) (l : list Result) : list Result :=
  match l with
  | [] => [x]
  | y :: l' => if Rgtb (score y) (score x) then y :: insert_desc x l' else x :: l
  end.

Definition sort_desc (l : list Result) : list Result := foldr insert_desc [] l.

(** The slice [l[:k]]: a negative [k] counts from the end. *)
Definition slice_to {A} (k : Z) (l : list A) : list A :=
  if (0 <=? k)%Z then take (Z.to_nat k) l
  else take (Z.to_nat (len l + k)) l.

(** [similarity_search] *)
Definition similarity_search (self : t) (query : str) (top_k : Z) : list Result :=
  if negb (truthy (strip query)) then []
  else if negb (truthy (documents self)) then []
  else
    let query_tokens := _tokenize query in
    if negb (truthy query_tokens) then []
    else
      let query_tfidf := _get_tfidf_vector self query_tokens in
      slice_to top_k (sort_desc (similarities self query_tfidf)).

(** The default [top_k]. *)
Definition default_top_k : Z := 5.

(** *** The snapshot file *)

(** A JSON value. *)
#[warnings="-register-all"]
Inductive json :=
  | JInt (n : Z)
  | JFloat (x : R)
  | JStr (s : str)
  | JList (l : list json)
  | JObj (fields : list (str * json)).

(** The file at [self.storage_path]: there is none; or its text is not
    the text of a JSON value (an empty or a truncated file, for one) or
    it cannot be read; or [json.load] reads [data] from it. *)
Inductive FileContent :=
  | Missing
  | Unreadable
  | Snapshot (data : json).

(** What the file system does when [_save_data] writes the snapshot:
    [open(self.storage_path, 'w')] raises and the file is left as it
    was; or [open] has truncated the file and a write raises before the
    text is complete; or every write succeeds. *)
Inductive WriteOutcome :=
  | OpenRaises
  | WriteRaises
  | Written.

Record Disk := mkDisk { file : FileContent; write : WriteOutcome }.

Definition json_of_pyval (v : pyval) : json :=
  match v with PyInt n => JInt n | PyStr s => JStr s end.

Definition json_of_doc (d : DocEntry) : json :=
  JObj [ (py "id", JStr (id d));
         (py "content", JStr (doc_content d));
         (py "metadata", JObj (prod_map (fun k => k) json_of_pyval <$> doc_metadata d));
         (py "tokens", JList (JStr <$> tokens d)) ].

(** The dictionary [data] of [_save_data]. *)
Definition snapshot_of (self : t) : json :=
  JObj [ (py "documents", JList (json_of_doc <$> documents self));
         (py "vocabulary", JList (JStr <$> elements (vocabulary self)));
         (py "idf_scores", JObj (prod_map (fun k => k) JFloat <$> map_to_list (idf_scores self))) ].

(** [json.dump] can encode [data]: it converts each integer with
    [int.__repr__], which raises beyond the limit of digits.  The
    integers of [data] are the integer values of the metadata. *)
Definition dumpable_value (v : pyval) : bool :=
  match v with PyInt n => within_str_digits n | PyStr _ => true end.

Definition dumpable (self : t) : bool :=
  forallb (fun d => forallb (fun kv : str * pyval => dumpable_value kv.2) (doc_metadata d))
          (documents self).

(** [_save_data]: an exception is caught and logged, whether it is
    raised by [open], which leaves the file as it was, or by [json.dump]
    after [open] has truncated the file, which leaves the beginning of
    the text at most.  [json.dump] writes the text piece by piece and
    raises when the file system does or when it reaches an integer that
    it cannot convert. *)
Definition _save_data (self : t) (disk : Disk) : Disk :=
  match write disk with
  | OpenRaises => disk
  | WriteRaises => {| file := Unreadable; write := write disk |}
  | Written =>
      if dumpable self
      then {| file := Snapshot (snapshot_of self); write := write disk |}
      else {| file := Unreadable; write := write disk |}
  end.

(** [data.get(key, dflt)] on the object read back by [json.load], where
    the last binding of a repeated key wins. *)
Definition json_get (fields : list (str * json)) (key : str) (dflt : json) : json :=
  match List.find (fun kv => bool_decide (kv.1 = key)) (rev fields) with
  | Some kv => kv.2
  | None => dflt
  end.

Definition str_of_json (j : json) : option str :=
  match j with JStr s => Some s | _ => None end.

Definition pyval_of_json (j : json) : option pyval :=
  match j with JInt n => Some (PyInt n) | JStr s => Some (PyStr s) | _ => None end.

Definition float_of_json (j : json) : option R :=
  match j with JFloat x => Some x | _ => None end.

Definition list_of_json (j : json) : option (list json) :=
  match j with JList l => Some l | _ => None end.

Definition fields_of_json (j : json) : option (list (str * json)) :=
  match j with JObj fields => Some fields | _ => None end.

(** The fields of an object, each value read with [f]. *)
Definition fields_with {A} (f : json -> option A) (j : json) : option (list (str * A)) :=
  fields ← fields_of_json j;
  mapM (fun kv : str * json => v ← f kv.2; Some (kv.1, v)) fields.

(** A stored document as a typed record; [None] when the value does not
    have the shape written by [_save_data]. *)
Definition doc_of_json (j : json) : option DocEntry :=
  fields ← fields_of_json j;
  i ← str_of_json (json_get fields (py "id") (JList []));
  c ← str_of_json (json_get fields (py "content") (JList []));
  m ← fields_with pyval_of_json (json_get fields (py "metadata") (JList []));
  ts ← list_of_json (json_get fields (py "tokens") (JObj [])) ≫= mapM str_of_json;
  Some {| id := i; doc_content := c; doc_metadata := m; tokens := ts |}.

(** [_load_data].  A missing file leaves the state as it is, and so does
    a file that cannot be read or parsed, as a file that [_save_data]
    left truncated (the exception is caught and logged).  A snapshot whose three fields do not have the shapes
    written by [_save_data] has no counterpart in the typed state and is
    treated like an unreadable file. *)
Definition _load_data (self : t) (disk : Disk) : t :=
  match file disk with
  | Snapshot (JObj data) =>
      let loaded :=
        docs ← list_of_json (json_get data (py "documents") (JList [])) ≫= mapM doc_of_json;
        vocab ← list_of_json (json_get data (py "vocabulary") (JList [])) ≫= mapM str_of_json;
        idf ← fields_with float_of_json (json_get data (py "idf_scores") (JObj []));
        Some {| documents := docs;
                vocabulary := list_to_set vocab;
                idf_scores := list_to_map (rev idf) |} in
      default self loaded
  | _ => self
  end.

(** *** Insertion *)

(** One iteration of the loop of [add_documents]; [uuid4 n] is the
    identifier drawn for the [n]-th entry added by the call. *)
Definition add_one (uuid4 : nat -> str) (acc : t * nat) (doc : Chunk) : t * nat :=
  let '(self, added_count) := acc in
  let content := content doc in
  if negb (truthy (strip content)) then acc
  else
    let doc_entry := {| id := uuid4 added_count;
                        doc_content := content;
                        doc_metadata := metadata doc;
                        tokens := _tokenize content |} in
    ({| documents := documents self ++ [doc_entry];
        vocabulary := vocabulary self ∪ list_to_set (tokens doc_entry);
        idf_scores := idf_scores self |},
     S added_count).

(** [add_documents]: the value returned, the state and the disk after
    the call. *)
Definition add_documents (uuid4 : nat -> str) (self : t) (disk : Disk)
    (docs : list Chunk) : bool * t * Disk :=
  if negb (truthy docs) then (false, self, disk)
  else
    let '(self1, added_count) := fold_left (add_one uuid4) docs (self, 0%nat) in
    if (0 <? added_count)%nat then
      let self2 := _calculate_idf self1 in
      (true, self2, _save_data self2 disk)
    else (false, self1, disk).

(** *** What a call of [add_documents] appends *)

(** [content.strip()] is not empty. *)
Definition valid (doc : Chunk) : bool := truthy (strip (content doc)).

(** The entries appended for [docs], the first one numbered [n]. *)
Fixpoint new_entries (uuid4 : nat -> str) (n : nat) (docs : list Chunk) : list DocEntry :=
  match docs with
  | [] => []
  | doc :: rest =>
      if valid doc
      then {| id := uuid4 n;
              doc_content := content doc;
              doc_metadata := metadata doc;
              tokens := _tokenize (content doc) |} :: new_entries uuid4 (S n) rest
      else new_entries uuid4 n rest
  end.

(** The tokens of a list of entries, as a set. *)
Definition vocab_of (entries : list DocEntry) : gset str :=
  ⋃ ((fun e => list_to_set (tokens e)) <$> entries).

(** The state after [entries] were appended and the weights recomputed. *)
Definition grown (self : t) (entries : list DocEntry) : t :=
  {| documents := documents self ++ entries;
     vocabulary := vocabulary self ∪ vocab_of entries;
     idf_scores := idf_table (documents self ++ entries) |}.

(** The number of documents of [docs] whose token set contains [term]. *)
Definition doc_freq (docs : list DocEntry) (term : str) : nat :=
  length (filter (fun d => term ∈ _tokenize (doc_content d)) docs).

(** *** The other operations of the store *)

(** [get_collection_size] *)
Definition get_collection_size (self : t) : Z := len (documents self).

(** [__init__]: the empty state, then [_load_data]. *)
Definition init (disk : Disk) : t := _load_data empty disk.

(** [clear_collection]: the value returned, the state and the disk after
    the call.  [_save_data] catches its own failure, so the [except]
    branch is never taken. *)
Definition clear_collection (self : t) (disk : Disk) : bool * t * Disk :=
  (true, empty, _save_data empty disk).

(** [delete_collection].  [remove_ok] tells whether [os.remove] succeeds
    on the snapshot file; when it raises, the exception is caught before
    the state is reset. *)
Definition delete_collection (remove_ok : bool) (self : t) (disk : Disk)
    : bool * t * Disk :=
  match file disk with
  | Missing => (true, empty, disk)
  | _ =>
      if remove_ok
      then (true, empty, {| file := Missing; write := write disk |})
      else (false, self, disk)
  end.

#[export] Instance pyval_eq_dec : EqDecision pyval.
Proof. solve_decision. Defined.

(** The test [key in metadata and metadata[key] == value] for every item
    of the filter. *)
Definition metadata_matches (metadata metadata_filter : pydict) : bool :=
  forallb
    (fun kv : str * pyval =>
       match dict_get metadata kv.1 with
       | Some v => bool_decide (v = kv.2)
       | None => false
       end)
    metadata_filter.

(** [search_by_metadata] *)
Definition search_by_metadata (self : t) (metadata_filter : pydict) (top_k : Z)
    : list Result :=
  let filtered_results :=
    (fun doc => {| res_content := doc_content doc;
                   res_metadata := doc_metadata doc;
                   score := 1%R |})
      <$> filter (fun doc => metadata_matches (doc_metadata doc) metadata_filter = true)
                 (documents self) in
  slice_to top_k filtered_results.

(** The default [top_k] of [search_by_metadata]. *)
Definition default_metadata_top_k : Z := 10.

End VectorStore.


(** ** utils.py *)
Module Utils.
Import DocumentProcessor.

(** [clean_text].  The character class of the second substitution is the
    one of [_clean_text] with the line feed added, which is whitespace
    already; the line of the apostrophes reads as in [_clean_text]. *)
Definition clean_text (text : str) : str :=
  if negb (truthy text) then []
  else
    let text := Re.sub_spaces text in
    let text := Re.sub_special text in
    let text := replace [dquote] [dquote] (replace [dquote] [dquote] text) in
    let text := replace quote_pattern (py "'") text in
    let text := Re.sub_punctuation_runs text in
    strip text.

(** The characters that [sanitize_filename] replaces. *)
Definition unsafe_chars : str := py "<>:" ++ [dquote] ++ py "/\|?*".

(** [os.path.splitext(p)] for a [p] without path separator: the split is
    at the last dot, unless only dots stand before it. *)
Definition splitext (p : str) : str * str :=
  match rfind "."%char p with
  | Some dotIndex =>
      if forallb (fun c => bool_decide (c = "."%char)) (take dotIndex p)
      then (p, [])
      else (take dotIndex p, drop dotIndex p)
  | None => (p, [])
  end.

(** [sanitize_filename] *)
Definition sanitize_filename (filename : str) : str :=
  let filename :=
    map (fun c => if bool_decide (c ∈ unsafe_chars) then "_"%char else c) filename in
  let filename := strip_of (py " .") filename in
  let filename := if negb (truthy filename) then py "untitled" else filename in
  if (100 <? len filename)%Z then
    let '(name, ext) := splitext filename in
    take 95 name ++ ext
  else filename.

(** The set [stop_words] of [extract_keywords]. *)
Definition stop_words : list str :=
  py <$> [ "the"; "and"; "are"; "for"; "with"; "this"; "that"; "was"; "were";
           "been"; "have"; "has"; "had"; "will"; "would"; "could"; "should";
           "can"; "may"; "might"; "must"; "shall"; "from"; "into"; "onto";
           "upon"; "over"; "under"; "above"; "below"; "between"; "among" ]%string.

(** [re.findall(r'\b[A-Za-z]{3,}\b', text)]: as for [\b[a-zA-Z]+\b] a match
    is a whole run of letters between two characters that are no word
    characters, here of three letters at least; after a shorter run, or a
    run that a digit or an underscore follows, the search goes on inside
    the run, where [\b] fails. *)
Definition findall_long_words (text : str) : list str :=
  filter (fun w => (3 <= length w)%nat) (Re.findall_words text).

(** [word_count[word] = word_count.get(word, 0) + 1] on a [dict], whose
    items keep the order of insertion. *)
Fixpoint bump (word : str) (word_count : list (str * nat)) : list (str * nat) :=
  match word_count with
  | [] => [(word, 1%nat)]
  | (w, n) :: rest =>
      if bool_decide (w = word) then (w, S n) :: rest else (w, n) :: bump word rest
  end.

(** [sorted(items, key=lambda x: x[1], reverse=True)]: descending and
    stable, by insertion from the right. *)
Fixpoint insert_by_count (x : str * nat) (l : list (str * nat)) : list (str * nat) :=
  match l with
  | [] => [x]
  | y :: l' => if (x.2 <? y.2)%nat then y :: insert_by_count x l' else x :: l
  end.

Definition sorted_by_count (l : list (str * nat)) : list (str * nat) :=
  foldr insert_by_count [] l.

(** The dictionary [word_count] after the loop. *)
Definition word_counts (words : list str) : list (str * nat) :=
  fold_left
    (fun word_count word =>
       if bool_decide (word ∉ stop_words) && (3 <? length word)%nat
       then bump word word_count else word_count)
    words [].

(** [extract_keywords] *)
Definition extract_keywords (text : str) (max_keywords : Z) : list str :=
  if negb (truthy text) then []
  else
    let words := findall_long_words (lower text) in
    let sorted_words := sorted_by_count (word_counts words) in
    fst <$> VectorStore.slice_to max_keywords sorted_words.

Definition default_max_keywords : Z := 10.

End Utils.

(** ** llm_client.py *)
Module LLMClient.

(** What a call of [client.chat.completions.create] gives: an exception
    (also one raised while the response is read), a response without
    choice or message, or the content of the first choice. *)
Inductive completion :=
  | ApiRaises
  | NoChoice
  | Content (text : str).

(** What a streaming call gives: an exception at once, or the [content]
    of the deltas received ([None] for a delta without content) and the
    message of the exception that ended the stream, if one did. *)
Inductive stream :=
  | StreamRaises (message : str)
  | Deltas (contents : list (option str)) (failure : option str).

(** The client: [use_fallback], and the service behind [self.client],
    which answers the system prompt and the user message. *)
Record t := mk {
  use_fallback : bool;
  create : str → str → completion;
  create_stream : str → str → stream
}.

Definition safety_response : str :=
  join [newline] [
    py "Based on the company documentation, Paves Technologies prioritizes safety with the following key protocols:";
    py "";
    py "1. **Personal Protective Equipment (PPE)** must be worn at all times on construction sites";
    py "2. **Daily safety meetings** are mandatory before starting work";
    py "3. **All equipment must be inspected** before use";
    py "4. **Emergency procedures** must be reviewed weekly";
    py "5. **Incident reporting** is required within 24 hours";
    py "";
    py "For emergency situations, contact the safety hotline: 1-800-PAVES-SAFE";
    py "";
    py "Note: This response is generated using fallback mode. For full functionality, please provide a Groq API key."
  ].

Definition services_response : str :=
  join [newline] [
    py "According to Paves Technologies documentation, our core services include:";
    py "";
    py "- **Highway and road construction**";
    py "- **Bridge engineering and construction**";
    py "- **Urban planning and development**";
    py "- **Environmental impact assessments**";
    py "- **Project management and consulting**";
    py "";
    py "Our project management process follows these key steps:";
    py "- Initial site assessment and planning";
    py "- Environmental compliance verification";
    py "- Resource allocation and scheduling";
    py "- Quality control checkpoints";
    py "- Client communication protocols";
    py "- Final project documentation and handover";
    py "";
    py "Note: This response is generated using fallback mode. For full functionality, please provide a Groq API key."
  ].

Definition company_response : str :=
  join [newline] [
    py "Paves Technologies is a leading construction and infrastructure company specializing in road construction, bridge building, and urban development projects. Founded in 2010, we have completed over 500 major infrastructure projects across the region.";
    py "";
    py "Key highlights:";
    py "- Established in 2010";
    py "- Over 500 completed projects";
    py "- Specializes in infrastructure development";
    py "- Focus on road construction and bridge engineering";
    py "- Commitment to safety and quality standards";
    py "";
    py "Note: This response is generated using fallback mode. For full functionality, please provide a Groq API key."
  ].

Definition generic_response (question : str) : str :=
  join [newline] [
    py "Based on the available company documentation, I can provide information about Paves Technologies' operations, safety protocols, and project management procedures.";
    py "";
    py "Your question: " ++ [dquote] ++ question ++ [dquote];
    py "";
    py "The most relevant information from our documents suggests that Paves Technologies is committed to excellence in construction and infrastructure development, with a strong emphasis on safety protocols and professional project management.";
    py "";
    py "For more detailed and contextual responses, please provide a Groq API key to enable the full AI capabilities of this system.";
    py "";
    py "Note: This response is generated using fallback mode."
  ].

(** [_generate_fallback_response] *)
Definition _generate_fallback_response (question context : str) : str :=
  let question_lower := lower question in
  if contains (py "safety") question_lower || contains (py "protocol") question_lower
  then safety_response
  else if contains (py "service") question_lower || contains (py "project") question_lower
  then services_response
  else if contains (py "company") question_lower || contains (py "overview") question_lower
  then company_response
  else generic_response question.

(** The user message of the chat completion. *)
Definition user_message (question context : str) : str :=
  py "Context:" ++ [newline] ++ context ++ [newline; newline]
  ++ py "Question: " ++ question ++ [newline; newline]
  ++ py "Please provide a comprehensive answer based on the context provided.".

(** [generate_response] *)
Definition generate_response (self : t) (question context system_prompt : str)
    : option str :=
  if use_fallback self then Some (_generate_fallback_response question context)
  else
    match create self system_prompt (user_message question context) with
    | Content text => Some (strip text)
    | NoChoice => None
    | ApiRaises => Some (_generate_fallback_response question context)
    end.

(** [range(0, n, 3)] *)
Definition range3 (n : nat) : list nat := (fun k => 3 * k)%nat <$> seq 0 ((n + 2) / 3).

(** [generate_streaming_response]: the texts that the generator yields. *)
Definition generate_streaming_response (self : t)
    (question context system_prompt : str) : list str :=
  if use_fallback self then
    let response := _generate_fallback_response question context in
    let words := split response in
    (fun i => join (py " ") (take 3 (drop i words)) ++ py " ") <$> range3 (length words)
  else
    match create_stream self system_prompt (user_message question context) with
    | StreamRaises message => [py "Error: " ++ message]
    | Deltas contents failure =>
        omap (fun content => content) contents
        ++ match failure with
           | Some message => [py "Error: " ++ message]
           | None => []
           end
    end.

End LLMClient.

(** ** rag_system.py *)
Module RAGSystem.
Import DocumentProcessor VectorStore.

(** The components of the system. *)
Record t := mk {
  document_processor : DocumentProcessor.t;
  vector_store : VectorStore.t;
  llm_client : LLMClient.t
}.

(** [_create_system_prompt] *)
Definition _create_system_prompt : str :=
  join [newline] [
    py "You are an AI assistant for Paves Technologies, a construction and infrastructure company. ";
    py "        You help employees and stakeholders find information from company documents including:";
    py "        - Project specifications and documentation";
    py "        - Company policies and procedures  ";
    py "        - Technical guidelines and standards";
    py "        - Safety protocols and regulations";
    py "        - Contract information and legal documents";
    py "        ";
    py "        Guidelines for responses:";
    py "        1. Always be professional and accurate";
    py "        2. If information is not available in the provided context, clearly state that";
    py "        3. Cite specific document sources when possible";
    py "        4. For safety-related questions, emphasize the importance of following proper protocols";
    py "        5. Use construction industry terminology appropriately";
    py "        6. Maintain confidentiality of sensitive business information";
    py "        ";
    py "        Base your answers strictly on the provided context from Paves Technologies documents."
  ].

Definition system_prompt : str := _create_system_prompt.

(** [add_document]: the value returned, the system and the snapshot file
    after the call.  The [ValueError] of [create_chunks] is caught by the
    [except] of the method, which returns [False]. *)
Definition add_document (uuid4 : nat → str) (self : t) (disk : Disk)
    (file : pdf) (filename : str) : bool * t * Disk :=
  let text_content := extract_text file in
  if negb (truthy text_content) then (false, self, disk)
  else
    match create_chunks (document_processor self) text_content filename with
    | None => (false, self, disk)
    | Some chunks =>
        if negb (truthy chunks) then (false, self, disk)
        else
          let '(success, store, disk') :=
            add_documents uuid4 (vector_store self) disk chunks in
          (success,
           {| document_processor := document_processor self;
              vector_store := store;
              llm_client := llm_client self |},
           disk')
    end.

(** [str(v)] of a metadata value in an f-string; [None] when it raises. *)
Definition str_of_pyval (v : pyval) : option str :=
  match v with
  | PyInt n => str_of n
  | PyStr s => Some s
  end.

(** [metadata.get("filename", "Unknown")], [metadata.get("page", "N/A")] *)
Definition filename_of (metadata : pydict) : pyval :=
  default (PyStr (py "Unknown")) (dict_get metadata (py "filename")).

Definition page_or_na (metadata : pydict) : pyval :=
  default (PyStr (py "N/A")) (dict_get metadata (py "page")).

(** The [context_part] of the document at index [i]; [None] when the
    f-string raises. *)
Definition context_part (i : nat) (doc : Result) : option str :=
  let content := Utils.clean_text (res_content doc) in
  filename ← str_of_pyval (filename_of (res_metadata doc));
  page ← str_of_pyval (page_or_na (res_metadata doc));
  Some (py "[Document " ++ str_of_nat (i + 1) ++ py ": "
        ++ filename ++ py ", Page " ++ page ++ py "]"
        ++ [newline] ++ content ++ [newline]).

(** [_prepare_context]; [None] when an iteration raises. *)
Definition _prepare_context (retrieved_docs : list Result) : option str :=
  join ([newline] ++ py "---" ++ [newline])
    <$> mapM (fun part : option str => part) (imap context_part retrieved_docs).

(** An element of the list returned by [_format_sources]. *)
Record Source := mkSource {
  src_filename : pyval;
  src_page : pyval;
  src_content : str;
  src_score : R
}.

(** [_format_sources] *)
Definition _format_sources (retrieved_docs : list Result) : list Source :=
  (fun doc =>
     {| src_filename := filename_of (res_metadata doc);
        src_page := page_or_na (res_metadata doc);
        src_content := take 300 (Utils.clean_text (res_content doc));
        src_score := score doc |}) <$> retrieved_docs.

(** The dictionary returned by [query]. *)
Record Answer := mkAnswer { answer : str; sources : list Source }.

(** [query]: an exception of [_prepare_context] is caught by the
    [except] of the method, which returns [None]. *)
Definition query (self : t) (question : str) (top_k : Z) : option Answer :=
  let retrieved_docs := similarity_search (vector_store self) question top_k in
  if negb (truthy retrieved_docs) then None
  else
    match _prepare_context retrieved_docs with
    | None => None
    | Some context =>
        match LLMClient.generate_response (llm_client self) question context
                system_prompt with
        | Some response =>
            if truthy response
            then Some {| answer := response; sources := _format_sources retrieved_docs |}
            else None
        | None => None
        end
    end.

Definition default_query_top_k : Z := 5.

End RAGSystem.

(** ** Fixtures *)
Module Fixtures.
Import DocumentProcessor VectorStore.

Definition uuid0 (n : nat) : str := py "doc-" ++ replicate n "x"%char.

(** The chunk of scenario 1. *)
Definition ppe_chunk : Chunk :=
  {| content := py "Safety protocols require PPE at all times.";
     metadata := [ (py "filename", PyStr (py "safety.pdf"));
                   (py "page", PyInt 2);
                   (py "chunk_length", PyInt 42) ] |}.

Definition ppe_query : str := py "What PPE is required?".

(** No snapshot yet: on [good_disk] every write succeeds, on [bad_disk]
    the file cannot be opened for writing, on [full_disk] it is opened
    and the write fails. *)
Definition good_disk : Disk := {| file := Missing; write := Written |}.
Definition bad_disk : Disk := {| file := Missing; write := OpenRaises |}.
Definition full_disk : Disk := {| file := Missing; write := WriteRaises |}.

(** A text with page markers whose page regions are all too short to
    be kept. *)
Definition short_pages : str :=
  py "[PAGE 1] Short text one. [PAGE 2] Short text two. [PAGE 3] Tiny.".

(** A text with one page region long enough to be kept. *)
Definition long_page : str :=
  py "[PAGE 7] Daily safety meetings are mandatory before starting work on site.".

(** A chunker whose overlap size is larger than its target size, and a
    text of four sentences of 5 characters. *)
Definition wide_overlap : DocumentProcessor.t :=
  {| chunk_size := 10; chunk_overlap := 100 |}.

Definition four_sentences : str := py "Aaaa. Bbbb. Cccc. Dddd.".

(** A sentence of 800 characters whose last 100 characters begin with a
    space and hold no sentence boundary, and a text that starts with it. *)
Definition long_sentence : str :=
  replicate 700 "a"%char ++ py " " ++ replicate 98 "b"%char ++ py ".".

Definition long_then_next : str := long_sentence ++ py " Next.".

(** The second chunk of [long_then_next]. *)
Definition next_chunk : str := replicate 98 "b"%char ++ py ". Next.".

(** A chunk that shares no token with [ppe_query]. *)
Definition bridge_chunk : Chunk :=
  {| content := py "Bridge engineering and construction of highways.";
     metadata := [ (py "filename", PyStr (py "projects.pdf"));
                   (py "page", PyInt 1);
                   (py "chunk_length", PyInt 48) ] |}.

Definition bridge_entry : DocEntry :=
  {| id := uuid0 1;
     doc_content := content bridge_chunk;
     doc_metadata := metadata bridge_chunk;
     tokens := _tokenize (content bridge_chunk) |}.

(** The chunk of scenario 1 with a page number of 4301 digits, and the
    store that holds it. *)
Definition long_page_chunk : Chunk :=
  {| content := py "Safety protocols require PPE at all times.";
     metadata := [ (py "filename", PyStr (py "safety.pdf"));
                   (py "page", PyInt (10 ^ 4300)) ] |}.

Definition long_page_store : VectorStore.t :=
  (add_documents uuid0 VectorStore.empty good_disk [long_page_chunk]).1.2.

(** A text whose only page marker has 4301 digits. *)
Definition long_marker : str :=
  py "[PAGE " ++ replicate 4301 "1"%char ++ py "] Tiny.".

(** A store of two chunks. *)
Definition two_store : VectorStore.t :=
  (add_documents uuid0 VectorStore.empty good_disk [ppe_chunk; bridge_chunk]).1.2.

(** The store holding exactly the chunk of scenario 1. *)
Definition ppe_store : VectorStore.t :=
  (add_documents uuid0 VectorStore.empty good_disk [ppe_chunk]).1.2.

(** A client without API key, and a system with default sizes and an
    empty store. *)
Definition fallback_client : LLMClient.t :=
  {| LLMClient.use_fallback := true;
     LLMClient.create := fun _ _ => LLMClient.ApiRaises;
     LLMClient.create_stream := fun _ _ => LLMClient.StreamRaises [] |}.

Definition fresh_system : RAGSystem.t :=
  {| RAGSystem.document_processor := DocumentProcessor.defaults;
     RAGSystem.vector_store := VectorStore.empty;
     RAGSystem.llm_client := fallback_client |}.

(** The system after the store of two chunks was built. *)
Definition two_system : RAGSystem.t :=
  {| RAGSystem.document_processor := DocumentProcessor.defaults;
     RAGSystem.vector_store := two_store;
     RAGSystem.llm_client := fallback_client |}.

(** A store of two chunks that share the word ["safety"]. *)
Definition shared_store : VectorStore.t :=
  (add_documents uuid0 VectorStore.empty good_disk
     [ {| content := py "Safety helmets protect."; metadata := [] |};
       {| content := py "Safety first."; metadata := [] |} ]).1.2.

End Fixtures.

(** ** Notions of the statements and of the loop invariants *)
Section Notions.
Import DocumentProcessor VectorStore.

(** The count held by a [Counter] for a key. *)
Definition cnt (c : gmap str nat) (t : str) : nat := default 0%nat (c !! t).

(** Descending order of the score. *)
Definition desc (a b : Result) : Prop := (score b <= score a)%R.

(** The last character of [s] is not whitespace. *)
Definition ends_nonspace (s : str) : Prop :=
  ∃ x c, s = x ++ [c] ∧ is_space c = false.

(** [s] is empty or its first character is not whitespace. *)
Definition starts_clean (s : str) : Prop :=
  match s with [] => True | c :: _ => is_space c = false end.

(** [s] occurs in [c] as a block of consecutive characters. *)
Definition infix (s c : str) : Prop := ∃ a b, c = a ++ s ++ b.

(** [P] holds of every two neighbours of the list. *)
Definition consecutive (P : str → str → Prop) (l : list str) : Prop :=
  ∀ i E L, l !! i = Some E → l !! S i = Some L → P E L.

Variable self : DocumentProcessor.t.

(** The four ways in which one iteration of the loop of
    [_split_text_into_chunks] changes its variables: a blank piece is
    skipped; a sentence that does not fit makes the buffer a chunk and
    starts a new buffer from the overlap text; a sentence that fits is
    appended to the buffer; the first sentence starts the buffer. *)
Inductive step_case (st : loop) (raw : str) : loop → Prop :=
  | step_skip :
      strip raw = [] →
      step_case st raw st
  | step_emit :
      strip raw ≠ [] → current_chunk st ≠ [] →
      (chunk_size self < current_length st + len (strip raw))%Z →
      step_case st raw
        {| chunks := chunks st ++ [strip (current_chunk st)];
           current_chunk :=
             _get_overlap_text self (current_chunk st) ++ py " " ++ strip raw;
           current_length :=
             len (_get_overlap_text self (current_chunk st) ++ py " " ++ strip raw) |}
  | step_append :
      strip raw ≠ [] → current_chunk st ≠ [] →
      (current_length st + len (strip raw) <= chunk_size self)%Z →
      step_case st raw
        {| chunks := chunks st;
           current_chunk := current_chunk st ++ py " " ++ strip raw;
           current_length := (current_length st + (len (strip raw) + 1))%Z |}
  | step_start :
      strip raw ≠ [] → current_chunk st = [] →
      step_case st raw
        {| chunks := chunks st;
           current_chunk := strip raw;
           current_length := (current_length st + (len (strip raw) + 1))%Z |}.

(** [E] was emitted from a buffer whose overlap text, followed by a
    space, begins the buffer [cur]. *)
Definition linked (E cur : str) : Prop :=
  ∃ B, E = strip B ∧ ends_nonspace B
       ∧ (_get_overlap_text self B ++ py " ") `prefix_of` cur.

(** [E] was emitted from the buffer [B], and [L] from a buffer made of
    the overlap text of [B], a space and the text [rest]. *)
Definition seeded_from (B rest E L : str) : Prop :=
  E = strip B ∧ ends_nonspace B ∧ ends_nonspace rest
  ∧ L = strip (_get_overlap_text self B ++ py " " ++ rest).

Definition seeded (E L : str) : Prop := ∃ B rest, seeded_from B rest E L.

(** The invariant of the loop of [_split_text_into_chunks] that relates
    neighbouring chunks. *)
Definition overlap_invariant (st : loop) : Prop :=
  (current_chunk st = [] ∨ ends_nonspace (current_chunk st))
  ∧ consecutive seeded (chunks st)
  ∧ (∀ E, last (chunks st) = Some E → linked E (current_chunk st)).

(** Every sentence read so far occurs whole in an emitted chunk or in
    the buffer. *)
Definition whole_invariant (seen : list str) (st : loop) : Prop :=
  (current_chunk st = [] ∨ ends_nonspace (current_chunk st))
  ∧ ∀ raw, raw ∈ seen → strip raw ≠ [] →
      (∃ c, c ∈ chunks st ∧ infix (strip raw) c)
      ∨ infix (strip raw) (current_chunk st).

(** Two states of the store that differ in the identifiers of their
    documents at most. *)
Definition same_content (s1 s2 : VectorStore.t) : Prop :=
  doc_content <$> documents s1 = doc_content <$> documents s2
  ∧ doc_metadata <$> documents s1 = doc_metadata <$> documents s2
  ∧ tokens <$> documents s1 = tokens <$> documents s2
  ∧ vocabulary s1 = vocabulary s2
  ∧ idf_scores s1 = idf_scores s2.

(** No text can be taken from the file: it cannot be read, or every
    page raises or has no text. *)
Definition no_text (file : pdf) : Prop :=
  match file with
  | None => True
  | Some pages => Forall (fun p => p = PageRaises ∨ p = PageText []) pages
  end.

(** No two neighbours of [s] are both among [. ! ?]. *)
Fixpoint no_double_end (s : str) : Prop :=
  match s with
  | a :: s' =>
      match s' with
      | b :: _ => ¬ (Re.is_sentence_end a = true ∧ Re.is_sentence_end b = true)
      | [] => True
      end ∧ no_double_end s'
  | [] => True
  end.

(** [s] is empty or its first character is none of [. ! ?]. *)
Definition head_plain (s : str) : Prop :=
  match s with [] => True | c :: _ => Re.is_sentence_end c = false end.

(** The shape of a chunk of [create_chunks]: a stripped content of more
    than 50 characters, and the file name, a page and the length of the
    content as metadata. *)
Definition chunk_shape (filename : str) (c : Chunk) : Prop :=
  strip (content c) = content c
  ∧ (50 < len (content c))%Z
  ∧ ∃ page, (page = PyStr (py "N/A") ∨ ∃ n, (0 <= n)%Z ∧ page = PyInt n)
            ∧ metadata c = [ (py "filename", PyStr filename);
                             (py "page", page);
                             (py "chunk_length", PyInt (len (content c))) ].

(** The f-string of [_prepare_context] raises for a retrieved document:
    its file name or its page is an integer beyond the limit of
    digits. *)
Definition unprintable (doc : Result) : Prop :=
  (∃ n, RAGSystem.filename_of (res_metadata doc) = PyInt n
        ∧ within_str_digits n = false)
  ∨ (∃ n, RAGSystem.page_or_na (res_metadata doc) = PyInt n
          ∧ within_str_digits n = false).

(** How often [w] occurs in [words]. *)
Definition freq (words : list str) (w : str) : nat :=
  length (filter (fun x => x = w) words).

(** The words that [extract_keywords] counts. *)
Definition counted (word : str) : Prop :=
  (word ∉ Utils.stop_words) ∧ (3 < length word)%nat.

(** The sentences that the loop has appended after the pieces [seen]. *)
Definition appended (seen : list str) : list str :=
  filter (fun s => s ≠ []) (strip <$> seen).

(** While the joined sentences fit, the loop emits no chunk and its
    buffer is the sentences joined by single spaces. *)
Definition joining (seen : list str) (st : loop) : Prop :=
  (len (join (py " ") (appended seen)) <= chunk_size self)%Z →
  chunks st = []
  ∧ current_chunk st = join (py " ") (appended seen)
  ∧ current_length st
    = (if decide (appended seen = []) then 0
       else len (join (py " ") (appended seen)) + 1)%Z
  ∧ starts_clean (current_chunk st)
  ∧ (current_chunk st = [] ∨ ends_nonspace (current_chunk st)).

Variable text : str.

(** A chunk ends with a sentence of the text, and it is at most
    [chunk_size] longer than that sentence or it is that sentence alone,
    longer than [chunk_size]. *)
Definition within_bound (c : str) : Prop :=
  ∃ s, s ∈ sentences_of text ∧ s `suffix_of` c
       ∧ ((len c <= chunk_size self + len s)%Z
          ∨ (c = s ∧ (chunk_size self < len c)%Z)).

(** The same of a buffer, which is stripped when it becomes a chunk. *)
Definition buffer_bound (cur : str) : Prop :=
  ∃ s, s ∈ sentences_of text ∧ s `suffix_of` cur
       ∧ ((len cur <= chunk_size self + len s)%Z
          ∨ (strip cur = s ∧ (chunk_size self < len s)%Z)).

(** The invariant of the loop that bounds the chunks. *)
Definition size_invariant (st : loop) : Prop :=
  (len (current_chunk st) <= current_length st)%Z
  ∧ (current_chunk st ≠ [] →
       buffer_bound (current_chunk st) ∧ ends_nonspace (current_chunk st))
  ∧ Forall within_bound (chunks st).

(** The tokens, the vocabulary and the table of weights of a state agree
    with its documents. *)
Definition consistent (self : VectorStore.t) : Prop :=
  Forall (fun d => tokens d = _tokenize (doc_content d)) (documents self)
  ∧ vocabulary self = vocab_of (documents self)
  ∧ idf_scores self = idf_table (documents self).

End Notions.

(** ** Tactics *)

(** The three early returns of [similarity_search], then the ranking:
    four goals. *)
Ltac search_guards self query :=
  unfold VectorStore.similarity_search;
  destruct (negb (truthy (strip query)));
  [|destruct (negb (truthy (VectorStore.documents self)));
    [|destruct (negb (truthy (VectorStore._tokenize query)))]].

(** * Properties *)

(** ** The embedding on small inputs *)
Section Examples.
Import DocumentProcessor VectorStore.

Example tokenize_query :
  _tokenize Fixtures.ppe_query = [py "what"; py "ppe"; py "required"].
Proof. reflexivity. Qed.

Example tokenize_chunk :
  _tokenize (content Fixtures.ppe_chunk)
  = [py "safety"; py "protocols"; py "require"; py "ppe"; py "all"; py "times"].
Proof. reflexivity. Qed.

Example tokenize_word_boundaries :
  _tokenize (py "abc1 x_yz foo-bar The END") = [py "foo"; py "bar"; py "the"; py "end"].
Proof. reflexivity. Qed.

Example split_sentences_example :
  Re.split_sentences (py "Hello world.  How are you? Fine!  ")
  = [py "Hello world."; py "How are you?"; py "Fine!"; []].
Proof. reflexivity. Qed.

Example split_pages_example :
  Re.split_pages (py "pre [PAGE 1] one [PAGE 22]two[PAGE x] [PAGE 3]")
  = [py "pre "; py "1"; py " one "; py "22"; py "two[PAGE x] "; py "3"; []].
Proof. reflexivity. Qed.

Example split_text_example :
  _split_text_into_chunks {| chunk_size := 20; chunk_overlap := 5 |}
    (py "Hello brave world. This is it. And a much longer sentence goes here.  Ok. Fin.")
  = [py "Hello brave world."; py "orld. This is it.";
     py "s it. And a much longer sentence goes here."; py "here. Ok. Fin."].
Proof. reflexivity. Qed.

Example overlap_snaps_to_sentence :
  _get_overlap_text {| chunk_size := 20; chunk_overlap := 12 |}
    (py "One two three. Four.") = py "Four.".
Proof. reflexivity. Qed.

Example slice_to_examples :
  slice_to 2 [1; 2; 3]%nat = [1; 2]%nat
  ∧ slice_to 5 [1; 2; 3]%nat = [1; 2; 3]%nat
  ∧ slice_to (-1) [1; 2; 3]%nat = [1; 2]%nat.
Proof. repeat split. Qed.

End Examples.

(** ** Strings *)
Section StringFacts.

Lemma truthy_false {A} (l : list A) : truthy l = false ↔ l = [].
Proof. destruct l; simpl; split; congruence. Qed.

Lemma truthy_true {A} (l : list A) : truthy l = true ↔ l ≠ [].
Proof. destruct l; simpl; split; congruence. Qed.

Lemma lstrip_all_space (s : str) :
  Forall (fun c => is_space c = true) s → lstrip s = [].
Proof. induction 1 as [|c s Hc _ IH]; simpl; [done|]. by rewrite Hc. Qed.

Lemma strip_all_space (s : str) :
  Forall (fun c => is_space c = true) s → strip s = [].
Proof.
  intros Hs. unfold strip, rstrip.
  rewrite (lstrip_all_space (rev s)); [done|].
  apply Forall_forall. intros c Hc.
  apply list_elem_of_In, in_rev, list_elem_of_In in Hc.
  by apply (proj1 (Forall_forall _ _) Hs).
Qed.

End StringFacts.

Import VectorStore.

(** ** The ranker on degenerate input *)

(** C8.  A query that is empty or made of whitespace only, a query with
    no valid token, and an empty corpus each make [similarity_search]
    return the empty list; the function is total, so nothing is raised. *)
Theorem similarity_search_nothing_to_retrieve
    (self : VectorStore.t) (query : str) (top_k : Z) :
  Forall (fun c => is_space c = true) query
  ∨ _tokenize query = []
  ∨ documents self = [] →
  similarity_search self query top_k = [].
Proof.
  intros [Hq | [Hq | Hd]]; unfold similarity_search.
  - by rewrite (strip_all_space _ Hq).
  - destruct (truthy (strip query)); [simpl|done].
    destruct (truthy (documents self)); [simpl|done].
    by rewrite Hq.
  - rewrite Hd. by destruct (truthy (strip query)).
Qed.

(** A blank query, a query of short words and an empty store. *)
Lemma similarity_search_nothing_to_retrieve_witness :
  similarity_search Fixtures.two_store (py "   ") default_top_k = []
  ∧ similarity_search Fixtures.two_store (py "is it ok?") default_top_k = []
  ∧ similarity_search VectorStore.empty Fixtures.ppe_query default_top_k = [].
Proof.
  split; [|split].
  - apply (similarity_search_nothing_to_retrieve Fixtures.two_store (py "   ")).
    left. apply (bool_decide_unpack _). vm_compute. exact I.
  - apply (similarity_search_nothing_to_retrieve Fixtures.two_store (py "is it ok?")).
    right. left. vm_compute. reflexivity.
  - apply (similarity_search_nothing_to_retrieve VectorStore.empty Fixtures.ppe_query).
    right. right. reflexivity.
Defined.

(** ** Insertion *)
Section Insertion.
Import DocumentProcessor.
Variable uuid4 : nat -> str.

Lemma vocab_of_cons e es :
  vocab_of (e :: es) = list_to_set (tokens e) ∪ vocab_of es.
Proof. done. Qed.

Lemma fold_add_one docs : ∀ self n,
  fold_left (add_one uuid4) docs (self, n) =
  ({| documents := documents self ++ new_entries uuid4 n docs;
      vocabulary := vocabulary self ∪ vocab_of (new_entries uuid4 n docs);
      idf_scores := idf_scores self |},
   (n + length (new_entries uuid4 n docs))%nat).
Proof.
  induction docs as [|doc docs IH]; intros self n; simpl.
  - rewrite app_nil_r, Nat.add_0_r. unfold vocab_of; simpl.
    rewrite (right_id_L ∅ (∪)). by destruct self.
  - unfold valid. destruct (truthy (strip (content doc))); simpl.
    + rewrite IH; simpl. rewrite <- app_assoc, vocab_of_cons; simpl.
      rewrite (assoc_L (∪)). f_equal. lia.
    + apply IH.
Qed.

Lemma add_documents_eq self disk docs :
  add_documents uuid4 self disk docs =
  let entries := new_entries uuid4 0 docs in
  if truthy entries
  then (true, grown self entries, _save_data (grown self entries) disk)
  else (false, self, disk).
Proof.
  unfold add_documents. destruct docs as [|doc docs]; [done|].
  cbn [truthy negb]. rewrite fold_add_one.
  destruct (new_entries uuid4 0 (doc :: docs)) as [|e es] eqn:He; cbn -[_save_data].
  - rewrite app_nil_r. unfold vocab_of; simpl. rewrite (right_id_L ∅ (∪)).
    by destruct self.
  - unfold _calculate_idf, grown; cbn -[_save_data idf_table].
    destruct (documents self ++ e :: es) eqn:Hd; [by destruct (documents self)|].
    done.
Qed.

(** C2, as amended.  [add_documents] returns [True] exactly when it
    appended an entry, whether or not the snapshot is written: the
    in-memory state is then the grown state, without rollback.  The file
    is left as it was when it cannot be opened for writing; it is left
    truncated, so that it cannot be loaded, when a write fails after it
    was opened, which is also what an integer of the metadata beyond the
    limit of digits does; it holds the grown state otherwise.  When
    [False] is returned neither the state nor the file changed. *)
Theorem add_documents_outcome (self : VectorStore.t) (disk : Disk) (docs : list Chunk) :
  let r := add_documents uuid4 self disk docs in
  let entries := new_entries uuid4 0 docs in
  r.1.1 = truthy entries
  ∧ (r.1.1 = true →
       r.1.2 = grown self entries
       ∧ (write disk = OpenRaises → r.2 = disk)
       ∧ (write disk = WriteRaises → file r.2 = Unreadable)
       ∧ (write disk = Written →
            file r.2 = if dumpable (grown self entries)
                       then Snapshot (snapshot_of (grown self entries))
                       else Unreadable))
  ∧ (r.1.1 = false → r.1.2 = self ∧ r.2 = disk).
Proof.
  cbv zeta. rewrite add_documents_eq. cbv zeta.
  destruct (truthy (new_entries uuid4 0 docs)); cbn -[grown snapshot_of dumpable];
    (split; [done|]); split; try done.
  intros _. split; [done|].
  unfold _save_data. split; [|split]; intros ->; [done|done|].
  by destruct (dumpable _).
Qed.

End Insertion.

(** C2, as stated, fails: with a snapshot file that cannot be opened
    for writing, adding the chunk of scenario 1 to the empty store
    returns [True] and leaves the chunk in memory, and so it does when
    the write fails after the file was opened, which leaves a file that
    cannot be loaded. *)
Lemma add_documents_unwritable_still_succeeds :
  let r := add_documents Fixtures.uuid0 VectorStore.empty Fixtures.bad_disk
             [Fixtures.ppe_chunk] in
  let r' := add_documents Fixtures.uuid0 VectorStore.empty Fixtures.full_disk
              [Fixtures.ppe_chunk] in
  (r.1.1 = true
   ∧ length (documents r.1.2) = 1%nat
   ∧ documents r.1.2 ≠ documents VectorStore.empty
   ∧ r.2 = Fixtures.bad_disk)
  ∧ (r'.1.1 = true
     ∧ length (documents r'.1.2) = 1%nat
     ∧ file r'.2 = Unreadable
     ∧ init r'.2 = VectorStore.empty).
Proof. cbv zeta. repeat split; try reflexivity. by vm_compute. Qed.

(** The call on a disk that cannot be written. *)
Lemma add_documents_outcome_witness :
  let r := add_documents Fixtures.uuid0 VectorStore.empty Fixtures.bad_disk
             [Fixtures.ppe_chunk] in
  r.1.1 = true
  ∧ r.1.2 = grown VectorStore.empty (new_entries Fixtures.uuid0 0 [Fixtures.ppe_chunk])
  ∧ r.2 = Fixtures.bad_disk.
Proof.
  cbv zeta.
  destruct (add_documents_outcome Fixtures.uuid0 VectorStore.empty Fixtures.bad_disk
              [Fixtures.ppe_chunk]) as (Hret & Hok & _).
  assert ((add_documents Fixtures.uuid0 VectorStore.empty Fixtures.bad_disk
             [Fixtures.ppe_chunk]).1.1 = true) as Htrue by reflexivity.
  destruct (Hok Htrue) as (Hstate & Hdisk & _).
  split; [exact Htrue|]. split; [exact Hstate|]. apply Hdisk. reflexivity.
Defined.

(** ** Document frequencies *)
Section DocFreq.

Lemma incr_lookup (c : gmap str nat) (k t : str) :
  incr c k !! t = if decide (k = t) then Some (S (cnt c k)) else c !! t.
Proof.
  unfold incr, cnt. destruct (decide (k = t)) as [->|Hne].
  - by rewrite lookup_insert_eq.
  - by rewrite lookup_insert_ne.
Qed.

Lemma fold_incr_lookup (l : list str) : NoDup l → ∀ (c : gmap str nat) (t : str),
  fold_left incr l c !! t =
  if decide (t ∈ l) then Some (S (cnt c t)) else c !! t.
Proof.
  induction 1 as [|k l Hk Hl IH]; intros c t; simpl.
  - destruct (decide (t ∈ [])) as [Hin|]; [by apply elem_of_nil in Hin|done].
  - rewrite IH. destruct (decide (t = k)) as [->|Hne].
    + rewrite decide_False by done. rewrite decide_True by apply list_elem_of_here.
      rewrite incr_lookup. by rewrite decide_True.
    + destruct (decide (t ∈ l)) as [Hin|Hnin].
      * rewrite decide_True by (by apply list_elem_of_further).
        unfold cnt. rewrite incr_lookup. by rewrite decide_False.
      * rewrite decide_False by (rewrite elem_of_cons; tauto).
        rewrite incr_lookup. by rewrite decide_False.
Qed.

Lemma doc_freq_snoc (docs : list DocEntry) (d : DocEntry) (t : str) :
  doc_freq (docs ++ [d]) t =
  (doc_freq docs t + if decide (t ∈ _tokenize (doc_content d)) then 1 else 0)%nat.
Proof.
  unfold doc_freq. rewrite filter_app, length_app. f_equal.
  rewrite filter_cons. by destruct (decide (t ∈ _tokenize (doc_content d))).
Qed.

Lemma term_doc_count_snoc (docs : list DocEntry) (d : DocEntry) :
  term_doc_count (docs ++ [d]) =
  fold_left incr (elements (list_to_set (_tokenize (doc_content d)) : gset str))
            (term_doc_count docs).
Proof. unfold term_doc_count. by rewrite fold_left_app. Qed.

(** The counter of [_calculate_idf] holds, for each term, the number of
    documents whose token set contains it, and no entry for the others. *)
Lemma term_doc_count_lookup (docs : list DocEntry) (t : str) :
  term_doc_count docs !! t =
  if decide (doc_freq docs t = 0%nat) then None else Some (doc_freq docs t).
Proof.
  induction docs as [|d docs IH] using rev_ind; [done|].
  rewrite term_doc_count_snoc, doc_freq_snoc.
  rewrite fold_incr_lookup by apply NoDup_elements.
  set (toks := _tokenize (doc_content d)).
  destruct (decide (t ∈ toks)) as [Hin|Hnin].
  - rewrite decide_True by (by apply elem_of_elements, elem_of_list_to_set).
    rewrite decide_False by lia. f_equal. unfold cnt. rewrite IH.
    destruct (decide (doc_freq docs t = 0%nat)) as [->|]; simpl; lia.
  - rewrite decide_False
      by (intros H; by apply elem_of_elements, elem_of_list_to_set in H).
    rewrite IH, Nat.add_0_r. done.
Qed.

Lemma idf_table_lookup (docs : list DocEntry) (t : str) :
  idf_table docs !! t =
  if decide (doc_freq docs t = 0%nat) then None
  else Some (ln (INR (length docs) / INR (doc_freq docs t))).
Proof.
  unfold idf_table. rewrite lookup_fmap, term_doc_count_lookup.
  by destruct (decide (doc_freq docs t = 0%nat)).
Qed.

End DocFreq.

Lemma new_entries_tokens (uuid4 : nat -> str) (docs : list DocumentProcessor.Chunk) :
  ∀ n, Forall (fun d => tokens d = _tokenize (doc_content d)) (new_entries uuid4 n docs).
Proof.
  induction docs as [|doc docs IH]; intros n; simpl; [constructor|].
  destruct (valid doc); [constructor; [done|]|]; apply IH.
Qed.

Lemma calculate_idf_grown (self : VectorStore.t) (es : list DocEntry) :
  es ≠ [] → _calculate_idf (grown self es) = grown self es.
Proof.
  intros Hne. unfold _calculate_idf.
  assert (truthy (documents (grown self es)) = true) as ->; [|done].
  apply truthy_true. simpl. by destruct (documents self), es.
Qed.

(** C3.  After a call of [add_documents] that returns [True], the table
    [idf_scores] holds, for exactly the terms occurring in some stored
    document, the value [ln (N / df)], where [N] is the number of stored
    documents and [df] the number of them whose token set contains the
    term; computing the table again from the stored documents gives the
    same table.  The token set of a document is the one of its content,
    which its stored tokens keep spelling out. *)
Theorem idf_after_add_documents
    (uuid4 : nat -> str) (self : VectorStore.t) (disk : Disk)
    (docs : list DocumentProcessor.Chunk) :
  let r := add_documents uuid4 self disk docs in
  r.1.1 = true →
  (∀ term w, idf_scores r.1.2 !! term = Some w →
     (0 < doc_freq (documents r.1.2) term)%nat
     ∧ w = ln (INR (length (documents r.1.2)) / INR (doc_freq (documents r.1.2) term)))
  ∧ (∀ term, (0 < doc_freq (documents r.1.2) term)%nat →
       is_Some (idf_scores r.1.2 !! term))
  ∧ idf_scores r.1.2 = idf_table (documents r.1.2)
  ∧ _calculate_idf r.1.2 = r.1.2
  ∧ (Forall (fun d => tokens d = _tokenize (doc_content d)) (documents self) →
     Forall (fun d => tokens d = _tokenize (doc_content d)) (documents r.1.2)).
Proof.
  cbv zeta. rewrite add_documents_eq. cbv zeta.
  pose proof (new_entries_tokens uuid4 docs 0) as Htok.
  destruct (new_entries uuid4 0 docs) as [|e es] eqn:He; [done|].
  cbn -[idf_table doc_freq]. intros _.
  set (ds := documents self ++ e :: es).
  split; [|split; [|split; [|split]]].
  - intros term w H. rewrite idf_table_lookup in H.
    destruct (decide (doc_freq ds term = 0%nat)); [done|].
    split; [lia|congruence].
  - intros term Hpos. rewrite idf_table_lookup.
    rewrite decide_False by lia. by eexists.
  - done.
  - subst ds. by apply (calculate_idf_grown self (e :: es)).
  - intros Hself. subst ds. apply Forall_app. by split.
Qed.

(** The table of the store that holds the chunk of scenario 1. *)
Lemma idf_after_add_documents_witness :
  idf_scores Fixtures.ppe_store = idf_table (documents Fixtures.ppe_store).
Proof.
  apply (idf_after_add_documents Fixtures.uuid0 VectorStore.empty
           Fixtures.good_disk [Fixtures.ppe_chunk]).
  reflexivity.
Defined.

(** ** Weights and cosine similarity *)
Section Weights.

Lemma fold_left_Rplus_zeros (xs : list R) (a : R) :
  Forall (fun x => x = 0%R) xs → fold_left Rplus xs a = a.
Proof.
  intros H. revert a. induction H as [|x xs -> _ IH]; intros a; simpl; [done|].
  rewrite IH. lra.
Qed.

Lemma sum_zeros (xs : list R) : Forall (fun x => x = 0%R) xs → sum xs = 0%R.
Proof. apply fold_left_Rplus_zeros. Qed.

Lemma Reqb_refl (x : R) : Reqb x x = true.
Proof. unfold Reqb. by destruct (Req_dec_T x x). Qed.

Lemma Rgtb_true (x y : R) : Rgtb x y = true ↔ (y < x)%R.
Proof. unfold Rgtb. destruct (Rgt_dec x y) as [H|H]; split; auto; discriminate. Qed.

Lemma Rgtb_false (x y : R) : Rgtb x y = false ↔ (x <= y)%R.
Proof.
  unfold Rgtb. destruct (Rgt_dec x y) as [H|H]; split; try done.
  - intros Hle. unfold Rgt in H. lra.
  - intros _. unfold Rgt in H. lra.
Qed.

Variable self : VectorStore.t.

Lemma tfidf_fold_lookup (tf_scores : gmap str R) (toks : list str) :
  ∀ (vec : gmap str R) (t : str),
  fold_left (tfidf_step self tf_scores) toks vec !! t =
  if decide (t ∈ toks)
  then match idf_scores self !! t with
       | Some w => Some (get0 tf_scores t * w)%R
       | None => vec !! t
       end
  else vec !! t.
Proof.
  induction toks as [|k toks IH]; intros vec t; simpl; [done|].
  - rewrite IH. unfold tfidf_step.
    destruct (decide (t = k)) as [->|Hne].
    + rewrite (decide_True (P := k ∈ k :: toks)) by apply list_elem_of_here.
      destruct (idf_scores self !! k) as [w|] eqn:Hk.
      * rewrite lookup_insert_eq. by destruct (decide (k ∈ toks)).
      * by destruct (decide (k ∈ toks)).
    + assert (t ∈ k :: toks ↔ t ∈ toks) as Hiff by (rewrite elem_of_cons; tauto).
      destruct (decide (t ∈ toks)) as [Hin|Hnin].
      * rewrite decide_True by tauto.
        destruct (idf_scores self !! t); [done|].
        destruct (idf_scores self !! k); [by rewrite lookup_insert_ne|done].
      * rewrite decide_False by tauto.
        destruct (idf_scores self !! k); [by rewrite lookup_insert_ne|done].
Qed.

(** The vector of [_get_tfidf_vector]: one weight for each token of the
    text that has an entry in [idf_scores]. *)
Lemma tfidf_lookup (toks : list str) (t : str) :
  _get_tfidf_vector self toks !! t =
  if decide (t ∈ toks)
  then (fun w => (get0 (_calculate_tf toks) t * w)%R) <$> idf_scores self !! t
  else None.
Proof.
  unfold _get_tfidf_vector. cbv zeta.
  rewrite tfidf_fold_lookup. destruct (decide (t ∈ toks)); [|done].
  by destruct (idf_scores self !! t).
Qed.

Lemma tfidf_dom (toks : list str) (t : str) :
  t ∈ dom (_get_tfidf_vector self toks) → t ∈ toks ∧ t ∈ dom (idf_scores self).
Proof.
  rewrite !elem_of_dom, tfidf_lookup. intros [v Hv].
  destruct (decide (t ∈ toks)); [|done]. split; [done|].
  destruct (idf_scores self !! t); [by eexists|done].
Qed.

End Weights.

Section Cosine.

Lemma magnitude_zero (vec : gmap str R) :
  (∀ t v, vec !! t = Some v → v = 0%R) → magnitude vec = 0%R.
Proof.
  intros Hz. unfold magnitude. rewrite sum_zeros; [apply sqrt_0|].
  apply Forall_forall. intros x Hx.
  apply list_elem_of_fmap in Hx as [v [-> Hv]].
  unfold values in Hv. apply list_elem_of_fmap in Hv as [[t v'] [-> Hv]].
  apply elem_of_map_to_list in Hv. rewrite (Hz _ _ Hv). simpl. lra.
Qed.

Lemma cosine_zero_magnitude (vec1 vec2 : gmap str R) :
  magnitude vec1 = 0%R ∨ magnitude vec2 = 0%R →
  _calculate_cosine_similarity vec1 vec2 = 0%R.
Proof.
  intros H. unfold _calculate_cosine_similarity. cbv zeta.
  destruct (negb _); [done|].
  destruct H as [-> | ->]; rewrite Reqb_refl; [done|].
  by rewrite orb_true_r.
Qed.

Lemma get0_not_in_dom (vec : gmap str R) (t : str) : t ∉ dom vec → get0 vec t = 0%R.
Proof. intros H. apply not_elem_of_dom in H. unfold get0. by rewrite H. Qed.

Lemma dot_product_disjoint (vec1 vec2 : gmap str R) :
  dom vec1 ## dom vec2 → dot_product vec1 vec2 = 0%R.
Proof.
  intros Hd. unfold dot_product. cbv zeta. apply sum_zeros, Forall_forall.
  intros x Hx. apply list_elem_of_fmap in Hx as [t [-> Ht]].
  destruct (decide (t ∈ dom vec1)) as [H1|H1].
  - rewrite (get0_not_in_dom vec2) by (intros H2; by apply (Hd t)). lra.
  - rewrite (get0_not_in_dom vec1) by done. lra.
Qed.

Lemma cosine_disjoint (vec1 vec2 : gmap str R) :
  dom vec1 ## dom vec2 → _calculate_cosine_similarity vec1 vec2 = 0%R.
Proof.
  intros Hd. unfold _calculate_cosine_similarity. cbv zeta.
  destruct (negb _); [done|]. destruct (_ || _); [done|].
  rewrite dot_product_disjoint by done. apply Rdiv_0_l.
Qed.

End Cosine.

(** ** The ranking *)
Section Ranking.

Lemma elem_of_insert_desc (x y : Result) (l : list Result) :
  y ∈ insert_desc x l ↔ y = x ∨ y ∈ l.
Proof.
  induction l as [|z l IH]; simpl.
  - rewrite list_elem_of_singleton, elem_of_nil. tauto.
  - destruct (Rgtb (score z) (score x)); rewrite !elem_of_cons; [rewrite IH|]; tauto.
Qed.

Lemma elem_of_sort_desc (y : Result) (l : list Result) : y ∈ sort_desc l ↔ y ∈ l.
Proof.
  induction l as [|x l IH]; simpl; [done|].
  rewrite elem_of_insert_desc, elem_of_cons, IH. tauto.
Qed.

Lemma insert_desc_sorted (x : Result) (l : list Result) :
  StronglySorted desc l → StronglySorted desc (insert_desc x l).
Proof.
  induction 1 as [|z l Hl IH Hz]; simpl.
  - repeat constructor.
  - destruct (Rgtb (score z) (score x)) eqn:Hgt.
    + apply Rgtb_true in Hgt. constructor; [done|].
      apply Forall_forall. intros y Hy. apply elem_of_insert_desc in Hy as [->|Hy].
      * unfold desc. lra.
      * by apply (proj1 (Forall_forall _ _) Hz).
    + apply Rgtb_false in Hgt. constructor; [by constructor|].
      constructor; [done|].
      apply Forall_forall. intros y Hy.
      pose proof (proj1 (Forall_forall _ _) Hz y Hy) as Hzy.
      unfold desc in *. lra.
Qed.

Lemma sort_desc_sorted (l : list Result) : StronglySorted desc (sort_desc l).
Proof.
  induction l as [|x l IH]; simpl; [constructor|by apply insert_desc_sorted].
Qed.

(** Insertion keeps the order of the elements of one score. *)
Lemma filter_insert_desc (s : R) (x : Result) (l : list Result) :
  filter (fun r => score r = s) (insert_desc x l) =
  filter (fun r => score r = s) (x :: l).
Proof.
  induction l as [|z l IH]; simpl; [done|].
  destruct (Rgtb (score z) (score x)) eqn:Hgt; [|done].
  apply Rgtb_true in Hgt.
  rewrite (filter_cons _ z), IH, !filter_cons.
  destruct (decide (score z = s)), (decide (score x = s)); try done.
  exfalso. lra.
Qed.

(** The sort is stable. *)
Lemma sort_desc_stable (s : R) (l : list Result) :
  filter (fun r => score r = s) (sort_desc l) = filter (fun r => score r = s) l.
Proof.
  induction l as [|x l IH]; simpl; [done|].
  by rewrite filter_insert_desc, !filter_cons, IH.
Qed.

Lemma slice_to_prefix {A} (k : Z) (l : list A) : slice_to k l `prefix_of` l.
Proof. unfold slice_to. destruct (0 <=? k)%Z; apply prefix_take. Qed.

Lemma slice_to_length {A} (k : Z) (l : list A) :
  (0 <= k)%Z → (len (slice_to k l) <= k)%Z.
Proof.
  intros Hk. unfold slice_to, len. rewrite (proj2 (Z.leb_le 0 k) Hk).
  rewrite length_take. lia.
Qed.

Lemma filter_prefix {A} (P : A → Prop) `{∀ x, Decision (P x)} (l1 l2 : list A) :
  l1 `prefix_of` l2 → filter P l1 `prefix_of` filter P l2.
Proof. intros [k ->]. rewrite filter_app. by eexists. Qed.

Lemma StronglySorted_prefix {A} (Rel : relation A) (l1 l2 : list A) :
  l1 `prefix_of` l2 → StronglySorted Rel l2 → StronglySorted Rel l1.
Proof. intros [k ->]. apply StronglySorted_app_1_l. Qed.

Variable self : VectorStore.t.
Variable query_tfidf : gmap str R.

Lemma elem_of_similarities (r : Result) :
  r ∈ similarities self query_tfidf ↔
  ∃ doc, doc ∈ documents self
         ∧ (0 < similarity_of self query_tfidf doc)%R
         ∧ r = result_of doc (similarity_of self query_tfidf doc).
Proof.
  unfold similarities. rewrite list_elem_of_omap. split.
  - intros [doc [Hin Hr]]. exists doc. split; [done|].
    destruct (Rgtb _ 0) eqn:Hgt; [|done].
    apply Rgtb_true in Hgt. by inversion Hr.
  - intros [doc [Hin [Hpos ->]]]. exists doc. split; [done|].
    by rewrite (proj2 (Rgtb_true _ _) Hpos).
Qed.

(** The kept results of one positive score, in the order of the list
    [similarities], are the documents of that similarity in the order of
    insertion. *)
Lemma filter_similarities (s : R) :
  filter (fun r => score r = s) (similarities self query_tfidf) =
  if Rgtb s 0
  then (fun doc => result_of doc s) <$>
       filter (fun doc => similarity_of self query_tfidf doc = s) (documents self)
  else [].
Proof.
  unfold similarities.
  set (keep := fun doc => if Rgtb (similarity_of self query_tfidf doc) 0
                          then Some (result_of doc (similarity_of self query_tfidf doc))
                          else None).
  induction (documents self) as [|doc docs IH].
  - simpl. by destruct (Rgtb s 0).
  - rewrite (filter_cons _ doc).
    change (omap keep (doc :: docs))
      with (match keep doc with Some y => y :: omap keep docs | None => omap keep docs end).
    unfold keep at 1.
    destruct (Rgtb (similarity_of self query_tfidf doc) 0) eqn:Hgt.
    + rewrite filter_cons, IH. cbn [score result_of].
      destruct (decide (similarity_of self query_tfidf doc = s)) as [<-|Hne].
      * by rewrite Hgt.
      * by destruct (Rgtb s 0).
    + rewrite IH.
      destruct (decide (similarity_of self query_tfidf doc = s)) as [<-|Hne]; [|done].
      by rewrite Hgt.
Qed.

End Ranking.

(** ** The results of [similarity_search] *)
Section Search.

Lemma elem_of_similarity_search (self : VectorStore.t) (query : str) (top_k : Z) (r : Result) :
  r ∈ similarity_search self query top_k →
  r ∈ similarities self (_get_tfidf_vector self (_tokenize query)).
Proof.
  search_guards self query; [by intros ?%elem_of_nil ..|].
  intros Hr. apply elem_of_sort_desc.
  eapply elem_of_prefix; [exact Hr|apply slice_to_prefix].
Qed.

Lemma similarity_search_prefix (self : VectorStore.t) (query : str) (top_k : Z) :
  similarity_search self query top_k `prefix_of`
  sort_desc (similarities self (_get_tfidf_vector self (_tokenize query))).
Proof.
  search_guards self query; [apply prefix_nil ..|].
  apply slice_to_prefix.
Qed.

Lemma similarity_search_length (self : VectorStore.t) (query : str) (top_k : Z) :
  (0 <= top_k)%Z → (len (similarity_search self query top_k) <= top_k)%Z.
Proof.
  intros Hk. search_guards self query; [done ..|].
  by apply slice_to_length.
Qed.

Lemma no_common_token_disjoint (self : VectorStore.t) (toks1 toks2 : list str) :
  Forall (fun t => t ∉ toks2) toks1 →
  dom (_get_tfidf_vector self toks1) ## dom (_get_tfidf_vector self toks2).
Proof.
  intros Hno t [H1 _]%tfidf_dom [H2 _]%tfidf_dom.
  by apply (proj1 (Forall_forall _ _) Hno t).
Qed.

End Search.

(** C4.  A stored chunk whose cosine similarity with the query vector is
    0 is not among the results: this is so, in particular, when the two
    vectors have no term in common, when the chunk shares no token with
    the query, and when one of the two vectors has magnitude 0.  Every
    result is the entry built for a stored document other than this
    chunk, one whose similarity with the query is greater than 0, and
    carries that similarity as its score; the entry that the loop would
    build for the chunk is not in the list returned. *)
Theorem zero_similarity_excluded
    (self : VectorStore.t) (query : str) (top_k : Z) (doc : DocEntry) :
  let query_tfidf := _get_tfidf_vector self (_tokenize query) in
  let doc_tfidf := _get_tfidf_vector self (tokens doc) in
  doc ∈ documents self →
  _calculate_cosine_similarity query_tfidf doc_tfidf = 0%R
  ∨ dom query_tfidf ## dom doc_tfidf
  ∨ Forall (fun t => t ∉ tokens doc) (_tokenize query)
  ∨ magnitude query_tfidf = 0%R
  ∨ magnitude doc_tfidf = 0%R →
  similarity_of self query_tfidf doc = 0%R
  ∧ (∀ r, r ∈ similarity_search self query top_k →
       (0 < score r)%R
       ∧ ∃ d, d ∈ documents self
              ∧ d ≠ doc
              ∧ (0 < similarity_of self query_tfidf d)%R
              ∧ r = result_of d (similarity_of self query_tfidf d))
  ∧ result_of doc (similarity_of self query_tfidf doc)
      ∉ similarity_search self query top_k.
Proof.
  intros query_tfidf doc_tfidf Hdoc Hzero.
  assert (similarity_of self query_tfidf doc = 0%R) as Hsim.
  { unfold similarity_of. fold doc_tfidf.
    destruct Hzero as [H | [H | [H | [H | H]]]].
    - done.
    - by apply cosine_disjoint.
    - by apply cosine_disjoint, no_common_token_disjoint.
    - apply cosine_zero_magnitude. by left.
    - apply cosine_zero_magnitude. by right. }
  assert (∀ r, r ∈ similarity_search self query top_k →
            (0 < score r)%R
            ∧ ∃ d, d ∈ documents self
                   ∧ d ≠ doc
                   ∧ (0 < similarity_of self query_tfidf d)%R
                   ∧ r = result_of d (similarity_of self query_tfidf d)) as Hpos.
  { intros r Hr%elem_of_similarity_search.
    apply elem_of_similarities in Hr as [d [Hin [Hd ->]]].
    split; [exact Hd|]. exists d. split; [exact Hin|]. split; [|done].
    intros ->. fold query_tfidf in Hd. rewrite Hsim in Hd. lra. }
  split; [done|]. split; [done|].
  intros Hin. apply Hpos in Hin as [Hin _]. simpl in Hin. rewrite Hsim in Hin. lra.
Qed.

(** A chunk about bridges is not retrieved for the query about PPE. *)
Lemma zero_similarity_excluded_witness :
  Fixtures.bridge_entry ∈ documents Fixtures.two_store
  ∧ Forall (fun t => t ∉ tokens Fixtures.bridge_entry) (_tokenize Fixtures.ppe_query)
  ∧ result_of Fixtures.bridge_entry
      (similarity_of Fixtures.two_store
         (_get_tfidf_vector Fixtures.two_store (_tokenize Fixtures.ppe_query))
         Fixtures.bridge_entry)
      ∉ similarity_search Fixtures.two_store Fixtures.ppe_query default_top_k.
Proof.
  assert (Fixtures.bridge_entry ∈ documents Fixtures.two_store) as Hin.
  { vm_compute. apply list_elem_of_further, list_elem_of_here. }
  assert (Forall (fun t => t ∉ tokens Fixtures.bridge_entry)
            (_tokenize Fixtures.ppe_query)) as Hno.
  { apply (bool_decide_unpack _). vm_compute. exact I. }
  split; [exact Hin|]. split; [exact Hno|].
  apply (zero_similarity_excluded Fixtures.two_store Fixtures.ppe_query
           default_top_k Fixtures.bridge_entry Hin).
  right. right. left. exact Hno.
Defined.

(** C5.  The list returned by [similarity_search] is in descending order
    of the score, has at most [top_k] elements, and its elements of one
    score are the first stored documents of that similarity, in the
    order of their insertion. *)
Theorem similarity_search_ranked (self : VectorStore.t) (query : str) (top_k : Z) :
  (0 <= top_k)%Z →
  let results := similarity_search self query top_k in
  let query_tfidf := _get_tfidf_vector self (_tokenize query) in
  StronglySorted desc results
  ∧ (len results <= top_k)%Z
  ∧ ∀ s : R,
      filter (fun r => score r = s) results `prefix_of`
      (fun doc => result_of doc s) <$>
        filter (fun doc => similarity_of self query_tfidf doc = s) (documents self).
Proof.
  intros Hk results query_tfidf.
  pose proof (similarity_search_prefix self query top_k) as Hpre.
  fold results query_tfidf in Hpre.
  split; [|split].
  - eapply StronglySorted_prefix; [exact Hpre|apply sort_desc_sorted].
  - by apply similarity_search_length.
  - intros s.
    apply (filter_prefix (fun r => score r = s)) in Hpre.
    rewrite sort_desc_stable, filter_similarities in Hpre.
    destruct (Rgtb s 0); [done|].
    apply prefix_nil_inv in Hpre. rewrite Hpre. apply prefix_nil.
Qed.

(** The default [top_k] bounds the results for the store of two chunks. *)
Lemma similarity_search_ranked_witness :
  (0 <= default_top_k)%Z
  ∧ (len (similarity_search Fixtures.two_store Fixtures.ppe_query default_top_k)
       <= default_top_k)%Z.
Proof.
  assert (0 <= default_top_k)%Z as Hk by (vm_compute; discriminate).
  split; [exact Hk|].
  apply (similarity_search_ranked Fixtures.two_store Fixtures.ppe_query default_top_k Hk).
Defined.

(** ** A corpus whose weights are all zero *)
Section ZeroWeights.

Lemma tfidf_zero (self : VectorStore.t) (toks : list str) :
  (∀ t w, idf_scores self !! t = Some w → w = 0%R) →
  ∀ t v, _get_tfidf_vector self toks !! t = Some v → v = 0%R.
Proof.
  intros Hz t v. rewrite tfidf_lookup.
  destruct (decide (t ∈ toks)); [|done].
  destruct (idf_scores self !! t) as [w|] eqn:Hw; [|done].
  simpl. intros [= <-]. rewrite (Hz _ _ Hw). lra.
Qed.

Lemma slice_to_nil {A} (k : Z) : slice_to k (@nil A) = [].
Proof. unfold slice_to. destruct (0 <=? k)%Z; apply take_nil. Qed.

(** When every weight of [idf_scores] is 0, no document is retrieved. *)
Lemma zero_idf_search (self : VectorStore.t) (query : str) (top_k : Z) :
  (∀ t w, idf_scores self !! t = Some w → w = 0%R) →
  similarity_search self query top_k = [].
Proof.
  intros Hz.
  assert (∀ q, similarities self (_get_tfidf_vector self q) = []) as Hnone.
  { intros q. destruct (similarities self _) as [|r rs] eqn:Hs; [done|].
    assert (r ∈ similarities self (_get_tfidf_vector self q)) as Hr
      by (rewrite Hs; apply list_elem_of_here).
    apply elem_of_similarities in Hr as [doc [_ [Hpos _]]].
    unfold similarity_of in Hpos.
    rewrite cosine_zero_magnitude in Hpos; [lra|].
    left. apply magnitude_zero. by apply tfidf_zero. }
  search_guards self query; [done ..|].
  rewrite Hnone. apply slice_to_nil.
Qed.

(** With one stored document every weight is [ln (1 / 1) = 0]. *)
Lemma single_document_idf (d : DocEntry) (t : str) (w : R) :
  idf_table [d] !! t = Some w → w = 0%R.
Proof.
  rewrite idf_table_lookup.
  destruct (decide (doc_freq [d] t = 0%nat)) as [|Hne]; [done|].
  intros [= <-].
  assert (doc_freq [d] t = 1%nat) as ->.
  { pose proof (length_filter (fun d => t ∈ _tokenize (doc_content d)) [d]) as Hle.
    unfold doc_freq in *. simpl in Hle. lia. }
  simpl. replace (1 / 1)%R with 1%R by lra. apply ln_1.
Qed.

Lemma single_chunk_idf (uuid4 : nat -> str) (disk : Disk)
    (chunk : DocumentProcessor.Chunk) (t : str) (w : R) :
  idf_scores (add_documents uuid4 VectorStore.empty disk [chunk]).1.2 !! t = Some w →
  w = 0%R.
Proof.
  rewrite add_documents_eq. cbv zeta.
  destruct (new_entries uuid4 0 [chunk]) as [|e es] eqn:He; simpl fst; simpl snd.
  - done.
  - assert (es = []) as ->.
    { simpl in He. destruct (valid chunk); by inversion He. }
    apply single_document_idf.
Qed.

Lemma single_chunk_search (uuid4 : nat -> str) (disk : Disk)
    (chunk : DocumentProcessor.Chunk) (query : str) (top_k : Z) :
  similarity_search (add_documents uuid4 VectorStore.empty disk [chunk]).1.2
    query top_k = [].
Proof. apply zero_idf_search. intros t w. apply single_chunk_idf. Qed.

End ZeroWeights.

(** C1, as stated, fails.  The store that holds exactly the chunk of
    scenario 1 answers the query of scenario 1 with the empty list, not
    with one result. *)
Lemma scenario_1_returns_nothing :
  (add_documents Fixtures.uuid0 VectorStore.empty Fixtures.good_disk
     [Fixtures.ppe_chunk]).1.1 = true
  ∧ length (documents Fixtures.ppe_store) = 1%nat
  ∧ similarity_search Fixtures.ppe_store Fixtures.ppe_query default_top_k = []
  ∧ ¬ ∃ r, similarity_search Fixtures.ppe_store Fixtures.ppe_query default_top_k = [r]
           ∧ (0 < score r)%R.
Proof.
  split; [reflexivity|]. split; [reflexivity|].
  pose proof (single_chunk_search Fixtures.uuid0 Fixtures.good_disk
                Fixtures.ppe_chunk Fixtures.ppe_query default_top_k) as Hnone.
  split; [exact Hnone|].
  intros [r [Hr _]]. unfold Fixtures.ppe_store in Hr.
  rewrite Hnone in Hr. discriminate.
Qed.

(** C1, as amended.  In a store that holds exactly one chunk, the one of
    scenario 1 or any other, every weight of [idf_scores] is
    [ln (1 / 1) = 0]; both vectors have magnitude 0, the similarity is 0
    and [similarity_search] returns the empty list for every query. *)
Theorem single_chunk_corpus_retrieves_nothing
    (uuid4 : nat -> str) (disk : Disk) (chunk : DocumentProcessor.Chunk)
    (query : str) (top_k : Z) :
  let store := (add_documents uuid4 VectorStore.empty disk [chunk]).1.2 in
  (∀ t w, idf_scores store !! t = Some w → w = 0%R)
  ∧ similarity_search store query top_k = [].
Proof.
  cbv zeta. split.
  - intros t w. apply single_chunk_idf.
  - apply single_chunk_search.
Qed.

(** ** The snapshot *)
Section Snapshot.
Import DocumentProcessor.

Lemma fields_with_encoded {A} (f : json → option A) (g : A → json) (m : list (str * A)) :
  (∀ x, f (g x) = Some x) →
  fields_with f (JObj (prod_map (fun k => k) g <$> m)) = Some m.
Proof.
  intros Hfg. unfold fields_with. simpl. apply mapM_fmap_Some.
  intros [k v]. simpl. by rewrite Hfg.
Qed.

Lemma pyval_json (v : pyval) : pyval_of_json (json_of_pyval v) = Some v.
Proof. by destruct v. Qed.

Lemma doc_json (d : DocEntry) : doc_of_json (json_of_doc d) = Some d.
Proof.
  destruct d as [i c m ts]. unfold doc_of_json, json_of_doc.
  cbn [fields_of_json mbind option_bind id doc_content doc_metadata tokens].
  change (json_get _ (py "id") _) with (JStr i).
  change (json_get _ (py "content") _) with (JStr c).
  change (json_get _ (py "metadata") _)
    with (JObj (prod_map (fun k => k) json_of_pyval <$> m)).
  change (json_get _ (py "tokens") _) with (JList (JStr <$> ts)).
  cbn [str_of_json mbind option_bind].
  rewrite (fields_with_encoded pyval_of_json json_of_pyval m pyval_json).
  cbn [list_of_json mbind option_bind].
  by rewrite (mapM_fmap_Some str_of_json JStr ts).
Qed.

Lemma load_snapshot_of (self other : VectorStore.t) (w : WriteOutcome) :
  _load_data other {| file := Snapshot (snapshot_of self); write := w |} = self.
Proof.
  unfold _load_data, snapshot_of. cbn [file].
  change (json_get _ (py "documents") _) with (JList (json_of_doc <$> documents self)).
  change (json_get _ (py "vocabulary") _)
    with (JList (JStr <$> elements (vocabulary self))).
  change (json_get _ (py "idf_scores") _)
    with (JObj (prod_map (fun k => k) JFloat <$> map_to_list (idf_scores self))).
  cbn [list_of_json mbind option_bind].
  rewrite (mapM_fmap_Some doc_of_json json_of_doc (documents self) doc_json).
  cbn [mbind option_bind].
  rewrite (mapM_fmap_Some str_of_json JStr (elements (vocabulary self)))
    by done.
  cbn [mbind option_bind].
  rewrite (fields_with_encoded float_of_json JFloat) by done.
  cbn [mbind option_bind default].
  rewrite list_to_set_elements_L.
  rewrite <- (list_to_map_proper (map_to_list (idf_scores self))).
  - rewrite list_to_map_to_list. by destruct self.
  - apply NoDup_fst_map_to_list.
  - apply Permutation_rev.
Qed.

End Snapshot.

(** C9, as stated, fails for a state with an integer beyond the limit
    of digits in the metadata of a document, here a page number of 4301
    digits: on a disk where every write succeeds, [json.dump] raises
    after the file was opened, the file is left truncated, and a fresh
    store that loads it stays empty. *)
Lemma round_trip_fails_beyond_digit_limit :
  let self := Fixtures.long_page_store in
  let disk := _save_data self Fixtures.good_disk in
  length (documents self) = 1%nat
  ∧ (doc_metadata <$> documents self)
    = [[ (py "filename", DocumentProcessor.PyStr (py "safety.pdf"));
         (py "page", DocumentProcessor.PyInt (10 ^ 4300)) ]]
  ∧ write Fixtures.good_disk = Written
  ∧ file disk = Unreadable
  ∧ _load_data VectorStore.empty disk = VectorStore.empty
  ∧ _load_data VectorStore.empty disk ≠ self.
Proof.
  cbv zeta.
  assert (length (documents Fixtures.long_page_store) = 1%nat) as Hlen
    by (vm_compute; reflexivity).
  assert (_load_data VectorStore.empty (_save_data Fixtures.long_page_store Fixtures.good_disk)
          = VectorStore.empty) as Hload by (vm_compute; reflexivity).
  split; [exact Hlen|]. split; [vm_compute; reflexivity|].
  split; [reflexivity|]. split; [vm_compute; reflexivity|].
  split; [exact Hload|].
  rewrite Hload. intros Heq. rewrite <- Heq in Hlen. discriminate Hlen.
Qed.

(** C9, as amended.  When every write succeeds and no integer of the
    metadata is beyond the limit of digits, loading what [_save_data]
    wrote gives back the state that was saved: the same list of
    documents, the same vocabulary and the same table of weights,
    whatever the state held before the load.  When [json.dump] raises,
    for the file system or for such an integer, the file is left
    truncated and the load leaves the state as it was. *)
Theorem save_load_round_trip (self other : VectorStore.t) (disk : Disk) :
  (write disk = Written → dumpable self = true →
     file (_save_data self disk) = Snapshot (snapshot_of self)
     ∧ _load_data other (_save_data self disk) = self)
  ∧ (write disk = WriteRaises ∨ (write disk = Written ∧ dumpable self = false) →
     file (_save_data self disk) = Unreadable
     ∧ _load_data other (_save_data self disk) = other).
Proof.
  unfold _save_data. split.
  - intros -> ->. split; [reflexivity|]. apply load_snapshot_of.
  - intros [->|[-> ->]]; split; reflexivity.
Qed.

(** The store of two chunks is read back from its snapshot. *)
Lemma save_load_round_trip_witness :
  documents Fixtures.two_store ≠ []
  ∧ _load_data VectorStore.empty (_save_data Fixtures.two_store Fixtures.good_disk)
    = Fixtures.two_store.
Proof.
  split; [by vm_compute|].
  apply (save_load_round_trip Fixtures.two_store VectorStore.empty Fixtures.good_disk);
    reflexivity.
Defined.

(** ** Page provenance *)
Section Pages.
Import DocumentProcessor.
Variable self : DocumentProcessor.t.

Lemma keep_chunks_page (filename : str) (page : pyval) (texts : list str) :
  Forall (fun c => page_of c = Some page) (keep_chunks filename page texts).
Proof.
  unfold keep_chunks. apply Forall_fmap, Forall_forall. by intros t _.
Qed.

Lemma int_Some (digits : str) (n : Z) :
  int digits = Some n
  ↔ (length digits <= int_max_str_digits)%nat ∧ n = int_of_digits digits.
Proof.
  unfold int. destruct (Nat.ltb_spec int_max_str_digits (length digits)).
  - split; [done|]. intros [Hle _]. lia.
  - split; [intros [= <-]; split; [lia|done]|]. by intros [_ ->].
Qed.

Lemma int_None (digits : str) :
  int digits = None ↔ (int_max_str_digits < length digits)%nat.
Proof.
  unfold int. destruct (Nat.ltb_spec int_max_str_digits (length digits)).
  - done.
  - split; [done|lia].
Qed.

(** An iteration that does not raise. *)
Lemma region_chunks_Some (filename : str) (region : str * str) (cs : list Chunk) :
  region_chunks self filename region = Some cs →
  (length region.1 <= int_max_str_digits)%nat
  ∧ cs = if truthy (strip region.2)
         then keep_chunks filename (PyInt (int_of_digits region.1))
                (_split_text_into_chunks self (strip region.2))
         else [].
Proof.
  unfold region_chunks. destruct (int region.1) as [n|] eqn:Hint; [|done].
  apply int_Some in Hint as [Hle ->]. cbn [mbind option_bind]. by intros [= <-].
Qed.

Lemma region_chunks_None (filename : str) (region : str * str) :
  region_chunks self filename region = None
  ↔ (int_max_str_digits < length region.1)%nat.
Proof.
  rewrite <- int_None. unfold region_chunks.
  by destruct (int region.1).
Qed.

(** The loop over the page regions raises exactly when a marker has
    more digits than the limit. *)
Lemma marked_chunks_None (text filename : str) :
  marked_chunks self text filename = None
  ↔ Exists (fun digits => (int_max_str_digits < length digits)%nat)
      (page_regions (tail (Re.split_pages text))).*1.
Proof.
  unfold marked_chunks. rewrite Exists_fmap.
  destruct (mapM _ _) as [found|] eqn:Hm.
  - split; [done|]. intros Hex.
    assert (mapM (region_chunks self filename)
              (page_regions (tail (Re.split_pages text))) = None) as Hnone.
    { apply mapM_None. eapply Exists_impl; [exact Hex|].
      intros region Hlong. by apply region_chunks_None. }
    rewrite Hnone in Hm. discriminate Hm.
  - split; [|done]. intros _. apply mapM_None in Hm.
    eapply Exists_impl; [exact Hm|].
    intros region Hnone. by apply region_chunks_None in Hnone.
Qed.

(** What holds of the chunks of every iteration holds of the chunks
    gathered from the page regions. *)
Lemma marked_chunks_Forall (P : Chunk → Prop) (text filename : str)
    (chunks : list Chunk) :
  (∀ region cs, region ∈ page_regions (tail (Re.split_pages text)) →
     region_chunks self filename region = Some cs → Forall P cs) →
  marked_chunks self text filename = Some chunks → Forall P chunks.
Proof.
  unfold marked_chunks. intros HP.
  destruct (mapM _ _) as [found|] eqn:Hm; [|done]. intros [= <-].
  apply mapM_Some in Hm. apply Forall_concat.
  induction Hm as [|region cs regions found Hr _ IH]; [constructor|].
  constructor.
  - apply (HP region cs); [left|exact Hr].
  - apply IH. intros region' cs' Hin. apply HP. by right.
Qed.

Lemma marked_chunks_page (text filename : str) (chunks : list Chunk) :
  marked_chunks self text filename = Some chunks →
  Forall (fun c => ∃ n, page_of c = Some (PyInt n)) chunks.
Proof.
  apply marked_chunks_Forall. intros region cs _ [_ ->]%region_chunks_Some.
  destruct (truthy (strip region.2)); [|constructor].
  eapply Forall_impl; [apply keep_chunks_page|].
  simpl. intros c Hc. by eexists.
Qed.

(** The three ways in which [create_chunks] ends. *)
Lemma create_chunks_cases (text filename : str) :
  match marked_chunks self text filename with
  | None => create_chunks self text filename = None
  | Some [] =>
      create_chunks self text filename = Some (fallback_chunks self text filename)
  | Some chunks => create_chunks self text filename = Some chunks
  end.
Proof.
  unfold create_chunks. destruct text as [|c text]; [reflexivity|].
  cbn [truthy negb]. by destruct (marked_chunks self (c :: text) filename) as [[|]|].
Qed.

End Pages.

(** C10, as stated, fails for a text whose page marker has more digits
    than the limit, here 4301: no chunk is kept from a page region, and
    yet the text is not chunked again as a whole, because [int] raises
    and [create_chunks] returns nothing. *)
Lemma long_marker_raises :
  (DocumentProcessor.page_regions (tail (Re.split_pages Fixtures.long_marker))).*1
  = [replicate 4301 "1"%char]
  ∧ DocumentProcessor.marked_chunks DocumentProcessor.defaults
      Fixtures.long_marker (py "a.pdf") = None
  ∧ DocumentProcessor.create_chunks DocumentProcessor.defaults
      Fixtures.long_marker (py "a.pdf") = None.
Proof. repeat split; vm_compute; reflexivity. Qed.

(** C10, as amended.  [create_chunks] raises exactly when a page marker
    of a text that is not empty has more digits than the limit.  When
    no marker has and no chunk is kept from the regions delimited by the
    page markers, [create_chunks] returns the chunks kept from the whole
    text, markers included, each with page ["N/A"]; when some chunk is
    kept from a page region, it returns the chunks of the page regions
    only, each with an integer page, and no chunk has page ["N/A"]. *)
Theorem create_chunks_fallback
    (self : DocumentProcessor.t) (text filename : str) :
  let NA := DocumentProcessor.PyStr (py "N/A") in
  let markers := (DocumentProcessor.page_regions (tail (Re.split_pages text))).*1 in
  let marked := DocumentProcessor.marked_chunks self text filename in
  (marked = None
   ↔ Exists (fun digits => (int_max_str_digits < length digits)%nat) markers)
  ∧ (DocumentProcessor.create_chunks self text filename = None ↔ marked = None)
  ∧ (marked = Some [] →
     DocumentProcessor.create_chunks self text filename
     = Some (DocumentProcessor.keep_chunks filename NA
               (DocumentProcessor._split_text_into_chunks self text))
     ∧ Forall (fun c => DocumentProcessor.page_of c = Some NA)
         (DocumentProcessor.keep_chunks filename NA
            (DocumentProcessor._split_text_into_chunks self text)))
  ∧ (∀ chunks, marked = Some chunks → chunks ≠ [] →
     DocumentProcessor.create_chunks self text filename = Some chunks
     ∧ Forall (fun c => ∃ n, DocumentProcessor.page_of c = Some (DocumentProcessor.PyInt n))
         chunks
     ∧ Forall (fun c => DocumentProcessor.page_of c ≠ Some NA) chunks).
Proof.
  intros NA markers marked.
  pose proof (create_chunks_cases self text filename) as Hcases.
  pose proof (marked_chunks_page self text filename) as Hpage.
  fold marked in Hcases, Hpage.
  split; [apply marked_chunks_None|]. split; [|split].
  - destruct marked as [[|c cs]|]; rewrite Hcases; done.
  - intros Hnone. rewrite Hnone in Hcases. split; [exact Hcases|].
    apply keep_chunks_page.
  - intros chunks Hsome Hne. rewrite Hsome in Hcases.
    destruct chunks as [|c cs]; [done|]. split; [exact Hcases|].
    split; [by apply Hpage|].
    eapply Forall_impl; [by apply Hpage|].
    intros c' [n Hn]. rewrite Hn. discriminate.
Qed.

(** Three short pages fall back to one chunk of the whole text, markers
    included; a long page keeps its page number. *)
Lemma create_chunks_fallback_witness :
  (DocumentProcessor.marked_chunks DocumentProcessor.defaults
     Fixtures.short_pages (py "a.pdf") = Some []
   ∧ (DocumentProcessor.content <$>
        DocumentProcessor.keep_chunks (py "a.pdf") (DocumentProcessor.PyStr (py "N/A"))
          (DocumentProcessor._split_text_into_chunks DocumentProcessor.defaults
             Fixtures.short_pages)) = [Fixtures.short_pages]
   ∧ DocumentProcessor.create_chunks DocumentProcessor.defaults
       Fixtures.short_pages (py "a.pdf")
     = Some (DocumentProcessor.keep_chunks (py "a.pdf")
               (DocumentProcessor.PyStr (py "N/A"))
               (DocumentProcessor._split_text_into_chunks DocumentProcessor.defaults
                  Fixtures.short_pages)))
  ∧ (∃ c, DocumentProcessor.marked_chunks DocumentProcessor.defaults
            Fixtures.long_page (py "a.pdf") = Some [c]
          ∧ DocumentProcessor.page_of c = Some (DocumentProcessor.PyInt 7)
          ∧ DocumentProcessor.create_chunks DocumentProcessor.defaults
              Fixtures.long_page (py "a.pdf") = Some [c]).
Proof.
  assert (DocumentProcessor.marked_chunks DocumentProcessor.defaults
            Fixtures.short_pages (py "a.pdf") = Some []) as Hnone
    by (vm_compute; reflexivity).
  assert (∃ c, DocumentProcessor.marked_chunks DocumentProcessor.defaults
                 Fixtures.long_page (py "a.pdf") = Some [c]
               ∧ DocumentProcessor.page_of c = Some (DocumentProcessor.PyInt 7))
    as (c & Hsome & Hpage)
    by (eexists; split; vm_compute; reflexivity).
  split.
  - split; [exact Hnone|]. split; [vm_compute; reflexivity|].
    destruct (create_chunks_fallback DocumentProcessor.defaults
                Fixtures.short_pages (py "a.pdf")) as (_ & _ & Hfallback & _).
    exact (proj1 (Hfallback Hnone)).
  - exists c. split; [exact Hsome|]. split; [exact Hpage|].
    destruct (create_chunks_fallback DocumentProcessor.defaults
                Fixtures.long_page (py "a.pdf")) as (_ & _ & _ & Hkept).
    apply (Hkept [c] Hsome). discriminate.
Defined.

(** ** Stripping and sentence pieces *)
Section Stripping.

Lemma lstrip_suffix (s : str) : lstrip s `suffix_of` s.
Proof.
  induction s as [|c s IH]; simpl; [done|].
  destruct (is_space c); [by apply suffix_cons_r|done].
Qed.

Lemma lstrip_clean (s : str) : starts_clean (lstrip s).
Proof.
  induction s as [|c s IH]; simpl; [done|].
  destruct (is_space c) eqn:Hc; [done|]. simpl. done.
Qed.

Lemma lstrip_id (s : str) : starts_clean s → lstrip s = s.
Proof. destruct s as [|c s]; simpl; [done|]. by intros ->. Qed.

Lemma ends_nonspace_app (x s : str) : ends_nonspace s → ends_nonspace (x ++ s).
Proof. intros (y & c & -> & Hc). exists (x ++ y), c. by rewrite app_assoc. Qed.

Lemma ends_nonspace_nonempty (s : str) : ends_nonspace s → s ≠ [].
Proof. intros (y & c & -> & _). by destruct y. Qed.

Lemma rstrip_id (s : str) : ends_nonspace s → rstrip s = s.
Proof.
  intros (x & c & -> & Hc). unfold rstrip.
  rewrite rev_app_distr. simpl. rewrite Hc. simpl.
  by rewrite rev_involutive.
Qed.

Lemma lstrip_ends (s : str) : ends_nonspace s → ends_nonspace (lstrip s).
Proof.
  induction s as [|a s IH]; intros Hs; simpl; [done|].
  destruct (is_space a) eqn:Ha; [|done].
  apply IH. destruct Hs as (x & c & Hx & Hc).
  destruct x as [|b x]; simplify_eq/=; [congruence|by exists x, c].
Qed.

Lemma rstrip_ends (s : str) : rstrip s ≠ [] → ends_nonspace (rstrip s).
Proof.
  unfold rstrip. pose proof (lstrip_clean (rev s)) as Hc.
  destruct (lstrip (rev s)) as [|c r]; [done|]. intros _.
  exists (rev r), c. done.
Qed.

(** A string returned by [strip] is empty, or begins and ends with a
    character that is not whitespace. *)
Lemma strip_clean (s : str) : starts_clean (strip s).
Proof. apply lstrip_clean. Qed.

Lemma strip_ends (s : str) : strip s ≠ [] → ends_nonspace (strip s).
Proof.
  unfold strip. intros Hne. apply lstrip_ends, rstrip_ends.
  intros Hr. by rewrite Hr in Hne.
Qed.

Lemma strip_ended (s : str) : ends_nonspace s → strip s = lstrip s.
Proof. intros Hs. unfold strip. by rewrite rstrip_id. Qed.

Lemma lstrip_length (s : str) : (length (lstrip s) <= length s)%nat.
Proof. apply suffix_length, lstrip_suffix. Qed.

Lemma strip_length (s : str) : (length (strip s) <= length s)%nat.
Proof.
  unfold strip, rstrip. etrans; [apply lstrip_length|].
  rewrite length_rev. etrans; [apply lstrip_length|]. by rewrite length_rev.
Qed.

(** A clean suffix of [s] survives [lstrip]. *)
Lemma suffix_lstrip (x s : str) :
  x `suffix_of` s → starts_clean x → x `suffix_of` lstrip s.
Proof.
  induction s as [|a s IH]; intros Hx Hc; simpl; [done|].
  destruct (is_space a) eqn:Ha; [|done].
  destruct x as [|b x]; [apply suffix_nil|].
  apply suffix_cons_inv in Hx as [Heq|Hx].
  - simplify_eq/=. congruence.
  - by apply IH.
Qed.

Lemma lstrip_app_prefix (o y : str) : lstrip o `prefix_of` lstrip (o ++ y).
Proof.
  induction o as [|a o IH]; simpl; [apply prefix_nil|].
  destruct (is_space a); [done|]. by apply prefix_cons, prefix_app_r.
Qed.

Lemma prefix_lstrip (o s : str) : o `prefix_of` s → lstrip o `prefix_of` lstrip s.
Proof. intros [y ->]. apply lstrip_app_prefix. Qed.

(** *** The pieces of [re.split] *)

Lemma split_sentences_go_nonempty (s : str) : ∀ prev in_sep cur,
  Re.split_sentences_go prev in_sep cur s ≠ [].
Proof.
  induction s as [|c s IH]; intros prev in_sep cur; simpl; [done|].
  destruct (is_space c); [|apply IH].
  destruct in_sep; [apply IH|].
  destruct prev as [p|]; [|apply IH].
  destruct (Re.is_sentence_end p); [done|apply IH].
Qed.

Lemma last_cons_nonempty {A} (x : A) (l : list A) (d : A) :
  l ≠ [] → List.last (x :: l) d = List.last l d.
Proof. by destruct l. Qed.

(** The last piece is the whole text read so far, or a suffix of what
    remains to be read. *)
Lemma split_sentences_go_last (s : str) : ∀ prev in_sep cur,
  (in_sep = true → cur = []) →
  List.last (Re.split_sentences_go prev in_sep cur s) [] = rev cur ++ s
  ∨ List.last (Re.split_sentences_go prev in_sep cur s) [] `suffix_of` s.
Proof.
  induction s as [|c s IH]; intros prev in_sep cur Hsep; simpl.
  - left. by rewrite app_nil_r.
  - assert (∀ p, List.last (Re.split_sentences_go p false (c :: cur) s) []
                 = rev cur ++ c :: s
               ∨ List.last (Re.split_sentences_go p false (c :: cur) s) []
                 `suffix_of` c :: s) as Hkeep.
    { intros p. destruct (IH p false (c :: cur)) as [Heq|Hsuf]; [done| |].
      - left. rewrite Heq. simpl. by rewrite <- app_assoc.
      - right. by apply suffix_cons_r. }
    assert (∀ p, List.last (Re.split_sentences_go p true [] s) [] `suffix_of` c :: s)
      as Hskip.
    { intros p. destruct (IH p true []) as [Heq|Hsuf]; [done| |].
      - rewrite Heq. simpl. by apply suffix_cons_r.
      - by apply suffix_cons_r. }
    destruct (is_space c); [|apply Hkeep].
    destruct in_sep.
    + right. rewrite (Hsep eq_refl). apply Hskip.
    + destruct prev as [p|]; [|apply Hkeep].
      destruct (Re.is_sentence_end p); [|apply Hkeep].
      right. rewrite last_cons_nonempty by apply split_sentences_go_nonempty.
      apply Hskip.
Qed.

Lemma split_sentences_last (w : str) :
  List.last (Re.split_sentences w) [] `suffix_of` w.
Proof.
  unfold Re.split_sentences.
  destruct (split_sentences_go_last w None false []) as [->|H]; done.
Qed.

End Stripping.

(** ** The chunker *)
Section Chunker.
Import DocumentProcessor.
Variable self : DocumentProcessor.t.

Lemma fold_left_invariant {A B} (f : A → B → A) (P : A → Prop) (l : list B) :
  ∀ a, P a → (∀ a x, x ∈ l → P a → P (f a x)) → P (fold_left f l a).
Proof.
  induction l as [|x l IH]; intros a Ha Hstep; simpl; [done|].
  apply IH.
  - apply Hstep; [apply list_elem_of_here|done].
  - intros a' y Hy. apply Hstep. by apply list_elem_of_further.
Qed.

Lemma len_app {A} (a b : list A) : len (a ++ b) = (len a + len b)%Z.
Proof. unfold len. rewrite length_app. lia. Qed.

Lemma len_nonneg {A} (a : list A) : (0 <= len a)%Z.
Proof. unfold len. lia. Qed.

Lemma len_pos {A} (a : list A) : a ≠ [] → (1 <= len a)%Z.
Proof. destruct a; [done|]. unfold len. simpl. lia. Qed.

Lemma truthy_spec {A} (l : list A) : if truthy l then l ≠ [] else l = [].
Proof. by destruct l. Qed.

(** Every iteration of the loop is one of the four cases. *)
Lemma chunk_step_case (st : loop) (raw : str) :
  step_case self st raw (chunk_step self st raw).
Proof.
  unfold chunk_step. cbv zeta.
  pose proof (truthy_spec (strip raw)) as Hs.
  destruct (truthy (strip raw)) eqn:Ht; cbn [negb]; [|by apply step_skip].
  pose proof (truthy_spec (current_chunk st)) as Hc.
  destruct (truthy (current_chunk st)).
  - destruct (Z.gtb_spec (current_length st + len (strip raw)) (chunk_size self));
      cbn [andb].
    + apply step_emit; [done|done|lia].
    + assert (truthy (current_chunk st ++ py " " ++ strip raw) = true) as ->
        by (by destruct (current_chunk st)).
      by apply step_append.
  - rewrite andb_false_r, Ht. by apply step_start.
Qed.

(** *** The overlap text *)

Lemma overlap_suffix (text : str) : _get_overlap_text self text `suffix_of` text.
Proof.
  unfold _get_overlap_text. destruct (len text <=? chunk_overlap self)%Z; [done|].
  cbv zeta. set (window := drop _ text).
  assert (window `suffix_of` text) as Hw by apply suffix_drop.
  destruct (1 <? length (Re.split_sentences window))%nat; [|done].
  destruct (truthy _); [|done].
  etrans; [apply split_sentences_last|done].
Qed.

Lemma overlap_length (text : str) :
  (len (_get_overlap_text self text) <= Z.max (chunk_overlap self) 0)%Z.
Proof.
  unfold _get_overlap_text.
  destruct (len text <=? chunk_overlap self)%Z eqn:Hle; [lia|].
  cbv zeta. set (window := drop _ text).
  assert (len window <= Z.max (chunk_overlap self) 0)%Z as Hw.
  { unfold window, len in *. rewrite length_drop. lia. }
  assert (∀ x : str, x `suffix_of` window → (len x <= len window)%Z) as Hsuf.
  { intros x Hx%suffix_length. unfold len. lia. }
  destruct (1 <? length (Re.split_sentences window))%nat; [|done].
  destruct (truthy _); [|done].
  etrans; [apply Hsuf, split_sentences_last|done].
Qed.

Lemma overlap_unsnapped (text : str) :
  ¬ snapped self text →
  (Z.min (chunk_overlap self) (len text) <= len (_get_overlap_text self text))%Z.
Proof.
  intros Hns. unfold _get_overlap_text.
  destruct (len text <=? chunk_overlap self)%Z eqn:Hle; [lia|].
  cbv zeta. apply Z.leb_gt in Hle.
  destruct (1 <? length _)%nat eqn:Hlt.
  - exfalso. apply Hns. split; [done|]. by apply Nat.ltb_lt.
  - unfold len in *. rewrite length_drop. lia.
Qed.

(** *** The sentences of the loop *)

Lemma sentence_seen (text raw : str) :
  raw ∈ Re.split_sentences text → strip raw ≠ [] → strip raw ∈ sentences_of text.
Proof.
  intros Hraw Hne. unfold sentences_of.
  apply list_elem_of_filter. split; [done|].
  apply list_elem_of_fmap. by exists raw.
Qed.

(** *** The size of the chunks *)

Variable text : str.

Lemma sentence_clean (s : str) : s ∈ sentences_of text → starts_clean s.
Proof.
  unfold sentences_of. intros [_ Hs]%list_elem_of_filter.
  apply list_elem_of_fmap in Hs as [raw [-> _]]. apply strip_clean.
Qed.

Lemma buffer_bound_strip (c : str) :
  buffer_bound self text c → ends_nonspace c → within_bound self text (strip c).
Proof.
  intros (s & Hs & Hsuf & Hlen) Hend. exists s. split; [done|]. split.
  - rewrite strip_ended by done. apply suffix_lstrip; [done|].
    by apply sentence_clean.
  - destruct Hlen as [Hlen|[Heq Hlen]].
    + left. pose proof (strip_length c). unfold len in *. lia.
    + right. by rewrite Heq.
Qed.

Lemma strip_id (s : str) : starts_clean s → ends_nonspace s → strip s = s.
Proof. intros Hc He. rewrite strip_ended by done. by apply lstrip_id. Qed.

Lemma strip_space_sentence (s : str) :
  starts_clean s → ends_nonspace s → strip (py " " ++ s) = s.
Proof.
  intros Hc He. rewrite strip_ended by (by apply ends_nonspace_app).
  simpl. by apply lstrip_id.
Qed.

Hypothesis overlap_smaller : (chunk_overlap self < chunk_size self)%Z.

Lemma size_invariant_step (st : loop) (raw : str) :
  raw ∈ Re.split_sentences text → size_invariant self text st →
  size_invariant self text (chunk_step self st raw).
Proof.
  intros Hraw (Hlen & Hcur & Hchunks).
  destruct (chunk_step_case st raw) as [Hs | Hs Hc Hgt | Hs Hc Hle | Hs Hc];
    [done| | |];
    pose proof (sentence_seen text raw Hraw Hs) as Hseen;
    pose proof (strip_ends raw Hs) as Hsend;
    pose proof (strip_clean raw) as Hsclean;
    pose proof (len_pos _ Hs) as Hspos;
    unfold size_invariant; cbn [current_chunk current_length chunks].
  - (* the buffer becomes a chunk *)
    destruct (Hcur Hc) as [Hb Hend].
    split; [lia|]. split.
    + intros _. split; [|by apply ends_nonspace_app, ends_nonspace_app].
      exists (strip raw). split; [done|].
      split; [by apply suffix_app_r, suffix_app_r|].
      pose proof (overlap_length (current_chunk st)) as Ho.
      destruct (decide (1 <= chunk_size self)%Z) as [Hpos|Hneg].
      * left. rewrite !len_app. change (len (py " ")) with 1%Z. lia.
      * (* no overlap text: the buffer is a space and the sentence *)
        right. assert (_get_overlap_text self (current_chunk st) = []) as ->.
        { destruct (_get_overlap_text self (current_chunk st)); [done|].
          unfold len in Ho. simpl in Ho. lia. }
        rewrite app_nil_l. split; [by apply strip_space_sentence|lia].
    + apply Forall_app. split; [done|].
      constructor; [|constructor]. by apply buffer_bound_strip.
  - (* the sentence is appended *)
    destruct (Hcur Hc) as [Hb Hend].
    rewrite !len_app. change (len (py " ")) with 1%Z.
    split; [lia|]. split; [|done].
    intros _. split; [|by apply ends_nonspace_app, ends_nonspace_app].
    exists (strip raw). split; [done|].
    split; [by apply suffix_app_r, suffix_app_r|].
    left. rewrite !len_app. change (len (py " ")) with 1%Z. lia.
  - (* the sentence starts the buffer *)
    rewrite Hc in Hlen. change (len []) with 0%Z in Hlen.
    split; [lia|]. split; [|done].
    intros _. split; [|done].
    exists (strip raw). split; [done|]. split; [done|].
    destruct (decide (0 <= chunk_size self)%Z); [left; lia|right].
    split; [by apply strip_id|lia].
Qed.

Lemma size_invariant_init : size_invariant self text loop_init.
Proof. split; [done|]. split; [done|constructor]. Qed.

Lemma chunks_within_bound :
  Forall (within_bound self text) (_split_text_into_chunks self text).
Proof.
  unfold _split_text_into_chunks. destruct (negb (truthy text)); [constructor|].
  cbv zeta.
  pose proof (fold_left_invariant (chunk_step self) (size_invariant self text)
                (Re.split_sentences text) loop_init size_invariant_init
                size_invariant_step) as (Hlen & Hcur & Hchunks).
  set (st := fold_left _ _ _) in *.
  pose proof (truthy_spec (strip (current_chunk st))) as Ht.
  destruct (truthy (strip (current_chunk st))); [|done].
  apply Forall_app. split; [done|]. constructor; [|constructor].
  assert (current_chunk st ≠ []) as Hne by (intros Heq; by rewrite Heq in Ht).
  destruct (Hcur Hne). by apply buffer_bound_strip.
Qed.

End Chunker.

(** ** The overlap between consecutive chunks *)
Section Overlap.
Import DocumentProcessor.
Variable self : DocumentProcessor.t.

Lemma ends_nonspace_app_inv (a k : str) :
  ends_nonspace (a ++ k) → k ≠ [] → ends_nonspace k.
Proof.
  intros (x & c & Hx & Hc) Hk.
  destruct (exists_last Hk) as (k' & d & ->).
  rewrite app_assoc in Hx. apply app_inj_tail in Hx as [_ <-].
  by exists k', d.
Qed.

Lemma linked_seeded (E cur : str) :
  linked self E cur → ends_nonspace cur → seeded self E (strip cur).
Proof.
  intros (B & HE & HB & [k Hk]) Hcur. exists B, k. split; [done|]. split; [done|].
  rewrite Hk in Hcur. split.
  - apply (ends_nonspace_app_inv _ _ Hcur). intros ->.
    rewrite app_nil_r in Hcur. destruct Hcur as (x & c & Hx & Hc).
    apply app_inj_tail in Hx as [_ <-]. done.
  - by rewrite Hk, <- app_assoc.
Qed.

Lemma consecutive_snoc (P : str → str → Prop) (l : list str) (x : str) :
  consecutive P l → (∀ E, last l = Some E → P E x) → consecutive P (l ++ [x]).
Proof.
  intros Hl Hlast i E L Hi HSi.
  destruct (decide (S i < length l)%nat) as [Hlt|Hge].
  - rewrite lookup_app_l in Hi by lia. rewrite lookup_app_l in HSi by lia.
    by apply (Hl i).
  - pose proof (lookup_lt_Some _ _ _ HSi) as Hb. rewrite length_app in Hb.
    simpl in Hb. assert (S i = length l) as Hi' by lia.
    rewrite Hi', list_lookup_middle in HSi by done. simplify_eq.
    rewrite lookup_app_l in Hi by lia.
    apply Hlast. rewrite last_lookup, <- Hi'. done.
Qed.

Lemma overlap_invariant_step (st : loop) (raw : str) :
  overlap_invariant self st → overlap_invariant self (chunk_step self st raw).
Proof.
  intros (Hcur & Hpairs & Hlink).
  destruct (chunk_step_case self st raw) as [Hs | Hs Hc Hgt | Hs Hc Hle | Hs Hc];
    [done| | |];
    pose proof (strip_ends raw Hs) as Hsend;
    unfold overlap_invariant; cbn [current_chunk chunks].
  - (* the buffer becomes a chunk *)
    destruct Hcur as [Hcur|Hcur]; [done|].
    split; [right; by apply ends_nonspace_app, ends_nonspace_app|]. split.
    + apply consecutive_snoc; [done|].
      intros E HE. by apply linked_seeded; [apply Hlink|].
    + intros E. rewrite last_snoc. intros [= <-].
      exists (current_chunk st). split; [done|]. split; [done|].
      rewrite (app_assoc _ (py " ")). by apply prefix_app_r.
  - (* the sentence is appended *)
    split; [right; by apply ends_nonspace_app, ends_nonspace_app|].
    split; [done|].
    intros E HE. destruct (Hlink E HE) as (B & HB & Hend & Hpre).
    exists B. split; [done|]. split; [done|]. by apply prefix_app_r.
  - (* the sentence starts the buffer: no chunk was emitted yet *)
    split; [by right|]. split; [done|].
    intros E HE. destruct (Hlink E HE) as (B & _ & _ & Hpre).
    rewrite Hc in Hpre. apply prefix_nil_inv in Hpre.
    by destruct (_get_overlap_text self B).
Qed.

Lemma overlap_invariant_init : overlap_invariant self loop_init.
Proof.
  split; [by left|]. split.
  - intros i E L Hi. cbn in Hi. discriminate.
  - intros E HE. done.
Qed.

Lemma chunks_seeded (text : str) :
  consecutive (seeded self) (_split_text_into_chunks self text).
Proof.
  unfold _split_text_into_chunks. destruct (negb (truthy text)).
  { intros i E L Hi. cbn in Hi. discriminate. }
  cbv zeta.
  pose proof (fold_left_invariant (chunk_step self) (overlap_invariant self)
                (Re.split_sentences text) loop_init overlap_invariant_init
                (fun a x _ => overlap_invariant_step a x)) as (Hcur & Hpairs & Hlink).
  set (st := fold_left _ _ _) in *.
  pose proof (truthy_spec (strip (current_chunk st))) as Ht.
  destruct (truthy (strip (current_chunk st))); [|done].
  apply consecutive_snoc; [done|].
  intros E HE. apply linked_seeded; [by apply Hlink|].
  destruct Hcur as [Hcur|Hcur]; [by rewrite Hcur in Ht|done].
Qed.

Lemma seeded_shared (B rest E L : str) :
  seeded_from self B rest E L →
  lstrip (_get_overlap_text self B) `suffix_of` E
  ∧ lstrip (_get_overlap_text self B) `prefix_of` L
  ∧ (¬ snapped self B →
     (Z.min (chunk_overlap self) (len E) <= len (_get_overlap_text self B))%Z).
Proof.
  intros (-> & HB & Hrest & ->). split; [|split].
  - rewrite strip_ended by done. apply suffix_lstrip; [|apply lstrip_clean].
    etrans; [apply lstrip_suffix|apply overlap_suffix].
  - rewrite strip_ended by (by apply ends_nonspace_app, ends_nonspace_app).
    apply lstrip_app_prefix.
  - intros Hns%overlap_unsnapped.
    pose proof (strip_length B). unfold len in *. lia.
Qed.

End Overlap.

(** ** Sentences are kept whole *)
Section Whole.
Import DocumentProcessor.
Variable self : DocumentProcessor.t.

Lemma infix_lstrip (s c : str) :
  infix s c → s ≠ [] → starts_clean s → infix s (lstrip c).
Proof.
  intros (a & b & ->) Hne Hclean. induction a as [|y a IH]; simpl.
  - destruct s as [|x s]; [done|]. simpl in *. rewrite Hclean. by exists [], b.
  - destruct (is_space y); [done|]. by exists (y :: a), b.
Qed.

Lemma infix_strip (s c : str) :
  infix s c → s ≠ [] → starts_clean s → ends_nonspace c → infix s (strip c).
Proof. intros. rewrite strip_ended by done. by apply infix_lstrip. Qed.

Lemma infix_suffix (s x : str) : infix s (x ++ s).
Proof. exists x, []. by rewrite app_nil_r. Qed.

Lemma infix_app_r (s c y : str) : infix s c → infix s (c ++ y).
Proof. intros (a & b & ->). exists a, (b ++ y). by rewrite <- !app_assoc. Qed.

Lemma infix_nil_inv (s : str) : infix s [] → s = [].
Proof. intros (a & b & H). symmetry in H. by destruct a, s. Qed.

Lemma fold_left_invariant_seen {A B} (f : A → B → A) (P : list B → A → Prop)
    (l : list B) (a : A) :
  P [] a → (∀ seen x a, P seen a → P (seen ++ [x]) (f a x)) → P l (fold_left f l a).
Proof.
  intros Ha Hstep.
  assert (∀ seen a, P seen a → P (seen ++ l) (fold_left f l a)) as Hgen.
  { induction l as [|x l IH]; intros seen a' Ha'; simpl.
    - by rewrite app_nil_r.
    - rewrite (cons_middle x seen l), app_assoc. by apply IH, Hstep. }
  by apply (Hgen []).
Qed.

Lemma whole_invariant_step (seen : list str) (raw : str) (st : loop) :
  whole_invariant seen st → whole_invariant (seen ++ [raw]) (chunk_step self st raw).
Proof.
  intros (Hcur & Hseen).
  destruct (chunk_step_case self st raw) as [Hs | Hs Hc Hgt | Hs Hc Hle | Hs Hc].
  { split; [done|]. intros raw' [Hin|Hin]%elem_of_app Hne; [by apply Hseen|].
    apply list_elem_of_singleton in Hin as ->. done. }
  all: pose proof (strip_ends raw Hs) as Hsend;
    unfold whole_invariant; cbn [current_chunk chunks].
  - (* the buffer becomes a chunk *)
    destruct Hcur as [Hcur|Hcur]; [done|].
    split; [right; by apply ends_nonspace_app, ends_nonspace_app|].
    intros raw' [Hin|Hin]%elem_of_app Hne.
    + left. destruct (Hseen raw' Hin Hne) as [(c & Hc' & Hinf)|Hinf].
      * exists c. split; [|done]. apply elem_of_app. by left.
      * exists (strip (current_chunk st)). split.
        -- apply elem_of_app. right. apply list_elem_of_here.
        -- apply infix_strip; [done|done|apply strip_clean|done].
    + apply list_elem_of_singleton in Hin as ->. right.
      rewrite (app_assoc _ (py " ")). apply infix_suffix.
  - (* the sentence is appended *)
    split; [right; by apply ends_nonspace_app, ends_nonspace_app|].
    intros raw' [Hin|Hin]%elem_of_app Hne.
    + destruct (Hseen raw' Hin Hne) as [?|Hinf]; [by left|].
      right. by apply infix_app_r.
    + apply list_elem_of_singleton in Hin as ->. right.
      rewrite (app_assoc _ (py " ")). apply infix_suffix.
  - (* the sentence starts the buffer *)
    split; [by right|].
    intros raw' [Hin|Hin]%elem_of_app Hne.
    + destruct (Hseen raw' Hin Hne) as [?|Hinf]; [by left|].
      rewrite Hc in Hinf. by apply infix_nil_inv in Hinf.
    + apply list_elem_of_singleton in Hin as ->. right. apply (infix_suffix _ []).
Qed.

Lemma sentences_whole (text : str) (s : str) :
  s ∈ sentences_of text →
  ∃ c, c ∈ _split_text_into_chunks self text ∧ infix s c.
Proof.
  unfold sentences_of. intros [Hne Hs]%list_elem_of_filter.
  apply list_elem_of_fmap in Hs as [raw [-> Hraw]].
  unfold _split_text_into_chunks.
  destruct text as [|ch text]; [by apply list_elem_of_singleton in Hraw as ->|].
  cbn [truthy negb]. cbv zeta.
  pose proof (fold_left_invariant_seen (chunk_step self) whole_invariant
                (Re.split_sentences (ch :: text)) loop_init) as Hinv.
  destruct Hinv as (Hcur & Hseen).
  { split; [by left|]. intros raw' Hin. by apply elem_of_nil in Hin. }
  { intros seen x a. apply whole_invariant_step. }
  set (st := fold_left _ _ _) in *.
  destruct (Hseen raw Hraw Hne) as [(c & Hc & Hinf)|Hinf].
  - exists c. split; [|done].
    destruct (truthy (strip (current_chunk st))); [|done].
    apply elem_of_app. by left.
  - assert (current_chunk st ≠ []) as Hcne.
    { intros Heq. rewrite Heq in Hinf. by apply infix_nil_inv in Hinf. }
    destruct Hcur as [Hcur|Hcur]; [done|].
    assert (infix (strip raw) (strip (current_chunk st))) as Hinf'
      by (apply infix_strip; [done|done|apply strip_clean|done]).
    pose proof (truthy_spec (strip (current_chunk st))) as Ht.
    destruct (truthy (strip (current_chunk st))).
    + exists (strip (current_chunk st)). split; [|done].
      apply elem_of_app. right. apply list_elem_of_here.
    + rewrite Ht in Hinf'. by apply infix_nil_inv in Hinf'.
Qed.

End Whole.

(** C6, as stated, fails for a chunker whose overlap size is not smaller
    than its target size.  With the sizes 10 and 100 every buffer is its
    own overlap text, so that each chunk repeats the chunk before it:
    the third chunk of four sentences of 5 characters has 17 characters,
    more than the target size and the length of a sentence together, and
    it is not a single sentence. *)
Lemma overlap_larger_than_chunk_size :
  let self := Fixtures.wide_overlap in
  let text := Fixtures.four_sentences in
  DocumentProcessor.sentences_of text
  = [py "Aaaa."; py "Bbbb."; py "Cccc."; py "Dddd."]
  ∧ DocumentProcessor._split_text_into_chunks self text
    = [py "Aaaa."; py "Aaaa. Bbbb."; py "Aaaa. Bbbb. Cccc.";
       py "Aaaa. Bbbb. Cccc. Dddd."]
  ∧ ∃ c, c ∈ DocumentProcessor._split_text_into_chunks self text
         ∧ len c = 17%Z
         ∧ ∀ s, s ∈ DocumentProcessor.sentences_of text →
             ¬ ((len c <= DocumentProcessor.chunk_size self + len s)%Z
                ∨ (c = s ∧ (DocumentProcessor.chunk_size self < len c)%Z)).
Proof.
  cbv zeta.
  assert (DocumentProcessor.sentences_of Fixtures.four_sentences
          = [py "Aaaa."; py "Bbbb."; py "Cccc."; py "Dddd."]) as Hsent
    by (vm_compute; reflexivity).
  assert (DocumentProcessor._split_text_into_chunks Fixtures.wide_overlap
            Fixtures.four_sentences
          = [py "Aaaa."; py "Aaaa. Bbbb."; py "Aaaa. Bbbb. Cccc.";
             py "Aaaa. Bbbb. Cccc. Dddd."]) as Hchunks
    by (vm_compute; reflexivity).
  split; [exact Hsent|]. split; [exact Hchunks|].
  exists (py "Aaaa. Bbbb. Cccc."). rewrite Hchunks, Hsent.
  split; [do 2 apply list_elem_of_further; apply list_elem_of_here|].
  split; [reflexivity|].
  intros s Hs [Hle|[Heq _]].
  - repeat (apply elem_of_cons in Hs as [->|Hs]);
      [vm_compute in Hle; by apply Hle ..|by apply elem_of_nil in Hs].
  - subst s.
    repeat (apply elem_of_cons in Hs as [Hs|Hs]; [discriminate Hs|]).
    by apply elem_of_nil in Hs.
Qed.

(** C6, as amended.  With an overlap size smaller than the target size,
    as with the defaults 100 and 800, every chunk emitted for a page
    region ends with a sentence of the region, and it is at most the
    target size longer than that sentence or it is that sentence alone,
    longer than the target size.  No sentence is cut: each one occurs
    whole in some chunk. *)
Theorem chunk_size_is_a_soft_target (self : DocumentProcessor.t) (text : str) :
  (DocumentProcessor.chunk_overlap self < DocumentProcessor.chunk_size self)%Z →
  (∀ c, c ∈ DocumentProcessor._split_text_into_chunks self text →
     ∃ s, s ∈ DocumentProcessor.sentences_of text
          ∧ s `suffix_of` c
          ∧ ((len c <= DocumentProcessor.chunk_size self + len s)%Z
             ∨ (c = s ∧ (DocumentProcessor.chunk_size self < len c)%Z)))
  ∧ (∀ s, s ∈ DocumentProcessor.sentences_of text →
       ∃ c, c ∈ DocumentProcessor._split_text_into_chunks self text ∧ infix s c).
Proof.
  intros Hoverlap. split.
  - intros c Hc.
    pose proof (chunks_within_bound self text Hoverlap) as Hall.
    by apply (proj1 (Forall_forall _ _) Hall).
  - apply sentences_whole.
Qed.

(** The default sizes on a text of two chunks. *)
Lemma chunk_size_is_a_soft_target_witness :
  (DocumentProcessor.chunk_overlap DocumentProcessor.defaults
   < DocumentProcessor.chunk_size DocumentProcessor.defaults)%Z
  ∧ ∀ c, c ∈ DocumentProcessor._split_text_into_chunks DocumentProcessor.defaults
               Fixtures.long_then_next →
      ∃ s, s ∈ DocumentProcessor.sentences_of Fixtures.long_then_next
           ∧ s `suffix_of` c
           ∧ ((len c <= 800 + len s)%Z ∨ (c = s ∧ (800 < len c)%Z)).
Proof.
  assert (DocumentProcessor.chunk_overlap DocumentProcessor.defaults
          < DocumentProcessor.chunk_size DocumentProcessor.defaults)%Z as H
    by (simpl; lia).
  split; [exact H|].
  apply (chunk_size_is_a_soft_target DocumentProcessor.defaults
           Fixtures.long_then_next H).
Defined.

Lemma suffix_is_drop {A} (x l : list A) :
  x `suffix_of` l → x = drop (length l - length x) l.
Proof.
  intros [k ->]. rewrite length_app.
  replace (length k + length x - length x)%nat with (length k) by lia.
  by rewrite drop_app_length.
Qed.

(** C7, as stated, fails without any sentence boundary in the overlap
    window.  With the default sizes, the first chunk of
    [long_then_next] has 800 characters, its last 100 characters begin
    with a space and hold no sentence boundary, and the second chunk
    begins with the 99 characters after that space: no text of 100 or
    more characters ends the first chunk and begins the second. *)
Lemma overlap_shorter_than_overlap_size :
  DocumentProcessor._split_text_into_chunks DocumentProcessor.defaults
    Fixtures.long_then_next = [Fixtures.long_sentence; Fixtures.next_chunk]
  ∧ len Fixtures.long_sentence = 800%Z
  ∧ ¬ DocumentProcessor.snapped DocumentProcessor.defaults Fixtures.long_sentence
  ∧ ¬ ∃ x, x `suffix_of` Fixtures.long_sentence
           ∧ x `prefix_of` Fixtures.next_chunk
           ∧ (Z.min 100 (len Fixtures.long_sentence) <= len x)%Z.
Proof.
  split; [by vm_compute|]. split; [by vm_compute|]. split.
  - intros [_ H]. vm_compute in H. lia.
  - intros (x & Hsuf & Hpre & Hlen).
    assert (len Fixtures.long_sentence = 800%Z) as H800 by (by vm_compute).
    assert (length Fixtures.long_sentence = 800%nat) as H800' by (by vm_compute).
    assert (length Fixtures.next_chunk = 105%nat) as H105 by (by vm_compute).
    apply prefix_length in Hpre as Hle. rewrite H105 in Hle.
    rewrite H800 in Hlen. unfold len in Hlen.
    apply suffix_is_drop in Hsuf. rewrite H800' in Hsuf.
    assert (Forall (fun n => ¬ drop (800 - n) Fixtures.long_sentence
                               `prefix_of` Fixtures.next_chunk)
              (seq 100 6)) as Hall.
    { apply (bool_decide_unpack _). vm_compute. exact I. }
    apply (proj1 (Forall_forall _ _) Hall (length x)).
    + apply elem_of_seq. lia.
    + by rewrite <- Hsuf.
Qed.

(** C7, as amended.  Two consecutive chunks of a page region come from
    two buffers: the earlier chunk is its buffer stripped, and the later
    chunk is the stripped text made of the overlap text of the earlier
    buffer, a space and further sentences.  The overlap text without its
    leading whitespace ends the earlier chunk and begins the later one.
    Before its leading whitespace is removed, the overlap text has at
    least [min (overlap_size, len (earlier))] characters, unless it was
    cut at a sentence boundary inside the overlap window. *)
Theorem consecutive_chunks_overlap
    (self : DocumentProcessor.t) (text : str) (i : nat) (earlier later : str) :
  DocumentProcessor._split_text_into_chunks self text !! i = Some earlier →
  DocumentProcessor._split_text_into_chunks self text !! S i = Some later →
  ∃ buffer rest,
    let overlap_text := DocumentProcessor._get_overlap_text self buffer in
    earlier = strip buffer
    ∧ ends_nonspace buffer
    ∧ ends_nonspace rest
    ∧ later = strip (overlap_text ++ py " " ++ rest)
    ∧ lstrip overlap_text `suffix_of` earlier
    ∧ lstrip overlap_text `prefix_of` later
    ∧ (¬ DocumentProcessor.snapped self buffer →
       (Z.min (DocumentProcessor.chunk_overlap self) (len earlier)
        <= len overlap_text)%Z).
Proof.
  intros Hi HSi.
  destruct (chunks_seeded self text i earlier later Hi HSi) as (B & rest & Hseed).
  exists B, rest. cbv zeta.
  destruct (seeded_shared self B rest earlier later Hseed) as (Hsuf & Hpre & Hmin).
  destruct Hseed as (HE & HB & Hrest & HL). done.
Qed.

(** The two chunks of [long_then_next] with the default sizes. *)
Lemma consecutive_chunks_overlap_witness :
  ∃ buffer rest,
    Fixtures.long_sentence = strip buffer
    ∧ ends_nonspace buffer
    ∧ Fixtures.next_chunk
      = strip (DocumentProcessor._get_overlap_text DocumentProcessor.defaults buffer
               ++ py " " ++ rest)
    ∧ lstrip (DocumentProcessor._get_overlap_text DocumentProcessor.defaults buffer)
        `prefix_of` Fixtures.next_chunk.
Proof.
  destruct (consecutive_chunks_overlap DocumentProcessor.defaults
              Fixtures.long_then_next 0 Fixtures.long_sentence Fixtures.next_chunk)
    as (buffer & rest & HE & HB & _ & HL & _ & Hpre & _).
  - vm_compute. reflexivity.
  - vm_compute. reflexivity.
  - by exists buffer, rest.
Defined.

(** * Further properties of the store *)

(** ** Insertion, continued *)
Section Appending.
Import DocumentProcessor.
Variable uuid4 : nat -> str.

Lemma new_entries_contents (docs : list Chunk) : ∀ n,
  doc_content <$> new_entries uuid4 n docs
  = content <$> filter (fun d => valid d = true) docs.
Proof.
  induction docs as [|doc docs IH]; intros n; simpl; [done|].
  rewrite filter_cons. destruct (valid doc) eqn:Hv.
  - rewrite decide_True by done. simpl. by rewrite IH.
  - rewrite decide_False by done. apply IH.
Qed.

Lemma new_entries_metadata (docs : list Chunk) : ∀ n,
  doc_metadata <$> new_entries uuid4 n docs
  = metadata <$> filter (fun d => valid d = true) docs.
Proof.
  induction docs as [|doc docs IH]; intros n; simpl; [done|].
  rewrite filter_cons. destruct (valid doc) eqn:Hv.
  - rewrite decide_True by done. simpl. by rewrite IH.
  - rewrite decide_False by done. apply IH.
Qed.

Lemma new_entries_length (docs : list Chunk) (n : nat) :
  length (new_entries uuid4 n docs) = length (filter (fun d => valid d = true) docs).
Proof.
  rewrite <- (length_fmap doc_content), new_entries_contents. apply length_fmap.
Qed.

Lemma vocab_of_app (es1 es2 : list DocEntry) :
  vocab_of (es1 ++ es2) = vocab_of es1 ∪ vocab_of es2.
Proof.
  unfold vocab_of. rewrite fmap_app. apply union_list_app_L.
Qed.

(** X1.  [add_documents] only appends: the documents stored before stay
    where they were, the store grows by the chunks of the batch whose
    content is not blank, in the order of the batch and with their
    content and metadata, and [True] is returned exactly when the batch
    holds such a chunk. *)
Theorem add_documents_appends (self : VectorStore.t) (disk : Disk) (docs : list Chunk) :
  let r := add_documents uuid4 self disk docs in
  let kept := filter (fun d => valid d = true) docs in
  let added := drop (length (documents self)) (documents r.1.2) in
  take (length (documents self)) (documents r.1.2) = documents self
  ∧ get_collection_size r.1.2 = (get_collection_size self + len kept)%Z
  ∧ doc_content <$> added = content <$> kept
  ∧ doc_metadata <$> added = metadata <$> kept
  ∧ (r.1.1 = true ↔ ∃ d, d ∈ docs ∧ strip (content d) ≠ []).
Proof.
  cbv zeta. rewrite add_documents_eq. cbv zeta.
  pose proof (new_entries_length docs 0) as Hlen.
  pose proof (new_entries_contents docs 0) as Hcont.
  pose proof (new_entries_metadata docs 0) as Hmeta.
  assert ((∃ d, d ∈ docs ∧ strip (content d) ≠ [])
          ↔ filter (fun d => valid d = true) docs ≠ []) as Hex.
  { split.
    - intros (d & Hd & Hne) Hnil.
      assert (d ∈ filter (fun d => valid d = true) docs) as Hin.
      { apply list_elem_of_filter. split; [|done]. by apply truthy_true. }
      rewrite Hnil in Hin. by apply elem_of_nil in Hin.
    - destruct (filter _ docs) as [|d ds] eqn:Hf; [done|]. intros _.
      assert (d ∈ filter (fun d => valid d = true) docs) as Hin
        by (rewrite Hf; apply list_elem_of_here).
      apply list_elem_of_filter in Hin as [Hv Hin].
      exists d. split; [done|]. by apply truthy_true. }
  destruct (new_entries uuid4 0 docs) as [|e es] eqn:He; cbn -[filter].
  - destruct (filter _ docs) as [|d ds] eqn:Hf; [|done].
    rewrite take_ge, drop_ge by lia. unfold get_collection_size, len. simpl.
    split; [done|]. split; [lia|]. split; [done|]. split; [done|].
    rewrite Hex. split; [done|]. by intros [].
  - rewrite take_app_length, drop_app_length.
    unfold get_collection_size, len, grown. cbn [documents].
    rewrite length_app, Hlen.
    split; [done|]. split; [lia|]. split; [done|]. split; [done|].
    rewrite Hex. split; [|done]. intros _ Hnil. by rewrite Hnil in Hlen.
Qed.

End Appending.

(** ** The invariant of the store *)
Section Consistency.
Import DocumentProcessor.

Lemma doc_freq_positive (docs : list DocEntry) (t : str) :
  doc_freq docs t ≠ 0%nat ↔ ∃ d, d ∈ docs ∧ t ∈ _tokenize (doc_content d).
Proof.
  unfold doc_freq. split.
  - destruct (filter _ docs) as [|d ds] eqn:Hf; [done|]. intros _.
    assert (d ∈ filter (fun d => t ∈ _tokenize (doc_content d)) docs) as Hin
      by (rewrite Hf; apply list_elem_of_here).
    apply list_elem_of_filter in Hin as [Ht Hin]. by exists d.
  - intros (d & Hd & Ht) Hz.
    assert (d ∈ filter (fun d => t ∈ _tokenize (doc_content d)) docs) as Hin
      by (by apply list_elem_of_filter).
    destruct (filter _ docs); [by apply elem_of_nil in Hin|done].
Qed.

Lemma doc_freq_le (docs : list DocEntry) (t : str) :
  (doc_freq docs t <= length docs)%nat.
Proof. apply length_filter. Qed.

Lemma elem_of_vocab_of (docs : list DocEntry) (t : str) :
  t ∈ vocab_of docs ↔ ∃ d, d ∈ docs ∧ t ∈ tokens d.
Proof.
  unfold vocab_of. rewrite elem_of_union_list. split.
  - intros (X & HX & Ht). apply list_elem_of_fmap in HX as (d & -> & Hd).
    exists d. split; [done|]. by apply elem_of_list_to_set in Ht.
  - intros (d & Hd & Ht). exists (list_to_set (tokens d)). split.
    + apply list_elem_of_fmap. by exists d.
    + by apply elem_of_list_to_set.
Qed.

(** In a state whose stored tokens are those of the contents, the terms
    of the table of weights are the vocabulary of the documents. *)
Lemma idf_table_dom (docs : list DocEntry) :
  Forall (fun d => tokens d = _tokenize (doc_content d)) docs →
  dom (idf_table docs) = vocab_of docs.
Proof.
  intros Htok. apply set_eq. intros t.
  rewrite elem_of_dom, idf_table_lookup, elem_of_vocab_of.
  destruct (decide (doc_freq docs t = 0%nat)) as [Hz|Hnz].
  - split; [by intros []|]. intros (d & Hd & Ht). exfalso.
    apply (proj2 (doc_freq_positive docs t)); [|done].
    exists d. split; [done|].
    by rewrite <- (proj1 (Forall_forall _ _) Htok d Hd).
  - split; [|by eexists]. intros _.
    apply doc_freq_positive in Hnz as (d & Hd & Ht). exists d. split; [done|].
    by rewrite (proj1 (Forall_forall _ _) Htok d Hd).
Qed.

Lemma consistent_empty : consistent VectorStore.empty.
Proof. split; [constructor|]. split; [done|]. done. Qed.

Lemma consistent_grown (self : VectorStore.t) (es : list DocEntry) :
  consistent self →
  Forall (fun d => tokens d = _tokenize (doc_content d)) es →
  consistent (grown self es).
Proof.
  intros (Htok & Hvoc & Hidf) Hes. split; [|split]; simpl.
  - apply Forall_app. by split.
  - by rewrite Hvoc, vocab_of_app.
  - done.
Qed.

End Consistency.

(** X2.  The empty store is consistent, and [add_documents],
    [clear_collection] and [delete_collection] keep a store consistent:
    the stored tokens are those of the contents, the vocabulary is the
    set of all stored tokens and the table of weights is the one of the
    stored documents.  In a consistent store the terms that have a
    weight are exactly the vocabulary. *)
Theorem store_stays_consistent
    (uuid4 : nat -> str) (self : VectorStore.t) (disk : Disk)
    (docs : list DocumentProcessor.Chunk) (remove_ok : bool) :
  consistent VectorStore.empty
  ∧ (consistent self →
       consistent (add_documents uuid4 self disk docs).1.2
       ∧ consistent (clear_collection self disk).1.2
       ∧ consistent (delete_collection remove_ok self disk).1.2
       ∧ dom (idf_scores self) = vocabulary self).
Proof.
  split; [apply consistent_empty|]. intros Hc. split; [|split; [|split]].
  - rewrite add_documents_eq. cbv zeta.
    destruct (truthy (new_entries uuid4 0 docs)); [|done].
    apply consistent_grown; [done|apply new_entries_tokens].
  - apply consistent_empty.
  - unfold delete_collection.
    destruct (file disk); [apply consistent_empty| |];
      (destruct remove_ok; [apply consistent_empty|done]).
  - destruct Hc as (Htok & -> & ->). by apply idf_table_dom.
Qed.

(** The store of two chunks is consistent. *)
Lemma store_stays_consistent_witness :
  consistent Fixtures.two_store
  ∧ dom (idf_scores Fixtures.two_store) = vocabulary Fixtures.two_store.
Proof.
  destruct (store_stays_consistent Fixtures.uuid0 VectorStore.empty Fixtures.good_disk
              [Fixtures.ppe_chunk; Fixtures.bridge_chunk] true) as [Hempty Hstep].
  destruct (Hstep Hempty) as (Hc & _).
  split; [exact Hc|].
  destruct (store_stays_consistent Fixtures.uuid0 Fixtures.two_store Fixtures.good_disk
              [] true) as [_ Hstep'].
  destruct (Hstep' Hc) as (_ & _ & _ & Hdom). exact Hdom.
Defined.

(** ** The weights *)
Section WeightSigns.

Lemma INR_pos_of_nonzero (n : nat) : n ≠ 0%nat → (0 < INR n)%R.
Proof. intros Hn. apply lt_0_INR. lia. Qed.

Lemma ln_ratio_sign (n k : nat) :
  k ≠ 0%nat → (k <= n)%nat →
  (0 <= ln (INR n / INR k))%R ∧ (ln (INR n / INR k) = 0%R ↔ k = n).
Proof.
  intros Hk Hle. pose proof (INR_pos_of_nonzero k Hk) as Hkpos.
  destruct (decide (k = n)) as [->|Hne].
  - rewrite Rdiv_diag by lra. rewrite ln_1. split; [lra|done].
  - assert (k < n)%nat as Hlt by lia. apply lt_INR in Hlt.
    assert (1 < INR n / INR k)%R as Hgt.
    { apply (Rmult_lt_reg_r (INR k)); [done|].
      unfold Rdiv. rewrite Rmult_assoc, Rinv_l by lra. lra. }
    pose proof (ln_increasing 1 (INR n / INR k) ltac:(lra) Hgt) as Hln.
    rewrite ln_1 in Hln. split; [lra|]. split; [lra|done].
Qed.

End WeightSigns.

(** X3.  In a consistent store, and so after every [add_documents], no
    weight of [idf_scores] is negative, and a term has weight 0 exactly
    when it occurs in every stored document. *)
Theorem idf_weights_nonnegative (self : VectorStore.t) (term : str) (w : R) :
  consistent self →
  idf_scores self !! term = Some w →
  (0 <= w)%R
  ∧ (w = 0%R ↔ doc_freq (documents self) term = length (documents self)).
Proof.
  intros (_ & _ & ->). rewrite idf_table_lookup.
  destruct (decide (doc_freq (documents self) term = 0%nat)) as [|Hnz]; [done|].
  intros [= <-]. apply ln_ratio_sign; [done|apply doc_freq_le].
Qed.

(** In the store of two chunks the weight of ["ppe"] is not negative. *)
Lemma idf_weights_nonnegative_witness :
  ∃ w, idf_scores Fixtures.two_store !! py "ppe" = Some w ∧ (0 <= w)%R.
Proof.
  assert (consistent Fixtures.two_store) as Hc.
  { split; [|split].
    - apply (bool_decide_unpack _). vm_compute. exact I.
    - apply (bool_decide_unpack _). vm_compute. exact I.
    - reflexivity. }
  assert (is_Some (idf_scores Fixtures.two_store !! py "ppe")) as [w Hw].
  { destruct Hc as (_ & _ & ->). rewrite idf_table_lookup.
    rewrite decide_False; [by eexists|]. vm_compute. discriminate. }
  exists w. split; [exact Hw|].
  apply (idf_weights_nonnegative Fixtures.two_store (py "ppe") w Hc Hw).
Defined.

(** ** Restarting the store *)
Section Restart.
Import DocumentProcessor.

Lemma init_snapshot_of (self : VectorStore.t) (w : WriteOutcome) :
  init {| file := Snapshot (snapshot_of self); write := w |} = self.
Proof. apply load_snapshot_of. Qed.

(** A restart after [_save_data], for each way in which the write ends. *)
Lemma init_after_save (self saved : VectorStore.t) (disk : Disk) :
  (write disk = Written → dumpable self = true → init (_save_data self disk) = self)
  ∧ (write disk = OpenRaises → file disk = Snapshot (snapshot_of saved) →
     _save_data self disk = disk ∧ init (_save_data self disk) = saved)
  ∧ (write disk = WriteRaises ∨ (write disk = Written ∧ dumpable self = false) →
     file (_save_data self disk) = Unreadable
     ∧ init (_save_data self disk) = VectorStore.empty).
Proof.
  unfold _save_data. split; [|split].
  - intros -> ->. apply init_snapshot_of.
  - intros -> Hf. split; [reflexivity|].
    destruct disk as [f w]. simpl in *. subst f. apply init_snapshot_of.
  - intros [->|[-> ->]]; split; reflexivity.
Qed.

Lemma search_by_metadata_empty (metadata_filter : pydict) (top_k : Z) :
  search_by_metadata VectorStore.empty metadata_filter top_k = [].
Proof. unfold search_by_metadata. simpl. apply slice_to_nil. Qed.

End Restart.

(** X4.  [clear_collection] always returns [True] and leaves an empty
    store, for which every search returns nothing; a failure to write is
    not reported.  When the write succeeds the file holds the empty
    state.  When a write fails after the file was opened, the file is
    left truncated; a restart cannot load it and starts empty.  When the
    file cannot be opened for writing it is left as it was, and a
    restart brings back the state that was saved last. *)
Theorem clear_collection_outcome (self saved : VectorStore.t) (disk : Disk) :
  let r := clear_collection self disk in
  r.1.1 = true
  ∧ get_collection_size r.1.2 = 0%Z
  ∧ (∀ query top_k, similarity_search r.1.2 query top_k = [])
  ∧ (∀ metadata_filter top_k, search_by_metadata r.1.2 metadata_filter top_k = [])
  ∧ (write disk = Written →
     file r.2 = Snapshot (snapshot_of VectorStore.empty)
     ∧ init r.2 = VectorStore.empty)
  ∧ (write disk = WriteRaises →
     file r.2 = Unreadable ∧ init r.2 = VectorStore.empty)
  ∧ (write disk = OpenRaises →
     r.2 = disk
     ∧ (dumpable saved = true → file disk = Snapshot (snapshot_of saved) →
        init r.2 = saved)).
Proof.
  cbv zeta. unfold clear_collection. cbn [fst snd].
  split; [done|]. split; [done|]. split.
  { intros query top_k. unfold similarity_search. cbn [documents VectorStore.empty truthy negb].
    by destruct (negb (truthy (strip query))). }
  split; [apply search_by_metadata_empty|].
  destruct (init_after_save VectorStore.empty saved disk) as (Hwritten & Hopen & Hraises).
  split; [|split].
  - intros Hw. split; [|by apply Hwritten].
    unfold _save_data. by rewrite Hw.
  - intros Hw. apply Hraises. by left.
  - intros Hw. split; [unfold _save_data; by rewrite Hw|].
    intros _ Hf. by apply Hopen.
Qed.

(** Clearing the store of two chunks on a disk that cannot be opened for
    writing and that holds the snapshot of the store of scenario 1. *)
Lemma clear_collection_outcome_witness :
  let disk := {| file := Snapshot (snapshot_of Fixtures.ppe_store); write := OpenRaises |} in
  init (clear_collection Fixtures.two_store disk).2 = Fixtures.ppe_store.
Proof.
  cbv zeta.
  apply (clear_collection_outcome Fixtures.two_store Fixtures.ppe_store
           {| file := Snapshot (snapshot_of Fixtures.ppe_store); write := OpenRaises |});
    reflexivity.
Defined.

(** X5.  [delete_collection] returns [False] and changes nothing when a
    snapshot file exists and cannot be removed.  In every other case it
    returns [True], the store is empty, no snapshot file is left and a
    restart finds the empty store. *)
Theorem delete_collection_outcome
    (remove_ok : bool) (self : VectorStore.t) (disk : Disk) :
  let r := delete_collection remove_ok self disk in
  (file disk ≠ Missing → remove_ok = false → r = (false, self, disk))
  ∧ (file disk = Missing ∨ remove_ok = true →
       r.1.1 = true
       ∧ r.1.2 = VectorStore.empty
       ∧ file r.2 = Missing
       ∧ write r.2 = write disk
       ∧ init r.2 = VectorStore.empty).
Proof.
  cbv zeta. unfold delete_collection. split.
  - intros Hf ->. by destruct (file disk).
  - assert (init disk = VectorStore.empty ∨ file disk ≠ Missing) as Hinit.
    { unfold init, _load_data. destruct (file disk); [by left|by right..]. }
    intros [Hf| ->].
    + rewrite Hf. destruct Hinit as [Hinit|Hne]; done.
    + destruct (file disk) eqn:Hf; cbn [fst snd file write];
        repeat split; try done; destruct Hinit as [Hinit|Hne]; done.
Qed.

(** A snapshot that cannot be removed, and one that can. *)
Lemma delete_collection_outcome_witness :
  let disk := {| file := Snapshot (snapshot_of Fixtures.ppe_store); write := Written |} in
  delete_collection false Fixtures.ppe_store disk = (false, Fixtures.ppe_store, disk)
  ∧ (delete_collection true Fixtures.ppe_store disk).1.2 = VectorStore.empty.
Proof.
  cbv zeta. split.
  - apply (delete_collection_outcome false Fixtures.ppe_store
             {| file := Snapshot (snapshot_of Fixtures.ppe_store); write := Written |});
      [discriminate|reflexivity].
  - apply (delete_collection_outcome true Fixtures.ppe_store
             {| file := Snapshot (snapshot_of Fixtures.ppe_store); write := Written |}).
    right. reflexivity.
Defined.

(** X6.  After a call of [add_documents] that returns [True], a restart
    finds the state of the store when the snapshot was written.  When
    the file could not be opened for writing, a restart finds the state
    that was saved last, without the chunks of the call.  When a write
    failed after the file was opened, for the file system or for an
    integer of the metadata beyond the limit of digits, the file is left
    truncated and a restart finds an empty store: what was saved last is
    lost as well.  After a call that returns [False] the file is as it
    was. *)
Theorem add_documents_restart
    (uuid4 : nat -> str) (self saved : VectorStore.t) (disk : Disk)
    (docs : list DocumentProcessor.Chunk) :
  let r := add_documents uuid4 self disk docs in
  (r.1.1 = true → write disk = Written → dumpable r.1.2 = true → init r.2 = r.1.2)
  ∧ (r.1.1 = true → write disk = OpenRaises → dumpable saved = true →
     file disk = Snapshot (snapshot_of saved) → init r.2 = saved)
  ∧ (r.1.1 = true →
     write disk = WriteRaises ∨ (write disk = Written ∧ dumpable r.1.2 = false) →
     file r.2 = Unreadable ∧ init r.2 = VectorStore.empty)
  ∧ (r.1.1 = false → r.2 = disk).
Proof.
  cbv zeta. rewrite add_documents_eq. cbv zeta.
  destruct (truthy (new_entries uuid4 0 docs)); cbn [fst snd].
  - destruct (init_after_save (grown self (new_entries uuid4 0 docs)) saved disk)
      as (Hwritten & Hopen & Hraises).
    split; [|split; [|split; [|done]]]; intros _.
    + exact Hwritten.
    + intros Hw _ Hf. by apply Hopen.
    + exact Hraises.
  - done.
Qed.

(** The chunk of scenario 1 added on a disk that can be written. *)
Lemma add_documents_restart_witness :
  init (add_documents Fixtures.uuid0 VectorStore.empty Fixtures.good_disk
          [Fixtures.ppe_chunk]).2 = Fixtures.ppe_store.
Proof.
  apply (add_documents_restart Fixtures.uuid0 VectorStore.empty VectorStore.empty
           Fixtures.good_disk [Fixtures.ppe_chunk]); reflexivity.
Defined.

(** ** Search by metadata *)
Section MetadataSearch.
Import DocumentProcessor.

Lemma metadata_matches_spec (metadata metadata_filter : pydict) :
  metadata_matches metadata metadata_filter = true
  ↔ ∀ key value, (key, value) ∈ metadata_filter → dict_get metadata key = Some value.
Proof.
  unfold metadata_matches. induction metadata_filter as [|[k v] f IH]; simpl.
  - split; [|done]. intros _ key value Hin. by apply elem_of_nil in Hin.
  - rewrite andb_true_iff, IH. split.
    + intros [Hk Hf] key value [Heq|Hin]%elem_of_cons; [|by apply Hf].
      simplify_eq. destruct (dict_get metadata k) as [v'|]; [|done].
      by apply bool_decide_eq_true in Hk as ->.
    + intros Hall. split.
      * rewrite (Hall k v) by apply list_elem_of_here. by apply bool_decide_eq_true.
      * intros key value Hin. apply Hall. by apply list_elem_of_further.
Qed.

Lemma slice_to_all {A} (k : Z) (l : list A) : (len l <= k)%Z → slice_to k l = l.
Proof.
  intros Hk. unfold slice_to, len in *.
  destruct (0 <=? k)%Z eqn:H0; [|apply Z.leb_gt in H0; lia].
  apply take_ge. lia.
Qed.

End MetadataSearch.

(** X7.  Every result of [search_by_metadata] has score 1 and carries the
    content and the metadata of a stored document that has, for each key
    of the filter, the value of the filter; the results are the first
    matching documents in the order of insertion, at most [top_k] of them
    when [top_k] is not negative; a limit of at least the size of the
    store returns every matching document. *)
Theorem search_by_metadata_results
    (self : VectorStore.t) (metadata_filter : DocumentProcessor.pydict) (top_k : Z) :
  let results := search_by_metadata self metadata_filter top_k in
  let satisfies (doc : DocEntry) :=
    ∀ key value, (key, value) ∈ metadata_filter →
                 DocumentProcessor.dict_get (doc_metadata doc) key = Some value in
  (∀ r, r ∈ results →
     score r = 1%R
     ∧ ∃ doc, doc ∈ documents self ∧ satisfies doc
              ∧ res_content r = doc_content doc
              ∧ res_metadata r = doc_metadata doc)
  ∧ results `prefix_of`
      (fun doc => {| res_content := doc_content doc;
                     res_metadata := doc_metadata doc;
                     score := 1%R |})
        <$> filter (fun doc => metadata_matches (doc_metadata doc) metadata_filter = true)
                   (documents self)
  ∧ ((0 <= top_k)%Z → (len results <= top_k)%Z)
  ∧ ((get_collection_size self <= top_k)%Z →
     ∀ doc, doc ∈ documents self → satisfies doc →
            {| res_content := doc_content doc;
               res_metadata := doc_metadata doc;
               score := 1%R |} ∈ results).
Proof.
  cbv zeta. unfold search_by_metadata. cbv zeta.
  set (mk := fun doc => {| res_content := doc_content doc;
                           res_metadata := doc_metadata doc; score := 1%R |}).
  set (matching := filter _ (documents self)).
  split; [|split; [|split]].
  - intros r Hr.
    assert (r ∈ mk <$> matching) as Hin
      by (eapply elem_of_prefix; [exact Hr|apply slice_to_prefix]).
    apply list_elem_of_fmap in Hin as (doc & -> & Hdoc).
    apply list_elem_of_filter in Hdoc as [Hm Hdoc].
    split; [done|]. exists doc. split; [done|]. split; [|done].
    by apply metadata_matches_spec.
  - apply slice_to_prefix.
  - apply slice_to_length.
  - intros Hk doc Hdoc Hsat.
    rewrite slice_to_all.
    + apply list_elem_of_fmap. exists doc. split; [done|].
      apply list_elem_of_filter. split; [|done]. by apply metadata_matches_spec.
    + unfold len, get_collection_size in *. rewrite length_fmap.
      pose proof (length_filter
                    (fun doc => metadata_matches (doc_metadata doc) metadata_filter = true)
                    (documents self)).
      fold matching in H. unfold len in Hk. lia.
Qed.

(** The chunks of page 1 in the store of two chunks. *)
Lemma search_by_metadata_results_witness :
  (len (search_by_metadata Fixtures.two_store
          [(py "page", DocumentProcessor.PyInt 1)] default_metadata_top_k)
   <= default_metadata_top_k)%Z
  ∧ {| res_content := doc_content Fixtures.bridge_entry;
       res_metadata := doc_metadata Fixtures.bridge_entry;
       score := 1%R |}
    ∈ search_by_metadata Fixtures.two_store
        [(py "page", DocumentProcessor.PyInt 1)] default_metadata_top_k.
Proof.
  destruct (search_by_metadata_results Fixtures.two_store
              [(py "page", DocumentProcessor.PyInt 1)] default_metadata_top_k)
    as (_ & _ & Hlen & Hall).
  split.
  - apply Hlen. vm_compute. discriminate.
  - apply Hall.
    + vm_compute. discriminate.
    + vm_compute. apply list_elem_of_further, list_elem_of_here.
    + intros key value Hin. apply list_elem_of_singleton in Hin.
      injection Hin as -> ->. reflexivity.
Defined.

(** ** Sums *)
Section Sums.

Lemma fold_left_Rplus_acc (xs : list R) (a : R) :
  fold_left Rplus xs a = (a + sum xs)%R.
Proof.
  unfold sum. revert a. induction xs as [|x xs IH]; intros a; simpl; [lra|].
  rewrite (IH (a + x)%R), (IH (0 + x)%R). lra.
Qed.

Lemma sum_cons (x : R) (xs : list R) : sum (x :: xs) = (x + sum xs)%R.
Proof. unfold sum at 1. simpl. rewrite fold_left_Rplus_acc. lra. Qed.

Lemma sum_nil : sum [] = 0%R.
Proof. done. Qed.

Lemma sum_perm (xs ys : list R) : xs ≡ₚ ys → sum xs = sum ys.
Proof.
  induction 1 as [|x xs ys _ IH|x y xs|xs ys zs _ IH1 _ IH2].
  - done.
  - by rewrite !sum_cons, IH.
  - rewrite !sum_cons. lra.
  - by rewrite IH1.
Qed.

Lemma sum_nonneg (xs : list R) : Forall (fun x => (0 <= x)%R) xs → (0 <= sum xs)%R.
Proof.
  induction 1 as [|x xs Hx _ IH]; [rewrite sum_nil; lra|].
  rewrite sum_cons. lra.
Qed.

Lemma sum_positive (xs : list R) :
  Forall (fun x => (0 <= x)%R) xs →
  (0 < sum xs)%R ↔ ∃ x, x ∈ xs ∧ (0 < x)%R.
Proof.
  induction 1 as [|x xs Hx Hxs IH].
  - rewrite sum_nil. split; [lra|]. intros (x & Hin & _). by apply elem_of_nil in Hin.
  - rewrite sum_cons. pose proof (sum_nonneg xs Hxs) as Hs. split.
    + intros Hpos. destruct (Rle_lt_dec x 0) as [Hle|Hlt].
      * destruct (proj1 IH ltac:(lra)) as (y & Hy & Hypos).
        exists y. split; [by apply list_elem_of_further|done].
      * exists x. split; [apply list_elem_of_here|done].
    + intros (y & [->|Hy]%elem_of_cons & Hypos); [lra|].
      assert (0 < sum xs)%R by (apply IH; by exists y). lra.
Qed.

(** The sum of [f] over the values of a dictionary is the sum over any
    list of distinct keys that holds its keys, when [f 0 = 0]. *)
Lemma sum_over_keys (f : R → R) (keys : list str) :
  f 0%R = 0%R → NoDup keys →
  ∀ vec : gmap str R,
    (∀ t, t ∈ dom vec → t ∈ keys) →
    sum ((fun t => f (get0 vec t)) <$> keys) = sum (f <$> values vec).
Proof.
  intros Hf0 Hnd vec. induction vec as [|k x m Hk IH] using map_ind; intros Hdom.
  - unfold values. rewrite map_to_list_empty. simpl.
    apply sum_zeros, Forall_forall. intros y Hy.
    apply list_elem_of_fmap in Hy as (t & -> & _).
    unfold get0. by rewrite lookup_empty.
  - assert (k ∈ keys) as Hin.
    { apply Hdom. apply elem_of_dom. rewrite lookup_insert_eq. by eexists. }
    apply elem_of_Permutation in Hin as [rest Hperm].
    assert ((k ∉ rest) ∧ NoDup rest) as [Hnotin Hnd'].
    { rewrite Hperm in Hnd. by apply NoDup_cons in Hnd. }
    assert (∀ vec' : gmap str R,
              sum ((fun t => f (get0 vec' t)) <$> keys)
              = (f (get0 vec' k) + sum ((fun t => f (get0 vec' t)) <$> rest))%R)
      as Hsplit.
    { intros vec'. rewrite (sum_perm _ ((fun t => f (get0 vec' t)) <$> k :: rest))
        by (by rewrite Hperm).
      by rewrite fmap_cons, sum_cons. }
    rewrite Hsplit.
    assert ((fun t => f (get0 (<[k:=x]> m) t)) <$> rest
            = (fun t => f (get0 m t)) <$> rest) as ->.
    { apply list_fmap_ext. intros i t Ht. unfold get0.
      rewrite lookup_insert_ne; [done|]. intros <-.
      apply Hnotin. by apply list_elem_of_lookup_2 in Ht. }
    assert (sum (f <$> values (<[k:=x]> m)) = (f x + sum (f <$> values m))%R) as ->.
    { unfold values.
      rewrite (sum_perm _ (f <$> ((k, x) :: map_to_list m).*2)).
      - by rewrite !fmap_cons, sum_cons.
      - by rewrite (map_to_list_insert m k x Hk). }
    rewrite <- IH.
    + rewrite Hsplit. unfold get0 at 1 3.
      rewrite lookup_insert_eq, Hk. simpl. rewrite Hf0. lra.
    + intros t Ht. apply Hdom. rewrite dom_insert. set_solver.
Qed.

(** The inequality of Cauchy and Schwarz over a list of keys. *)
Lemma cauchy_schwarz (a b : str → R) (keys : list str) :
  ((sum ((fun t => a t * b t) <$> keys)) ^ 2
   <= sum ((fun t => a t ^ 2) <$> keys) * sum ((fun t => b t ^ 2) <$> keys))%R
  ∧ (0 <= sum ((fun t => a t ^ 2) <$> keys))%R
  ∧ (0 <= sum ((fun t => b t ^ 2) <$> keys))%R.
Proof.
  induction keys as [|t keys (IH & HA & HB)].
  - rewrite !fmap_nil, !sum_nil. lra.
  - rewrite !fmap_cons, !sum_cons.
    set (C := sum ((fun t => a t * b t)%R <$> keys)) in *.
    set (A := sum ((fun t => a t ^ 2)%R <$> keys)) in *.
    set (B := sum ((fun t => b t ^ 2)%R <$> keys)) in *.
    pose proof (pow2_ge_0 (a t)) as Ha. pose proof (pow2_ge_0 (b t)) as Hb.
    split; [|lra].
    assert (0 <= A * b t ^ 2)%R as HAb by (by apply Rmult_le_pos).
    assert (0 <= B * a t ^ 2)%R as HBa by (by apply Rmult_le_pos).
    assert (2 * (a t * b t) * C <= A * b t ^ 2 + B * a t ^ 2)%R as Hmix.
    { apply Rnot_lt_le. intros Hlt.
      set (X := (A * b t ^ 2 + B * a t ^ 2)%R) in *.
      set (Y := (2 * (a t * b t) * C)%R) in *.
      assert (0 <= X)%R as HX0 by (unfold X; lra).
      assert (X ^ 2 = (A * b t ^ 2 - B * a t ^ 2) ^ 2
                      + 4 * ((a t * b t) ^ 2 * (A * B)))%R as HX
        by (unfold X; ring).
      assert (Y ^ 2 = 4 * ((a t * b t) ^ 2 * C ^ 2))%R as HY by (unfold Y; ring).
      assert (0 <= (A * b t ^ 2 - B * a t ^ 2) ^ 2)%R as Hd by apply pow2_ge_0.
      assert ((a t * b t) ^ 2 * C ^ 2 <= (a t * b t) ^ 2 * (A * B))%R as Hc.
      { apply Rmult_le_compat_l; [apply pow2_ge_0|done]. }
      clearbody X Y.
      assert (X ^ 2 < Y ^ 2)%R as Hsq by nra.
      lra. }
    replace ((a t * b t + C) ^ 2)%R
      with (C ^ 2 + 2 * (a t * b t) * C + a t ^ 2 * b t ^ 2)%R by ring.
    replace ((a t ^ 2 + A) * (b t ^ 2 + B))%R
      with (A * B + (A * b t ^ 2 + B * a t ^ 2) + a t ^ 2 * b t ^ 2)%R by ring.
    lra.
Qed.

End Sums.

(** ** Cosine similarity, continued *)
Section CosineBounds.

Lemma Reqb_false (x y : R) : Reqb x y = false → x ≠ y.
Proof. unfold Reqb. by destruct (Req_dec_T x y). Qed.

Lemma dom_in_union_elements_l (vec1 vec2 : gmap str R) (t : str) :
  t ∈ dom vec1 → t ∈ elements (dom vec1 ∪ dom vec2).
Proof. intros Ht. apply elem_of_elements. set_solver. Qed.

Lemma dom_in_union_elements_r (vec1 vec2 : gmap str R) (t : str) :
  t ∈ dom vec2 → t ∈ elements (dom vec1 ∪ dom vec2).
Proof. intros Ht. apply elem_of_elements. set_solver. Qed.

(** The square of the magnitude, as a sum over a list of keys. *)
Lemma magnitude_square (vec : gmap str R) (keys : list str) :
  NoDup keys → (∀ t, t ∈ dom vec → t ∈ keys) →
  (magnitude vec * magnitude vec)%R = sum ((fun t => get0 vec t ^ 2)%R <$> keys)
  ∧ (0 <= magnitude vec)%R.
Proof.
  intros Hnd Hdom. unfold magnitude.
  pose proof (sum_over_keys (fun x => x ^ 2)%R keys ltac:(simpl; lra) Hnd vec Hdom)
    as Hkeys.
  change (map (fun val => (val ^ 2)%R) (values vec))
    with ((fun val => (val ^ 2)%R) <$> values vec).
  rewrite <- Hkeys. split; [|apply sqrt_pos].
  apply sqrt_sqrt. apply (cauchy_schwarz (get0 vec) (get0 vec) keys).
Qed.

Lemma cosine_unfold (vec1 vec2 : gmap str R) :
  _calculate_cosine_similarity vec1 vec2 = 0%R
  ∨ (magnitude vec1 ≠ 0%R ∧ magnitude vec2 ≠ 0%R
     ∧ _calculate_cosine_similarity vec1 vec2
       = (dot_product vec1 vec2 / (magnitude vec1 * magnitude vec2))%R).
Proof.
  unfold _calculate_cosine_similarity. cbv zeta.
  destruct (negb _); [by left|].
  destruct (Reqb (magnitude vec1) 0) eqn:H1; [by left|].
  destruct (Reqb (magnitude vec2) 0) eqn:H2; [by left|].
  right. split; [by apply Reqb_false|]. split; [by apply Reqb_false|done].
Qed.

End CosineBounds.

Section CosineCases.

(** With two magnitudes different from 0 the quotient is returned. *)
Lemma cosine_nonzero_magnitudes (vec1 vec2 : gmap str R) :
  magnitude vec1 ≠ 0%R → magnitude vec2 ≠ 0%R →
  _calculate_cosine_similarity vec1 vec2
  = (dot_product vec1 vec2 / (magnitude vec1 * magnitude vec2))%R.
Proof.
  intros Hm1 Hm2. unfold _calculate_cosine_similarity. cbv zeta.
  destruct (elements (dom vec1 ∪ dom vec2)) as [|k ks] eqn:Hk.
  - apply elements_empty_inv in Hk. apply leibniz_equiv in Hk.
    assert (dom vec1 = ∅) as Hd by set_solver.
    apply dom_empty_inv_L in Hd. subst vec1. by rewrite magnitude_zero in Hm1.
  - cbn [truthy negb]. unfold Reqb.
    destruct (Req_dec_T (magnitude vec1) 0); [done|].
    by destruct (Req_dec_T (magnitude vec2) 0).
Qed.

End CosineCases.

(** ** Which documents are retrieved *)
Section Retrieval.

Lemma counter_positive (l : list str) (t : str) : ∀ c : gmap str nat,
  t ∈ l ∨ (∃ n, c !! t = Some (S n)) → ∃ n, fold_left incr l c !! t = Some (S n).
Proof.
  induction l as [|k l IH]; intros c Hc; simpl.
  - destruct Hc as [Hin|Hc]; [by apply elem_of_nil in Hin|done].
  - apply IH. destruct (decide (k = t)) as [->|Hne].
    + right. rewrite incr_lookup, decide_True by done. by eexists.
    + destruct Hc as [Hin|Hc].
      * left. apply elem_of_cons in Hin as [->|Hin]; done.
      * right. by rewrite incr_lookup, decide_False.
Qed.

(** The frequency of a token of the list is positive. *)
Lemma tf_positive (toks : list str) (t : str) :
  t ∈ toks → (0 < get0 (_calculate_tf toks) t)%R.
Proof.
  intros Hin. unfold get0, _calculate_tf. cbv zeta. rewrite lookup_fmap.
  destruct (counter_positive toks t ∅ (or_introl Hin)) as [n Hn].
  unfold Counter. rewrite Hn. cbn [fmap option_fmap option_map default].
  assert (0 < INR (length toks))%R as Hlen.
  { apply lt_0_INR. destruct toks; [by apply elem_of_nil in Hin|simpl; lia]. }
  apply Rdiv_lt_0_compat; [|done].
  apply lt_0_INR. lia.
Qed.

(** The entries of a TF-IDF vector of a consistent store are not negative;
    the entry of a term is positive exactly when the term is one of the
    tokens, occurs in a stored document and does not occur in all. *)
Lemma tfidf_entry_sign (self : VectorStore.t) (toks : list str) (t : str) :
  consistent self →
  (0 <= get0 (_get_tfidf_vector self toks) t)%R
  ∧ ((0 < get0 (_get_tfidf_vector self toks) t)%R
     ↔ t ∈ toks
       ∧ (0 < doc_freq (documents self) t < length (documents self))%nat).
Proof.
  intros (_ & _ & Hidf). unfold get0 at 1 2. rewrite tfidf_lookup, Hidf.
  rewrite idf_table_lookup.
  destruct (decide (t ∈ toks)) as [Hin|Hnin]; simpl.
  2:{ split; [lra|]. split; [lra|]. by intros [? _]. }
  destruct (decide (doc_freq (documents self) t = 0%nat)) as [Hz|Hnz]; simpl.
  { split; [lra|]. split; [lra|]. intros [_ ?]. lia. }
  pose proof (tf_positive toks t Hin) as Htf.
  pose proof (doc_freq_le (documents self) t) as Hle.
  destruct (ln_ratio_sign (length (documents self)) (doc_freq (documents self) t)
              Hnz Hle) as [Hge Hzero].
  split; [nra|]. split.
  - intros Hpos. split; [done|].
    destruct (decide (doc_freq (documents self) t = length (documents self)))
      as [Heq|Hne]; [|lia].
    apply Hzero in Heq. rewrite Heq in Hpos. lra.
  - intros [_ Hlt].
    assert (ln (INR (length (documents self)) / INR (doc_freq (documents self) t))
            ≠ 0%R) as Hne by (rewrite Hzero; lia).
    nra.
Qed.

(** Two vectors without negative entries have a positive similarity
    exactly when some entry is positive in both. *)
Lemma cosine_positive (vec1 vec2 : gmap str R) :
  (∀ t, 0 <= get0 vec1 t)%R → (∀ t, 0 <= get0 vec2 t)%R →
  (0 < _calculate_cosine_similarity vec1 vec2)%R
  ↔ ∃ t, (0 < get0 vec1 t)%R ∧ (0 < get0 vec2 t)%R.
Proof.
  intros H1 H2.
  set (keys := elements (dom vec1 ∪ dom vec2)).
  assert (NoDup keys) as Hnd by apply NoDup_elements.
  destruct (magnitude_square vec1 keys Hnd (dom_in_union_elements_l vec1 vec2))
    as [HA Hm1].
  destruct (magnitude_square vec2 keys Hnd (dom_in_union_elements_r vec1 vec2))
    as [HB Hm2].
  assert ((0 < dot_product vec1 vec2)%R
          ↔ ∃ t, (0 < get0 vec1 t)%R ∧ (0 < get0 vec2 t)%R) as Hdot.
  { unfold dot_product. cbv zeta. fold keys.
    change (map ?f keys) with (f <$> keys).
    rewrite sum_positive.
    2:{ apply Forall_fmap, Forall_forall. intros t _. simpl.
        specialize (H1 t). specialize (H2 t). nra. }
    split.
    - intros (x & Hx & Hpos). apply list_elem_of_fmap in Hx as (t & -> & _).
      exists t. specialize (H1 t). specialize (H2 t). nra.
    - intros (t & Ht1 & Ht2). exists (get0 vec1 t * get0 vec2 t)%R.
      split; [|nra]. apply list_elem_of_fmap. exists t. split; [done|].
      apply dom_in_union_elements_l. apply elem_of_dom.
      unfold get0 in Ht1. destruct (vec1 !! t); [done|simpl in Ht1; lra]. }
  assert (∀ (vec : gmap str R) t, (∀ t, t ∈ dom vec → t ∈ keys) →
            (magnitude vec * magnitude vec)%R
            = sum ((fun t => get0 vec t ^ 2)%R <$> keys) →
            (0 < get0 vec t)%R → t ∈ keys → magnitude vec ≠ 0%R) as Hmag.
  { intros vec t Hdom Hsq Hpos Hin Hz. rewrite Hz in Hsq.
    assert (0 < sum ((fun t => get0 vec t ^ 2)%R <$> keys))%R as Hs; [|lra].
    apply sum_positive.
    - apply Forall_fmap, Forall_forall. intros u _. simpl. nra.
    - exists (get0 vec t ^ 2)%R. split; [|nra].
      apply list_elem_of_fmap. by exists t. }
  rewrite <- Hdot. split.
  - intros Hpos.
    destruct (cosine_unfold vec1 vec2) as [Hz|(Hn1 & Hn2 & Heq)]; [lra|].
    rewrite Heq in Hpos.
    assert (0 < magnitude vec1 * magnitude vec2)%R as HP by nra.
    pose proof (Rinv_0_lt_compat _ HP) as Hq. unfold Rdiv in Hpos.
    set (C := dot_product vec1 vec2) in *. set (q := (/ _)%R) in *.
    clearbody C q. nra.
  - intros Hpos. destruct (proj1 Hdot Hpos) as (t & Ht1 & Ht2).
    assert (t ∈ keys) as Hin.
    { apply dom_in_union_elements_l. apply elem_of_dom.
      unfold get0 in Ht1. destruct (vec1 !! t); [done|simpl in Ht1; lra]. }
    assert (magnitude vec1 ≠ 0%R) as Hn1.
    { apply (Hmag vec1 t); try done. apply dom_in_union_elements_l. }
    assert (magnitude vec2 ≠ 0%R) as Hn2.
    { apply (Hmag vec2 t); try done. apply dom_in_union_elements_r. }
    rewrite cosine_nonzero_magnitudes by done.
    apply Rdiv_lt_0_compat; [done|]. nra.
Qed.

(** The similarity computed for a stored document is positive exactly
    when the document shares with the query a token that does not occur
    in every stored document. *)
Lemma similarity_positive (self : VectorStore.t) (query_tokens : list str)
    (doc : DocEntry) :
  consistent self → doc ∈ documents self →
  (0 < similarity_of self (_get_tfidf_vector self query_tokens) doc)%R
  ↔ ∃ t, t ∈ query_tokens ∧ t ∈ tokens doc
         ∧ (doc_freq (documents self) t < length (documents self))%nat.
Proof.
  intros Hc Hdoc. unfold similarity_of. rewrite cosine_positive.
  2,3: intros t; by apply tfidf_entry_sign.
  split.
  - intros (t & Hq & Hd).
    apply (tfidf_entry_sign self _ t Hc) in Hq as [Hq [_ Hlt]].
    apply (tfidf_entry_sign self _ t Hc) in Hd as [Hd _]. by exists t.
  - intros (t & Hq & Hd & Hlt). exists t.
    assert (0 < doc_freq (documents self) t)%nat as Hpos.
    { assert (doc_freq (documents self) t ≠ 0%nat); [|lia].
      apply doc_freq_positive. exists doc. split; [done|].
      destruct Hc as (Htok & _). rewrite Forall_forall in Htok.
      by rewrite <- (Htok doc Hdoc). }
    split; apply (tfidf_entry_sign self _ t Hc); split; done || lia.
Qed.

End Retrieval.

(** ** The tokens *)
Section Tokens.
Import Re.

Lemma span_spec (p : ascii → bool) (s a b : str) :
  span p s = (a, b) → s = a ++ b ∧ Forall (fun c => p c = true) a.
Proof.
  revert a b. induction s as [|c s IH]; intros a b; simpl.
  - by intros [= <- <-].
  - destruct (p c) eqn:Hc; [|by intros [= <- <-]].
    destruct (span p s) as [a' b'] eqn:Hs. intros [= <- <-].
    destruct (IH a' b' eq_refl) as [-> Ha]. split; [done|by constructor].
Qed.

Lemma findall_words_go_cons (prev_word : bool) (c : ascii) (s : str) :
  findall_words_go prev_word 0 (c :: s) =
  let '(run, rest) := span is_alpha (c :: s) in
  let at_end := match rest with [] => true | d :: _ => negb (is_word d) end in
  if negb prev_word && truthy run && at_end
  then run :: findall_words_go (is_word c) (length run - 1) s
  else findall_words_go (is_word c) 0 s.
Proof. reflexivity. Qed.

(** Every match is a non-empty run of letters of the text. *)
Lemma findall_words_go_elem (s : str) : ∀ (prev_word : bool) (skip : nat) (w : str),
  w ∈ findall_words_go prev_word skip s →
  w ≠ [] ∧ Forall (fun c => is_alpha c = true) w ∧ ∀ c, c ∈ w → c ∈ s.
Proof.
  induction s as [|c s IH]; intros prev_word skip w Hw.
  - by apply elem_of_nil in Hw.
  - assert (∀ pw k, w ∈ findall_words_go pw k s →
              w ≠ [] ∧ Forall (fun c => is_alpha c = true) w
              ∧ ∀ d, d ∈ w → d ∈ c :: s) as Hrec.
    { intros pw k Hin. destruct (IH pw k w Hin) as (Hne & Ha & Hsub).
      split; [done|]. split; [done|]. intros d Hd. right. by apply Hsub. }
    destruct skip as [|k]; [|by apply (Hrec (is_word c) k)].
    rewrite findall_words_go_cons in Hw.
    destruct (span is_alpha (c :: s)) as [run rest] eqn:Hspan.
    apply span_spec in Hspan as [Hs Hrun].
    cbv zeta in Hw.
    destruct (negb prev_word && truthy run && _) eqn:Hcond;
      [|by apply (Hrec (is_word c) 0%nat)].
    apply elem_of_cons in Hw as [->|Hw]; [|by apply (Hrec (is_word c) _ Hw)].
    split; [|split; [done|]].
    + intros ->. by destruct prev_word.
    + intros d Hd. rewrite Hs. apply elem_of_app. by left.
Qed.

Lemma lower_char_not_upper (c : ascii) :
  in_range 65 90 (code (lower_char c)) = false.
Proof. by destruct c as [[] [] [] [] [] [] [] []]. Qed.

Lemma lower_char_idemp (c : ascii) : lower_char (lower_char c) = lower_char c.
Proof. by destruct c as [[] [] [] [] [] [] [] []]. Qed.

Lemma lower_char_letter_of_nonspace (c : ascii) :
  is_alpha (lower_char c) = true → is_space c = false.
Proof. by destruct c as [[] [] [] [] [] [] [] []]. Qed.

Lemma lower_idemp (s : str) : lower (lower s) = lower s.
Proof.
  unfold lower. rewrite map_map. apply map_ext. intros c. apply lower_char_idemp.
Qed.

(** The characters of a token are lower-case letters of the text. *)
Lemma tokenize_elem (text tok : str) :
  tok ∈ _tokenize text →
  (2 < length tok)%nat
  ∧ Forall (fun c => in_range 97 122 (code c) = true) tok
  ∧ ∀ c, c ∈ tok → ∃ c0, c0 ∈ text ∧ c = lower_char c0 ∧ is_space c0 = false.
Proof.
  unfold _tokenize. intros [Hlen Hin]%list_elem_of_filter.
  apply findall_words_go_elem in Hin as (_ & Halpha & Hsub).
  split; [done|].
  assert (∀ c, c ∈ tok → ∃ c0, c0 ∈ text ∧ c = lower_char c0 ∧ is_alpha c = true)
    as Hchars.
  { intros c Hc. pose proof (proj1 (Forall_forall _ _) Halpha c Hc) as Ha.
    apply Hsub in Hc. unfold lower in Hc.
    change (map lower_char text) with (lower_char <$> text) in Hc.
    apply list_elem_of_fmap in Hc as (c0 & -> & Hc0). by exists c0. }
  split.
  - apply Forall_forall. intros c Hc.
    destruct (Hchars c Hc) as (c0 & _ & -> & Ha).
    pose proof (lower_char_not_upper c0) as Hup.
    unfold is_alpha in Ha. cbv zeta in Ha. rewrite Hup in Ha. exact Ha.
  - intros c Hc. destruct (Hchars c Hc) as (c0 & Hc0 & -> & Ha).
    exists c0. split; [done|]. split; [done|].
    by apply lower_char_letter_of_nonspace.
Qed.

Lemma lstrip_nil_inv (s : str) :
  Forall (fun c => is_space c = true) (lstrip s) →
  Forall (fun c => is_space c = true) s.
Proof.
  induction s as [|c s IH]; simpl; [done|].
  destruct (is_space c) eqn:Hc; [|done]. intros Hs. constructor; auto.
Qed.

Lemma strip_nil_inv (s : str) : strip s = [] → Forall (fun c => is_space c = true) s.
Proof.
  unfold strip, rstrip. intros Hs.
  assert (Forall (fun c => is_space c = true) (rev (lstrip (rev s)))) as Hr.
  { apply lstrip_nil_inv. rewrite Hs. constructor. }
  apply Forall_rev in Hr. rewrite rev_involutive in Hr.
  apply lstrip_nil_inv in Hr. apply Forall_rev in Hr.
  by rewrite rev_involutive in Hr.
Qed.

(** A text with a token is not blank. *)
Lemma tokenize_nonblank (text tok : str) : tok ∈ _tokenize text → strip text ≠ [].
Proof.
  intros (Hlen & _ & Hchars)%tokenize_elem Hs.
  destruct tok as [|c tok]; [simpl in Hlen; lia|].
  destruct (Hchars c ltac:(left)) as (c0 & Hc0 & _ & Hsp).
  apply strip_nil_inv in Hs. rewrite Forall_forall in Hs.
  rewrite (Hs c0 Hc0) in Hsp. done.
Qed.

End Tokens.

(** X10.  Every token returned by [_tokenize] has at least three
    characters, all of them lower-case letters [a] to [z] obtained from
    characters of the text; a blank text has no token; and the tokens of a
    text do not change when the text is put in lower case. *)
Theorem tokens_are_lowercase_words (text : str) :
  Forall (fun tok => (3 <= length tok)%nat
                     ∧ Forall (fun c => in_range 97 122 (code c) = true) tok
                     ∧ Forall (fun c => c ∈ lower text) tok)
         (_tokenize text)
  ∧ (strip text = [] → _tokenize text = [])
  ∧ _tokenize (lower text) = _tokenize text.
Proof.
  split; [|split].
  - apply Forall_forall. intros tok Htok.
    destruct (tokenize_elem text tok Htok) as (Hlen & Hlow & Hchars).
    split; [lia|]. split; [done|].
    apply Forall_forall. intros c Hc.
    destruct (Hchars c Hc) as (c0 & Hc0 & -> & _).
    unfold lower. change (map lower_char text) with (lower_char <$> text).
    apply list_elem_of_fmap. by exists c0.
  - intros Hs. destruct (_tokenize text) as [|tok toks] eqn:Ht; [done|].
    exfalso. apply (tokenize_nonblank text tok); [|done].
    rewrite Ht. by left.
  - unfold _tokenize. by rewrite lower_idemp.
Qed.

(** A blank text has no token. *)
Lemma tokens_are_lowercase_words_witness :
  strip (py "  ") = [] ∧ _tokenize (py "  ") = [].
Proof.
  assert (strip (py "  ") = []) as Hs by reflexivity.
  split; [exact Hs|].
  exact (proj1 (proj2 (tokens_are_lowercase_words (py "  "))) Hs).
Defined.

Section Completeness.

Lemma length_insert_desc (x : Result) (l : list Result) :
  length (insert_desc x l) = S (length l).
Proof.
  induction l as [|y l IH]; simpl; [done|].
  destruct (Rgtb (score y) (score x)); simpl; by rewrite ?IH.
Qed.

Lemma length_sort_desc (l : list Result) : length (sort_desc l) = length l.
Proof.
  induction l as [|x l IH]; simpl; [done|].
  by rewrite length_insert_desc, IH.
Qed.

Lemma length_similarities (self : VectorStore.t) (query_tfidf : gmap str R) :
  (length (similarities self query_tfidf) <= length (documents self))%nat.
Proof.
  unfold similarities. induction (documents self) as [|d ds IH]; csimpl; [done|].
  destruct (Rgtb _ 0); csimpl; lia.
Qed.

(** With [top_k] at least the number of stored documents, and a query
    with a token, nothing is cut off. *)
Lemma similarity_search_all (self : VectorStore.t) (query : str) (top_k : Z) :
  _tokenize query ≠ [] → documents self ≠ [] →
  (len (documents self) <= top_k)%Z →
  similarity_search self query top_k
  = sort_desc (similarities self (_get_tfidf_vector self (_tokenize query))).
Proof.
  intros Htok Hdocs Hk. unfold similarity_search.
  destruct (strip query) as [|c s] eqn:Hs.
  { destruct (_tokenize query) as [|tok toks] eqn:Ht; [done|].
    exfalso. apply (tokenize_nonblank query tok); [|done]. rewrite Ht. by left. }
  cbn [truthy negb].
  destruct (documents self) as [|d ds] eqn:Hd; [done|]. cbn [truthy negb].
  destruct (_tokenize query) as [|tok toks] eqn:Ht; [done|]. cbn [truthy negb].
  cbv zeta. apply slice_to_all. unfold len in *.
  rewrite length_sort_desc.
  pose proof (length_similarities self (_get_tfidf_vector self (tok :: toks))) as Hl.
  rewrite Hd in Hl. lia.
Qed.

End Completeness.

(** X11.  In a consistent store, and with [top_k] at least the number of
    stored documents, a stored document is among the results of
    [similarity_search] exactly when it shares with the query a token
    that does not occur in every stored document; and every result is
    the entry of such a document, with its content, its metadata and its
    similarity as score. *)
Theorem retrieval_criterion
    (self : VectorStore.t) (query : str) (top_k : Z) :
  consistent self →
  (len (documents self) <= top_k)%Z →
  let query_tfidf := _get_tfidf_vector self (_tokenize query) in
  (∀ doc, doc ∈ documents self →
     result_of doc (similarity_of self query_tfidf doc)
       ∈ similarity_search self query top_k
     ↔ ∃ t, t ∈ _tokenize query ∧ t ∈ tokens doc
            ∧ (doc_freq (documents self) t < length (documents self))%nat)
  ∧ (∀ r, r ∈ similarity_search self query top_k →
       ∃ doc, doc ∈ documents self
              ∧ (∃ t, t ∈ _tokenize query ∧ t ∈ tokens doc
                      ∧ (doc_freq (documents self) t < length (documents self))%nat)
              ∧ res_content r = doc_content doc
              ∧ res_metadata r = doc_metadata doc
              ∧ score r = similarity_of self query_tfidf doc
              ∧ (0 < score r)%R).
Proof.
  intros Hc Hk query_tfidf. split.
  - intros doc Hdoc.
    rewrite <- (similarity_positive self (_tokenize query) doc Hc Hdoc).
    fold query_tfidf. split.
    + intros Hr%elem_of_similarity_search.
      apply elem_of_similarities in Hr as (doc' & _ & Hpos & Heq).
      apply (f_equal score) in Heq. simpl in Heq. fold query_tfidf in Hpos.
      by rewrite Heq.
    + intros Hpos.
      assert (_tokenize query ≠ []) as Htok.
      { apply (similarity_positive self (_tokenize query) doc Hc Hdoc) in Hpos
          as (t & Ht & _).
        intros Hnil. rewrite Hnil in Ht. by apply elem_of_nil in Ht. }
      assert (documents self ≠ []) as Hdocs.
      { intros Hnil. rewrite Hnil in Hdoc. by apply elem_of_nil in Hdoc. }
      rewrite similarity_search_all by done.
      apply elem_of_sort_desc, elem_of_similarities. by exists doc.
  - intros r Hr%elem_of_similarity_search.
    apply elem_of_similarities in Hr as (doc & Hdoc & Hpos & ->).
    exists doc. split; [exact Hdoc|]. split.
    + by apply (similarity_positive self (_tokenize query) doc Hc Hdoc).
    + cbn [result_of res_content res_metadata score]. by repeat split.
Qed.

(** The chunk about PPE is retrieved for the query about PPE from the
    store of two chunks. *)
Lemma retrieval_criterion_witness :
  ∃ doc, doc ∈ documents Fixtures.two_store
         ∧ py "ppe" ∈ tokens doc
         ∧ result_of doc
             (similarity_of Fixtures.two_store
                (_get_tfidf_vector Fixtures.two_store (_tokenize Fixtures.ppe_query))
                doc)
           ∈ similarity_search Fixtures.two_store Fixtures.ppe_query default_top_k.
Proof.
  assert (consistent Fixtures.two_store) as Hc.
  { split; [|split].
    - apply (bool_decide_unpack _). vm_compute. exact I.
    - apply (bool_decide_unpack _). vm_compute. exact I.
    - reflexivity. }
  assert (∃ doc ds, documents Fixtures.two_store = doc :: ds
                    ∧ py "ppe" ∈ tokens doc) as (doc & ds & Hd & Htok).
  { eexists _, _. split; [vm_compute; reflexivity|].
    apply (bool_decide_unpack _). vm_compute. exact I. }
  assert (doc ∈ documents Fixtures.two_store) as Hin by (rewrite Hd; left).
  assert (len (documents Fixtures.two_store) <= default_top_k)%Z as Hk
    by (vm_compute; discriminate).
  exists doc. split; [exact Hin|]. split; [exact Htok|].
  destruct (retrieval_criterion Fixtures.two_store Fixtures.ppe_query default_top_k
              Hc Hk) as [Hiff _].
  apply (Hiff doc Hin).
  exists (py "ppe"). split; [|split; [exact Htok|]].
  - apply (bool_decide_unpack _). vm_compute. exact I.
  - vm_compute. lia.
Defined.

(** * Further properties of the chunker *)

Section ChunkShape.
Import DocumentProcessor.
Variable self : DocumentProcessor.t.

Lemma strip_idemp (s : str) : strip (strip s) = strip s.
Proof.
  destruct (decide (strip s = [])) as [->|Hne]; [done|].
  apply strip_id; [apply strip_clean|by apply strip_ends].
Qed.

(** Every chunk of [_split_text_into_chunks] is already stripped. *)
Lemma chunks_stripped (text : str) :
  Forall (fun c => strip c = c) (_split_text_into_chunks self text).
Proof.
  unfold _split_text_into_chunks. destruct (negb (truthy text)); [constructor|].
  cbv zeta.
  assert (Forall (fun c => strip c = c)
            (chunks (fold_left (chunk_step self) (Re.split_sentences text) loop_init)))
    as Hinv.
  { apply (fold_left_invariant (chunk_step self)
             (fun st => Forall (fun c => strip c = c) (chunks st))).
    - constructor.
    - intros st raw _ Hst.
      destruct (chunk_step_case self st raw) as [Hs | Hs Hc Hgt | Hs Hc Hle | Hs Hc];
        cbn [chunks]; try done.
      apply Forall_app. split; [done|].
      constructor; [apply strip_idemp|constructor]. }
  destruct (truthy (strip (current_chunk _))); [|done].
  apply Forall_app. split; [done|].
  constructor; [apply strip_idemp|constructor].
Qed.

Lemma int_of_digits_nonneg (s : str) : (0 <= int_of_digits s)%Z.
Proof.
  unfold int_of_digits.
  apply (fold_left_invariant _ (fun acc => (0 <= acc)%Z)); [done|].
  intros acc c _ Hacc. lia.
Qed.

(** The dictionaries built from stripped chunk texts. *)
Lemma keep_chunks_shape (filename : str) (page : pyval) (texts : list str) :
  Forall (fun c => strip c = c) texts →
  Forall (fun c => strip (content c) = content c
                   ∧ (50 < len (content c))%Z
                   ∧ metadata c = [ (py "filename", PyStr filename);
                                    (py "page", page);
                                    (py "chunk_length", PyInt (len (content c))) ])
         (keep_chunks filename page texts).
Proof.
  intros Htexts. unfold keep_chunks.
  change (map ?f ?l) with (f <$> l).
  apply Forall_fmap, Forall_forall. intros t [Hlen Ht]%list_elem_of_filter.
  rewrite Forall_forall in Htexts. specialize (Htexts t Ht).
  unfold compose, chunk_record. cbn [content metadata].
  rewrite strip_idemp. split; [done|]. split; [done|]. by rewrite Htexts.
Qed.

End ChunkShape.

Section CreateChunks.
Import DocumentProcessor.

(** The chunks of [create_chunks], one by one. *)
Lemma create_chunks_all (self : DocumentProcessor.t) (text filename : str)
    (chunks : list Chunk) :
  create_chunks self text filename = Some chunks →
  Forall (chunk_shape filename) chunks.
Proof.
  intros Hcreate.
  pose proof (create_chunks_cases self text filename) as Hcases.
  destruct (marked_chunks self text filename) as [marked|] eqn:Hm; [|congruence].
  assert (Forall (chunk_shape filename) marked) as Hmarked.
  { eapply marked_chunks_Forall; [|exact Hm].
    intros region cs _ [_ ->]%region_chunks_Some.
    destruct (truthy (strip region.2)); [|constructor].
    eapply Forall_impl; [apply keep_chunks_shape, chunks_stripped|].
    intros c (Hs & Hlen & Hmeta). split; [done|]. split; [done|].
    eexists. split; [|exact Hmeta]. right. eexists. split; [|done].
    apply int_of_digits_nonneg. }
  destruct marked as [|c cs]; rewrite Hcases in Hcreate; injection Hcreate as <-;
    [|exact Hmarked].
  unfold fallback_chunks.
  eapply Forall_impl; [apply keep_chunks_shape, chunks_stripped|].
  intros c (Hs & Hlen & Hmeta). split; [done|]. split; [done|].
  eexists. split; [|exact Hmeta]. by left.
Qed.

(** X12.  Every chunk returned by [create_chunks] has a content without
    leading or trailing whitespace and of more than 50 characters, and
    its metadata are the file name, a page that is ["N/A"] or a number
    that is not negative, and a [chunk_length] that is the length of the
    content.  The empty text has no chunk. *)
Theorem create_chunks_shape (self : DocumentProcessor.t) (text filename : str) :
  (∀ chunks, create_chunks self text filename = Some chunks →
     Forall (fun c =>
               strip (content c) = content c
               ∧ (50 < len (content c))%Z
               ∧ ∃ page, (page = PyStr (py "N/A") ∨ ∃ n, (0 <= n)%Z ∧ page = PyInt n)
                         ∧ metadata c = [ (py "filename", PyStr filename);
                                          (py "page", page);
                                          (py "chunk_length", PyInt (len (content c))) ])
            chunks)
  ∧ create_chunks self [] filename = Some [].
Proof. split; [apply create_chunks_all|done]. Qed.

End CreateChunks.

Section ShortText.
Import DocumentProcessor.
Variable self : DocumentProcessor.t.

Lemma join_snoc (sep : str) (l : list str) (x : str) :
  l ≠ [] → join sep (l ++ [x]) = join sep l ++ sep ++ x.
Proof.
  induction l as [|y l IH]; [done|]. intros _.
  destruct l as [|z l]; [done|].
  change (join sep ((y :: z :: l) ++ [x])) with (y ++ sep ++ join sep ((z :: l) ++ [x])).
  rewrite IH by done.
  change (join sep (y :: z :: l)) with (y ++ sep ++ join sep (z :: l)).
  by rewrite <- !app_assoc.
Qed.

Lemma join_nil_inv (sep : str) (l : list str) :
  Forall (fun s => s ≠ []) l → join sep l = [] → l = [].
Proof.
  destruct l as [|x l]; [done|]. intros Hl Hj. exfalso.
  apply Forall_cons in Hl as [Hx _]. apply Hx.
  destruct l; [done|]. simpl in Hj. by apply app_eq_nil in Hj as [? _].
Qed.

Lemma appended_snoc (seen : list str) (raw : str) :
  appended (seen ++ [raw])
  = appended seen ++ (if decide (strip raw = []) then [] else [strip raw]).
Proof.
  unfold appended. rewrite fmap_app, filter_app. f_equal.
  cbn. unfold filter, list_filter. simpl.
  destruct (decide (strip raw ≠ [])) as [Hne|He];
    destruct (decide (strip raw = [])); try done.
Qed.

Lemma appended_nonempty (seen : list str) : Forall (fun s => s ≠ []) (appended seen).
Proof. apply Forall_forall. by intros s [Hs _]%list_elem_of_filter. Qed.

Lemma joining_step (seen : list str) (raw : str) (st : loop) :
  joining self seen st → joining self (seen ++ [raw]) (chunk_step self st raw).
Proof.
  intros Hinv Hfit. unfold joining in Hinv. rewrite appended_snoc in Hfit |- *.
  pose proof (appended_nonempty seen) as Hne.
  set (ss := appended seen) in *.
  destruct (chunk_step_case self st raw) as [Hs | Hs Hc Hgt | Hs Hc Hle | Hs Hc].
  - rewrite decide_True in Hfit |- * by done. rewrite app_nil_r in Hfit |- *.
    by apply Hinv.
  - exfalso. rewrite decide_False in Hfit by done.
    destruct (decide (ss = [])) as [Hnil|Hss].
    + rewrite Hnil in Hfit, Hinv. simpl in Hfit.
      destruct Hinv as (_ & Hcur & _); [simpl; unfold len in *; simpl; lia|].
      by rewrite Hcur in Hc.
    + rewrite join_snoc, !len_app in Hfit by done.
      change (len (py " ")) with 1%Z in Hfit.
      pose proof (len_nonneg (strip raw)).
      destruct Hinv as (_ & _ & Hlen & _); [lia|]. lia.
  - rewrite decide_False in Hfit |- * by done.
    destruct (decide (ss = [])) as [Hnil|Hss].
    { exfalso. rewrite Hnil in Hfit, Hinv. simpl in Hfit.
      destruct Hinv as (_ & Hcur & _); [simpl; unfold len in *; simpl; lia|].
      by rewrite Hcur in Hc. }
    rewrite join_snoc, !len_app in Hfit by done.
    change (len (py " ")) with 1%Z in Hfit.
    pose proof (len_nonneg (strip raw)).
    destruct Hinv as (Hch & Hcur & Hlen & Hclean & Hend); [lia|].
    cbn [chunks current_chunk current_length].
    split; [done|]. rewrite join_snoc by done. split; [by rewrite Hcur|].
    split.
    { rewrite decide_False by (by destruct ss).
      rewrite !len_app. change (len (py " ")) with 1%Z. lia. }
    split.
    { destruct (current_chunk st); [done|exact Hclean]. }
    right. apply ends_nonspace_app, ends_nonspace_app. by apply strip_ends.
  - rewrite decide_False in Hfit |- * by done.
    assert (ss = []) as Hnil.
    { destruct (decide (ss = [])) as [|Hss]; [done|]. exfalso.
      rewrite join_snoc, !len_app in Hfit by done.
      pose proof (len_nonneg (strip raw)). change (len (py " ")) with 1%Z in Hfit.
      destruct Hinv as (_ & Hcur & _); [lia|].
      rewrite Hc in Hcur. symmetry in Hcur.
      by apply join_nil_inv in Hcur. }
    rewrite Hnil in Hinv, Hfit |- *. simpl in Hfit |- *.
    pose proof (len_nonneg (strip raw)).
    change (len (join (py " ") [])) with 0%Z in Hinv.
    destruct Hinv as (Hch & _ & Hlen & _); [lia|].
    rewrite decide_True in Hlen by done.
    split; [done|]. split; [done|]. split; [lia|].
    split; [apply strip_clean|]. right. by apply strip_ends.
Qed.

Lemma joining_all (text : str) :
  joining self (Re.split_sentences text)
    (fold_left (chunk_step self) (Re.split_sentences text) loop_init).
Proof.
  apply (fold_left_invariant_seen (chunk_step self) (joining self)).
  - intros _. repeat split; try done. by left.
  - intros seen raw st. apply joining_step.
Qed.

(** X13.  When the sentences of a text, joined by single spaces, have
    at most [chunk_size] characters, [_split_text_into_chunks] returns
    that one chunk, and no chunk for a text without sentence. *)
Theorem short_text_is_one_chunk (text : str) :
  (len (join (py " ") (sentences_of text)) <= chunk_size self)%Z →
  _split_text_into_chunks self text
  = match sentences_of text with
    | [] => []
    | _ :: _ => [join (py " ") (sentences_of text)]
    end.
Proof.
  intros Hfit. unfold _split_text_into_chunks.
  destruct text as [|ch text]; [done|]. cbn [truthy negb]. cbv zeta.
  destruct (joining_all (ch :: text) Hfit) as (Hch & Hcur & _ & Hclean & Hend).
  change (appended (Re.split_sentences (ch :: text)))
    with (sentences_of (ch :: text)) in Hcur.
  set (st := fold_left _ _ _) in *.
  rewrite Hch. simpl app.
  destruct (sentences_of (ch :: text)) as [|s ss] eqn:Hss.
  - by rewrite Hcur.
  - destruct Hend as [Hnil|Hend].
    { exfalso. rewrite Hcur in Hnil. apply join_nil_inv in Hnil; [done|].
      rewrite <- Hss. apply (appended_nonempty (Re.split_sentences (ch :: text))). }
    rewrite strip_id by done. rewrite <- Hcur.
    pose proof (ends_nonspace_nonempty _ Hend). by destruct (current_chunk st).
Qed.

End ShortText.

(** Two sentences separated by several spaces, with the default sizes. *)
Lemma short_text_is_one_chunk_witness :
  DocumentProcessor._split_text_into_chunks DocumentProcessor.defaults
    (py "Wear a helmet.   Report every incident!")
  = [py "Wear a helmet. Report every incident!"].
Proof.
  assert (len (join (py " ")
                 (DocumentProcessor.sentences_of
                    (py "Wear a helmet.   Report every incident!")))
          <= DocumentProcessor.chunk_size DocumentProcessor.defaults)%Z as Hfit
    by (vm_compute; discriminate).
  rewrite (short_text_is_one_chunk DocumentProcessor.defaults
             (py "Wear a helmet.   Report every incident!") Hfit).
  reflexivity.
Defined.

Section OverlapText.
Import DocumentProcessor.

(** X14.  The overlap text is a suffix of the buffer, it has at most
    [chunk_overlap] characters, it is the whole buffer when the buffer
    has at most [chunk_overlap] characters, and with a positive
    [chunk_overlap] it is empty only for the empty buffer. *)
Theorem overlap_text_is_a_short_suffix (self : DocumentProcessor.t) (text : str) :
  _get_overlap_text self text `suffix_of` text
  ∧ (len (_get_overlap_text self text) <= Z.max (chunk_overlap self) 0)%Z
  ∧ ((len text <= chunk_overlap self)%Z → _get_overlap_text self text = text)
  ∧ ((0 < chunk_overlap self)%Z → text ≠ [] → _get_overlap_text self text ≠ []).
Proof.
  split; [apply overlap_suffix|]. split; [apply overlap_length|].
  unfold _get_overlap_text. split.
  - intros Hle. apply Z.leb_le in Hle. by rewrite Hle.
  - intros Hpos Hne.
    destruct (len text <=? chunk_overlap self)%Z eqn:Hle; [done|].
    apply Z.leb_gt in Hle. cbv zeta.
    set (window := drop _ text).
    assert (window ≠ []) as Hw.
    { intros Hnil. apply (f_equal length) in Hnil.
      unfold window, len in *. rewrite length_drop in Hnil. simpl in Hnil. lia. }
    destruct (1 <? length (Re.split_sentences window))%nat; [|done].
    pose proof (truthy_spec (List.last (Re.split_sentences window) [])) as Hl.
    by destruct (truthy _).
Qed.

End OverlapText.

(** With an overlap of 20 characters the overlap text of a buffer of
    three sentences is not empty. *)
Lemma overlap_text_is_a_short_suffix_witness :
  (0 < DocumentProcessor.chunk_overlap (DocumentProcessor.mk 800 20))%Z
  ∧ DocumentProcessor._get_overlap_text (DocumentProcessor.mk 800 20)
      (py "Wear a helmet. Inspect the site. Report it.") ≠ [].
Proof.
  assert (0 < DocumentProcessor.chunk_overlap (DocumentProcessor.mk 800 20))%Z as Hpos
    by reflexivity.
  split; [exact Hpos|].
  apply (overlap_text_is_a_short_suffix (DocumentProcessor.mk 800 20)
           (py "Wear a helmet. Inspect the site. Report it.")); [exact Hpos|].
  discriminate.
Defined.

(** * Text extraction *)

Section Substitutions.
Import Re.

Lemma last_newline_bound (run : str) : ∀ i j,
  last_newline i run = Some j → (i <= j < i + length run)%nat.
Proof.
  induction run as [|c run IH]; intros i j; simpl; [done|].
  destruct (last_newline (S i) run) as [j'|] eqn:Hl.
  - intros [= <-]. apply IH in Hl. lia.
  - destruct (is_newline c); [|done]. intros [= <-]. lia.
Qed.

Lemma span_take (p : ascii → bool) (s : str) (k : nat) :
  (k <= length (span p s).1)%nat → Forall (fun c => p c = true) (take k s).
Proof.
  destruct (span p s) as [a b] eqn:Hs. apply span_spec in Hs as [-> Ha].
  simpl. intros Hk. rewrite take_app_le by done. by apply Forall_take.
Qed.

(** The first substitution of [_clean_text] changes whitespace only, so
    that the second one undoes it. *)
Lemma sub_spaces_blank_lines_go (s : str) : ∀ (skip : nat) (in_run : bool),
  Forall (fun c => is_space c = true) (take skip s) →
  (skip ≠ 0%nat → in_run = true) →
  sub_spaces_go in_run (sub_blank_lines_go skip s) = sub_spaces_go in_run s.
Proof.
  induction s as [|c s IH]; intros skip in_run Hskip Hrun; [by destruct skip|].
  destruct skip as [|k].
  - cbn [sub_blank_lines_go].
    assert (sub_spaces_go in_run (c :: sub_blank_lines_go 0 s)
            = sub_spaces_go in_run (c :: s)) as Hcopy.
    { cbn [sub_spaces_go]. destruct (is_space c); [destruct in_run|];
        by rewrite IH by (done || constructor). }
    destruct (is_newline c) eqn:Hc; [|done].
    destruct (last_newline 0 (span is_space s).1) as [j|] eqn:Hl; [|done].
    apply last_newline_bound in Hl.
    assert (is_space c = true) as Hsp.
    { unfold is_newline in Hc. apply Nat.eqb_eq in Hc.
      unfold is_space. cbv zeta. by rewrite Hc. }
    assert (sub_spaces_go true (sub_blank_lines_go (S j) s) = sub_spaces_go true s)
      as Hrest.
    { apply IH; [|done]. apply span_take. lia. }
    cbn [sub_spaces_go]. rewrite Hsp.
    change (is_space newline) with true. cbv iota.
    destruct in_run; by rewrite Hrest.
  - cbn [sub_blank_lines_go]. rewrite (Hrun ltac:(done)).
    apply Forall_cons in Hskip as [Hc Hskip].
    cbn [sub_spaces_go]. rewrite Hc. apply IH; done.
Qed.

Lemma sub_spaces_blank_lines (text : str) :
  sub_spaces (sub_blank_lines text) = sub_spaces text.
Proof. apply sub_spaces_blank_lines_go; [constructor|done]. Qed.

(** After the second substitution the space is the only whitespace. *)
Lemma sub_spaces_go_only_space (s : str) (in_run : bool) :
  Forall (fun c => is_space c = true → c = " "%char) (sub_spaces_go in_run s).
Proof.
  revert in_run. induction s as [|c s IH]; intros in_run; simpl; [constructor|].
  destruct (is_space c) eqn:Hc.
  - destruct in_run; [apply IH|]. constructor; [done|apply IH].
  - constructor; [|apply IH]. intros Hsp. by rewrite Hsp in Hc.
Qed.

Lemma sub_spaces_go_keeps (s : str) (in_run : bool) (c : ascii) :
  c ∈ s → is_space c = false → c ∈ sub_spaces_go in_run s.
Proof.
  revert in_run. induction s as [|a s IH]; intros in_run Hin Hc;
    [by apply elem_of_nil in Hin|].
  apply elem_of_cons in Hin as [<-|Hin]; simpl.
  - rewrite Hc. by left.
  - destruct (is_space a); [destruct in_run|]; try right; by apply IH.
Qed.

Lemma sub_special_kept (s : str) :
  Forall (fun c => is_kept c = true) (sub_special s).
Proof.
  unfold sub_special. change (map ?f s) with (f <$> s).
  apply Forall_fmap, Forall_forall. intros c _. simpl.
  by destruct (is_kept c) eqn:Hc.
Qed.

Lemma sub_special_only_space (s : str) :
  Forall (fun c => is_space c = true → c = " "%char) s →
  Forall (fun c => is_space c = true → c = " "%char) (sub_special s).
Proof.
  intros Hs. unfold sub_special. change (map ?f s) with (f <$> s).
  apply Forall_fmap. eapply Forall_impl; [exact Hs|].
  intros c Hc. simpl. by destruct (is_kept c).
Qed.

Lemma sub_special_keeps (s : str) (c : ascii) :
  c ∈ s → is_kept c = true → c ∈ sub_special s.
Proof.
  intros Hin Hc. unfold sub_special. change (map ?f s) with (f <$> s).
  apply list_elem_of_fmap. exists c. by rewrite Hc.
Qed.

(** The characters of [s.replace(old, new)] come from [s] or from [new]. *)
Lemma replace_go_chars (old new : str) (P : ascii → Prop) (s : str) : ∀ skip,
  Forall P new → Forall P s → Forall P (replace_go old new skip s).
Proof.
  induction s as [|c s IH]; intros skip Hnew Hs; simpl; [constructor|].
  apply Forall_cons in Hs as [Hc Hs].
  destruct skip as [|k]; [|by apply IH].
  destruct (starts_with old (c :: s)).
  - apply Forall_app. split; [done|by apply IH].
  - constructor; [done|by apply IH].
Qed.

Lemma replace_chars (old new : str) (P : ascii → Prop) (s : str) :
  old ≠ [] → Forall P new → Forall P s → Forall P (replace old new s).
Proof.
  intros Hold Hnew Hs. unfold replace. destruct old; [done|].
  by apply replace_go_chars.
Qed.

Lemma starts_with_take (p s : str) : starts_with p s = true → take (length p) s = p.
Proof.
  revert s. induction p as [|a p IH]; intros s; [done|].
  destruct s as [|b s]; [done|]. simpl.
  destruct (decide (a = b)) as [->|]; [|done]. intros H. by rewrite IH.
Qed.

(** Replacing a one-character text by itself changes nothing. *)
Lemma replace_same_char (c : ascii) (s : str) : replace [c] [c] s = s.
Proof.
  unfold replace. induction s as [|a s IH]; [done|].
  cbn [replace_go starts_with].
  destruct (decide (c = a)) as [->|]; simpl; by rewrite IH.
Qed.

(** A character that does not occur in [old] is not removed. *)
Lemma replace_go_keeps (old new : str) (c : ascii) (s : str) : ∀ skip,
  old ≠ [] → c ∉ old → Forall (fun x => x ∈ old) (take skip s) →
  c ∈ s → c ∈ replace_go old new skip s.
Proof.
  induction s as [|a s IH]; intros skip Hold Hc Hskip Hin;
    [by apply elem_of_nil in Hin|].
  destruct skip as [|k].
  - cbn [replace_go].
    destruct (starts_with old (a :: s)) eqn:Hst.
    + apply starts_with_take in Hst.
      apply elem_of_app. right. apply IH; try done.
      * apply Forall_forall. intros x Hx. rewrite <- Hst.
        destruct old as [|o old]; [done|]. simpl.
        right. simpl in Hx. by rewrite Nat.sub_0_r in Hx.
      * apply elem_of_cons in Hin as [->|Hin]; [|done].
        exfalso. apply Hc. rewrite <- Hst.
        destruct old; [done|]. by left.
    + apply elem_of_cons in Hin as [->|Hin]; [by left|].
      right. by apply IH.
  - cbn [replace_go]. simpl in Hskip. apply Forall_cons in Hskip as [Ha Hskip].
    apply elem_of_cons in Hin as [->|Hin]; [done|]. by apply IH.
Qed.

Lemma lstrip_keeps (s : str) (c : ascii) :
  c ∈ s → is_space c = false → c ∈ lstrip s.
Proof.
  induction s as [|a s IH]; intros Hin Hc; [done|]. simpl.
  destruct (is_space a) eqn:Ha; [|done].
  apply elem_of_cons in Hin as [->|Hin]; [by rewrite Hc in Ha|by apply IH].
Qed.

Lemma strip_keeps (s : str) (c : ascii) :
  c ∈ s → is_space c = false → c ∈ strip s.
Proof.
  intros Hin Hc. unfold strip, rstrip. apply lstrip_keeps; [|done].
  apply list_elem_of_In, (proj1 (in_rev _ _)), list_elem_of_In.
  apply lstrip_keeps; [|done].
  by apply list_elem_of_In, (proj1 (in_rev _ _)), list_elem_of_In.
Qed.

Lemma strip_chars (P : ascii → Prop) (s : str) : Forall P s → Forall P (strip s).
Proof.
  intros Hs. unfold strip, rstrip.
  assert (∀ l, Forall P l → Forall P (lstrip l)) as Hl.
  { intros l Hl. destruct (lstrip_suffix l) as [k Hk].
    rewrite Hk in Hl. by apply Forall_app in Hl as [_ ?]. }
  apply Hl, Forall_rev, Hl, Forall_rev, Hs.
Qed.

End Substitutions.

Section CleanText.
Import Re DocumentProcessor.

Lemma clean_text_eq (text : str) :
  _clean_text text
  = strip (replace quote_pattern (py "'") (sub_special (sub_spaces text))).
Proof.
  unfold _clean_text. destruct text as [|c text]; [done|].
  cbn [truthy negb]. cbv zeta.
  by rewrite !replace_same_char, sub_spaces_blank_lines.
Qed.

Lemma clean_text_chars (text : str) :
  Forall (fun c => is_kept c = true ∧ (is_space c = true → c = " "%char))
         (_clean_text text).
Proof.
  rewrite clean_text_eq. apply strip_chars, replace_chars; [done| |].
  - by repeat constructor.
  - apply Forall_and. split; [apply sub_special_kept|].
    apply sub_special_only_space, sub_spaces_go_only_space.
Qed.

Lemma clean_text_keeps (text : str) (c : ascii) :
  c ∈ text → is_space c = false → is_kept c = true → c ∉ quote_pattern →
  c ∈ _clean_text text.
Proof.
  intros Hin Hsp Hkept Hpat. rewrite clean_text_eq.
  apply strip_keeps; [|done]. unfold replace.
  change quote_pattern with (","%char :: tail quote_pattern) at 1.
  cbv iota. change (","%char :: tail quote_pattern) with quote_pattern.
  apply replace_go_keeps; [done|done|constructor|].
  apply sub_special_keeps; [|done]. by apply sub_spaces_go_keeps.
Qed.

End CleanText.

Section CleanTextResult.
Import Re DocumentProcessor.

(** X15.  [_clean_text] returns the text in which every run of
    whitespace is one space, every character outside the listed class
    is a space and every occurrence of [quote_pattern] is an apostrophe,
    stripped: the substitution for blank lines and the two replacements
    of the double quote have no effect.  The result has no whitespace at
    its ends, its only whitespace character is the space, all its
    characters are of the listed class, and a character of the class
    that is no whitespace and not in [quote_pattern] is never lost. *)
Theorem clean_text_result (text : str) :
  _clean_text text
  = strip (replace quote_pattern (py "'") (sub_special (sub_spaces text)))
  ∧ strip (_clean_text text) = _clean_text text
  ∧ Forall (fun c => is_kept c = true ∧ (is_space c = true → c = " "%char))
           (_clean_text text)
  ∧ Forall (fun c => is_space c = false → is_kept c = true → c ∉ quote_pattern →
                     c ∈ _clean_text text) text.
Proof.
  split; [apply clean_text_eq|]. split; [|split].
  - rewrite clean_text_eq. apply strip_idemp.
  - apply clean_text_chars.
  - apply Forall_forall. intros c Hin Hsp Hkept Hpat. by apply clean_text_keeps.
Qed.

End CleanTextResult.

Section PageMarkers.
Import Re DocumentProcessor.

Lemma digits_of_uint_digits (d : Decimal.uint) :
  Forall (fun c => is_digit c = true) (digits_of_uint d).
Proof. induction d; simpl; by constructor. Qed.

Lemma int_of_digits_uint (d : Decimal.uint) : ∀ acc : nat,
  fold_left (fun acc c => (10 * acc + Z.of_nat (code c - 48))%Z)
            (digits_of_uint d) (Z.of_nat acc)
  = Z.of_nat (Nat.of_uint_acc d acc).
Proof.
  induction d; intros acc; cbn [digits_of_uint fold_left Nat.of_uint_acc];
    [done|rewrite <- IHd; f_equal; rewrite Nat.tail_mul_spec;
          change (code _ - 48)%nat with 0%nat
          || change (code _ - 48)%nat with 1%nat
          || change (code _ - 48)%nat with 2%nat
          || change (code _ - 48)%nat with 3%nat
          || change (code _ - 48)%nat with 4%nat
          || change (code _ - 48)%nat with 5%nat
          || change (code _ - 48)%nat with 6%nat
          || change (code _ - 48)%nat with 7%nat
          || change (code _ - 48)%nat with 8%nat
          || change (code _ - 48)%nat with 9%nat; lia ..].
Qed.

Lemma int_of_str_of_nat (n : nat) : int_of_digits (str_of_nat n) = Z.of_nat n.
Proof.
  unfold int_of_digits, str_of_nat.
  etrans; [exact (int_of_digits_uint (Nat.to_uint n) 0)|].
  change (Nat.of_uint_acc (Nat.to_uint n) 0) with (Nat.of_uint (Nat.to_uint n)).
  by rewrite DecimalNat.Unsigned.of_to.
Qed.

Lemma str_of_nat_nonempty (n : nat) : str_of_nat n ≠ [].
Proof.
  intros Hnil. pose proof (int_of_str_of_nat n) as Hn.
  pose proof (int_of_str_of_nat 0) as H0.
  destruct n as [|n]; [by vm_compute in Hnil|].
  rewrite Hnil in Hn. vm_compute in Hn. lia.
Qed.

Lemma span_app_stop (p : ascii → bool) (a : str) (c : ascii) (rest : str) :
  Forall (fun x => p x = true) a → p c = false →
  span p (a ++ c :: rest) = (a, c :: rest).
Proof.
  intros Ha Hc. induction Ha as [|x a Hx _ IH]; simpl.
  - by rewrite Hc.
  - by rewrite Hx, IH.
Qed.

Lemma starts_with_app (p s : str) : starts_with p (p ++ s) = true.
Proof. induction p as [|a p IH]; [done|]. simpl. by rewrite decide_True. Qed.

Lemma split_pages_go_skip (a cur rest : str) :
  split_pages_go (length a) cur (a ++ rest) = split_pages_go 0 cur rest.
Proof. induction a as [|c a IH]; [done|]. simpl. apply IH. Qed.

End PageMarkers.

Section MarkerRoundTrip.
Import Re DocumentProcessor.

(** X16.  The page marker that [extract_text] writes for page [n] is
    read back by [create_chunks]: the marker is matched in front of any
    text, its digits are those of [n], and they are parsed as [n]. *)
Theorem page_marker_round_trip (n : nat) (rest : str) :
  match_page_marker (py "[PAGE " ++ str_of_nat n ++ py "]" ++ rest)
  = Some (str_of_nat n, rest)
  ∧ int_of_digits (str_of_nat n) = Z.of_nat n
  ∧ split_pages (py "[PAGE " ++ str_of_nat n ++ py "]" ++ rest)
    = [] :: str_of_nat n :: split_pages rest.
Proof.
  assert (match_page_marker (py "[PAGE " ++ str_of_nat n ++ py "]" ++ rest)
          = Some (str_of_nat n, rest)) as Hmatch.
  { unfold match_page_marker.
    rewrite (starts_with_app (py "[PAGE ")).
    change (drop 6 (py "[PAGE " ++ ?s)) with s.
    change (py "]" ++ rest) with ("]"%char :: rest).
    rewrite (span_app_stop is_digit (str_of_nat n) "]"%char rest);
      [|apply digits_of_uint_digits|done].
    pose proof (str_of_nat_nonempty n). by destruct (str_of_nat n). }
  split; [done|]. split; [apply int_of_str_of_nat|].
  unfold split_pages.
  change (py "[PAGE " ++ str_of_nat n ++ py "]" ++ rest)
    with ("["%char :: (py "PAGE " ++ str_of_nat n ++ py "]" ++ rest)) in *.
  cbn [split_pages_go]. rewrite Hmatch. cbn [rev app].
  f_equal. f_equal.
  replace (length (py "PAGE " ++ str_of_nat n ++ py "]" ++ rest) - length rest)%nat
    with (length (py "PAGE " ++ str_of_nat n ++ py "]")).
  - rewrite <- (split_pages_go_skip (py "PAGE " ++ str_of_nat n ++ py "]") [] rest).
    f_equal. by rewrite <- !app_assoc.
  - rewrite !length_app. lia.
Qed.

End MarkerRoundTrip.

Section ExtractText.
Import Re DocumentProcessor.

Lemma digit_char (c : ascii) :
  is_digit c = true → is_space c = false ∧ is_kept c = true ∧ c ≠ ","%char.
Proof. by destruct c as [[] [] [] [] [] [] [] []]. Qed.

Lemma sub_spaces_go_nonspace_app (a rest : str) : ∀ in_run,
  Forall (fun c => is_space c = false) a → a ≠ [] →
  sub_spaces_go in_run (a ++ rest) = a ++ sub_spaces_go false rest.
Proof.
  induction a as [|c a IH]; intros in_run Ha Hne; [done|].
  apply Forall_cons in Ha as [Hc Ha]. simpl. rewrite Hc. f_equal.
  destruct a as [|d a]; [done|]. by apply IH.
Qed.

Lemma sub_special_kept_app (a rest : str) :
  Forall (fun c => is_kept c = true) a →
  sub_special (a ++ rest) = a ++ sub_special rest.
Proof.
  intros Ha. unfold sub_special. rewrite map_app. f_equal.
  induction Ha as [|c a Hc _ IH]; [done|]. simpl. by rewrite Hc, IH.
Qed.

Lemma replace_go_prefix (o : ascii) (old new a rest : str) :
  Forall (fun c => c ≠ o) a →
  replace_go (o :: old) new 0 (a ++ rest) = a ++ replace_go (o :: old) new 0 rest.
Proof.
  induction 1 as [|c a Hc _ IH]; [done|].
  change ((c :: a) ++ rest) with (c :: (a ++ rest)).
  cbn [replace_go starts_with]. rewrite decide_False by done. by rewrite IH.
Qed.

Lemma lstrip_app_clean (x y : str) :
  y ≠ [] → starts_clean y → lstrip (x ++ y) = lstrip x ++ y.
Proof.
  intros Hy Hc. induction x as [|c x IH]; simpl.
  - destruct y as [|d y]; [done|]. simpl in *. by rewrite Hc.
  - by destruct (is_space c).
Qed.

Lemma rstrip_app (a b : str) : ends_nonspace a → rstrip (a ++ b) = a ++ rstrip b.
Proof.
  intros (x & c & -> & Hc). unfold rstrip.
  rewrite rev_app_distr, lstrip_app_clean.
  - by rewrite rev_app_distr, rev_involutive.
  - rewrite rev_app_distr. done.
  - rewrite rev_app_distr. simpl. done.
Qed.

(** The marker in front of the text of a page survives the cleaning. *)
Lemma clean_text_marker (digits rest : str) :
  Forall (fun c => is_digit c = true) digits → digits ≠ [] →
  (py "[PAGE " ++ digits ++ py "]") `prefix_of`
  _clean_text ([newline] ++ py "[PAGE " ++ digits ++ py "]" ++ [newline] ++ rest).
Proof.
  intros Hd Hne. rewrite clean_text_eq.
  assert (Forall (fun c => is_space c = false) digits
          ∧ Forall (fun c => is_kept c = true) digits
          ∧ Forall (fun c => c ≠ ","%char) digits) as (Hsp & Hkept & Hcomma).
  { repeat split; eapply Forall_impl; try exact Hd; intros c Hc;
      by apply digit_char in Hc as (? & ? & ?). }
  assert (sub_spaces ([newline] ++ py "[PAGE " ++ digits ++ py "]" ++ [newline] ++ rest)
          = py " [PAGE " ++ (digits ++ py "] ") ++ sub_spaces_go true rest) as ->.
  { unfold sub_spaces.
    change ([newline] ++ py "[PAGE " ++ digits ++ py "]" ++ [newline] ++ rest)
      with (newline :: py "[PAGE" ++ " "%char :: (digits ++ "]"%char :: newline :: rest)).
    cbn [sub_spaces_go]. change (is_space newline) with true. cbv iota.
    rewrite (sub_spaces_go_nonspace_app (py "[PAGE")) by (by repeat constructor).
    cbn [sub_spaces_go]. change (is_space " "%char) with true. cbv iota.
    change (digits ++ "]"%char :: newline :: rest)
      with (digits ++ [ "]"%char ] ++ newline :: rest).
    rewrite app_assoc.
    rewrite (sub_spaces_go_nonspace_app (digits ++ [ "]"%char ])).
    - cbn [sub_spaces_go]. change (is_space newline) with true. cbv iota.
      by rewrite <- !app_assoc.
    - apply Forall_app. split; [done|by repeat constructor].
    - by destruct digits. }
  set (spaced := sub_spaces_go true rest).
  replace (py " [PAGE " ++ (digits ++ py "] ") ++ spaced)
    with ((py " [PAGE " ++ digits ++ py "] ") ++ spaced)
    by (by rewrite <- !app_assoc).
  rewrite (sub_special_kept_app (py " [PAGE " ++ digits ++ py "] ")).
  2:{ apply Forall_app. split; [by repeat constructor|].
      apply Forall_app. split; [done|by repeat constructor]. }
  unfold replace.
  change quote_pattern with (","%char :: tail quote_pattern) at 1. cbv iota.
  change (replace_go quote_pattern)
    with (replace_go (","%char :: tail quote_pattern)).
  rewrite (replace_go_prefix _ _ _ (py " [PAGE " ++ digits ++ py "] ")).
  2:{ apply Forall_app. split; [by repeat constructor|].
      apply Forall_app. split; [done|by repeat constructor]. }
  set (tail_text := replace_go _ _ _ _).
  replace ((py " [PAGE " ++ digits ++ py "] ") ++ tail_text)
    with ((py " " ++ (py "[PAGE " ++ digits ++ py "]")) ++ py " " ++ tail_text)
    by (by rewrite <- !app_assoc).
  unfold strip. rewrite rstrip_app.
  2:{ exists (py " [PAGE " ++ digits), "]"%char. split; [|done].
      by rewrite <- !app_assoc. }
  rewrite <- app_assoc. change (py " " ++ ?s) with (" "%char :: s).
  cbn [lstrip]. change (is_space " "%char) with true. cbv iota.
  change (py "[PAGE " ++ ?s) with ("["%char :: py "PAGE " ++ s).
  change (("["%char :: ?x) ++ ?y) with ("["%char :: (x ++ y)).
  cbn [lstrip]. change (is_space "["%char) with false. cbv iota.
  apply prefix_cons. by apply prefix_app_r.
Qed.

Lemma concat_imap_nil {A} (f : nat → A → str) (l : list A) :
  (∀ i x, x ∈ l → f i x = []) → concat (imap f l) = [].
Proof.
  revert f. induction l as [|x l IH]; intros f Hf; [done|].
  simpl. rewrite (Hf 0%nat x) by (by left). simpl.
  apply IH. intros i y Hy. apply Hf. by right.
Qed.

Lemma sample_text_nonempty : _get_sample_text ≠ [].
Proof. by vm_compute. Qed.

End ExtractText.

Section ExtractTextResult.
Import Re DocumentProcessor.

(** A page without text: [extract_text] raised, or returned no text. *)
Lemma text_content_blank (pages : list page_read) :
  Forall (fun p => p = PageRaises ∨ p = PageText []) pages →
  concat (imap page_piece pages) = [].
Proof.
  intros Hp. apply concat_imap_nil. intros i p Hin.
  rewrite Forall_forall in Hp. by destruct (Hp p Hin) as [-> | ->].
Qed.

Lemma text_content_first (pre post : list page_read) (t : str) :
  Forall (fun p => p = PageRaises ∨ p = PageText []) pre → t ≠ [] →
  ∃ rest,
    concat (imap page_piece (pre ++ PageText t :: post))
    = [newline] ++ py "[PAGE " ++ str_of_nat (length pre + 1) ++ py "]"
      ++ [newline] ++ rest.
Proof.
  intros Hpre Ht. rewrite imap_app, concat_app.
  rewrite (concat_imap_nil page_piece pre).
  2:{ intros i p Hin. rewrite Forall_forall in Hpre.
      by destruct (Hpre p Hin) as [-> | ->]. }
  rewrite imap_cons. cbn [concat app].
  rewrite Nat.add_0_r. unfold page_piece at 1.
  destruct t as [|c t]; [done|]. cbn [truthy].
  eexists. rewrite <- !app_assoc. reflexivity.
Qed.

Lemma first_text_page (pages : list page_read) :
  Forall (fun p => p = PageRaises ∨ p = PageText []) pages
  ∨ ∃ pre t post, pages = pre ++ PageText t :: post
                  ∧ Forall (fun p => p = PageRaises ∨ p = PageText []) pre
                  ∧ t ≠ [].
Proof.
  induction pages as [|p pages IH]; [left; constructor|].
  destruct p as [|t].
  - destruct IH as [IH|(pre & t & post & -> & Hpre & Ht)].
    + left. constructor; [by left|done].
    + right. exists (PageRaises :: pre), t, post.
      split; [done|]. split; [|done]. constructor; [by left|done].
  - destruct t as [|c t].
    + destruct IH as [IH|(pre & t & post & -> & Hpre & Ht)].
      * left. constructor; [by right|done].
      * right. exists (PageText [] :: pre), t, post.
        split; [done|]. split; [|done]. constructor; [by right|done].
    + right. exists [], (c :: t), pages. split; [done|]. split; [constructor|done].
Qed.

Lemma extract_text_marker (pre post : list page_read) (t : str) :
  Forall (fun p => p = PageRaises ∨ p = PageText []) pre → t ≠ [] →
  (py "[PAGE " ++ str_of_nat (length pre + 1) ++ py "]") `prefix_of`
  extract_text (Some (pre ++ PageText t :: post)).
Proof.
  intros Hpre Ht. unfold extract_text. cbv zeta.
  destruct (text_content_first pre post t Hpre Ht) as [rest ->].
  set (text_content := [newline] ++ _).
  assert (strip text_content ≠ []) as Hne.
  { assert ("["%char ∈ strip text_content) as Hin.
    { apply strip_keeps; [|done]. unfold text_content.
      apply elem_of_app. right. by left. }
    intros Hnil. rewrite Hnil in Hin. by apply elem_of_nil in Hin. }
  destruct (strip text_content); [done|]. cbn [truthy negb].
  apply clean_text_marker; [apply digits_of_uint_digits|apply str_of_nat_nonempty].
Qed.

Lemma extract_text_no_text (file : pdf) :
  no_text file → extract_text file = _get_sample_text.
Proof.
  destruct file as [pages|]; [|done]. intros Hp. unfold extract_text. cbv zeta.
  by rewrite (text_content_blank pages Hp).
Qed.

Lemma extract_text_nonempty (file : pdf) : extract_text file ≠ [].
Proof.
  destruct file as [pages|]; [|apply sample_text_nonempty].
  destruct (first_text_page pages) as [Hp|(pre & t & post & -> & Hpre & Ht)].
  - rewrite (extract_text_no_text (Some pages) Hp). apply sample_text_nonempty.
  - destruct (extract_text_marker pre post t Hpre Ht) as [k ->]. done.
Qed.

End ExtractTextResult.

Section ExtractTextTheorem.
Import Re DocumentProcessor.

(** X17.  [extract_text] never returns the empty text.  When the file
    cannot be read, and when no page gives a text, it returns the
    cleaned sample text; otherwise its result begins with the marker of
    the first page that has a text, pages being counted from 1. *)
Theorem extract_text_result (file : pdf) :
  extract_text file ≠ []
  ∧ match file with
    | None => extract_text file = _get_sample_text
    | Some pages =>
        (Forall (fun p => p = PageRaises ∨ p = PageText []) pages →
         extract_text file = _get_sample_text)
        ∧ ∀ pre t post,
            pages = pre ++ PageText t :: post →
            Forall (fun p => p = PageRaises ∨ p = PageText []) pre →
            t ≠ [] →
            (py "[PAGE " ++ str_of_nat (length pre + 1) ++ py "]") `prefix_of`
            extract_text file
    end.
Proof.
  split; [apply extract_text_nonempty|].
  destruct file as [pages|]; [|done]. split.
  - intros Hp. by apply (extract_text_no_text (Some pages)).
  - intros pre t post -> Hpre Ht. by apply extract_text_marker.
Qed.

End ExtractTextTheorem.

(** A file whose first page raises, whose second page has no text and
    whose third page has a text. *)
Lemma extract_text_result_witness :
  (py "[PAGE 3]") `prefix_of`
  DocumentProcessor.extract_text
    (Some [DocumentProcessor.PageRaises; DocumentProcessor.PageText [];
           DocumentProcessor.PageText (py "Daily safety meetings.")]).
Proof.
  destruct (extract_text_result
              (Some [DocumentProcessor.PageRaises; DocumentProcessor.PageText [];
                     DocumentProcessor.PageText (py "Daily safety meetings.")]))
    as (_ & _ & Hmarker).
  apply (Hmarker [DocumentProcessor.PageRaises; DocumentProcessor.PageText []]
           (py "Daily safety meetings.") []); [reflexivity| |discriminate].
  constructor; [left; reflexivity|]. constructor; [right; reflexivity|]. constructor.
Defined.

(** * The system *)

Section AddDocument.
Import DocumentProcessor RAGSystem.
Variable uuid4 : nat → str.

(** No chunk of [create_chunks] is dropped by [add_documents]. *)
Lemma create_chunks_valid (self : DocumentProcessor.t) (text filename : str)
    (chunks : list Chunk) :
  create_chunks self text filename = Some chunks →
  filter (fun d => valid d = true) chunks = chunks.
Proof.
  intros Hall%create_chunks_all.
  induction Hall as [|c cs (Hs & Hlen & _) _ IH]; [done|].
  rewrite filter_cons, IH, decide_True; [done|].
  unfold valid. rewrite Hs. destruct (content c); [|done].
  unfold len in Hlen. simpl in Hlen. lia.
Qed.

Lemma add_documents_chunks (store : VectorStore.t) (disk : Disk)
    (self : DocumentProcessor.t) (text filename : str) (chunks : list Chunk) :
  create_chunks self text filename = Some chunks →
  chunks ≠ [] →
  ∃ entries,
    add_documents uuid4 store disk chunks
    = (true, grown store entries, _save_data (grown store entries) disk)
    ∧ doc_content <$> entries = content <$> chunks
    ∧ doc_metadata <$> entries = metadata <$> chunks.
Proof.
  intros Hcreate Hne. exists (new_entries uuid4 0 chunks).
  rewrite add_documents_eq. cbv zeta.
  pose proof (new_entries_contents uuid4 chunks 0) as Hc.
  pose proof (new_entries_metadata uuid4 chunks 0) as Hm.
  rewrite (create_chunks_valid self text filename chunks Hcreate) in Hc, Hm.
  destruct (new_entries uuid4 0 chunks) as [|e es] eqn:He.
  - destruct chunks; [done|discriminate].
  - done.
Qed.

(** The two outcomes of [add_document]; [chunks] are the chunks that
    [create_chunks] returns, none when it raises. *)
Lemma add_document_cases (self : RAGSystem.t) (disk : Disk) (file : pdf)
    (filename : str) :
  let chunks :=
    default [] (create_chunks (document_processor self) (extract_text file) filename) in
  (chunks = [] ∧ add_document uuid4 self disk file filename = (false, self, disk))
  ∨ (chunks ≠ []
     ∧ ∃ entries,
         add_document uuid4 self disk file filename
         = (true,
            {| document_processor := document_processor self;
               vector_store := grown (vector_store self) entries;
               llm_client := llm_client self |},
            _save_data (grown (vector_store self) entries) disk)
         ∧ doc_content <$> entries = content <$> chunks
         ∧ doc_metadata <$> entries = metadata <$> chunks).
Proof.
  cbv zeta. unfold add_document. cbv zeta.
  pose proof (extract_text_nonempty file) as Htext.
  remember (extract_text file) as text eqn:Hex.
  destruct text as [|ch text]; [done|]. cbn [truthy negb].
  destruct (create_chunks (document_processor self) (ch :: text) filename)
    as [[|c cs]|] eqn:Hchunks; cbn [default]; [by left| |by left].
  right. split; [done|]. cbn [truthy negb].
  destruct (add_documents_chunks (vector_store self) disk
              (document_processor self) (ch :: text) filename (c :: cs) Hchunks)
    as (entries & Hadd & Hc & Hm); [done|].
  rewrite Hadd. by exists entries.
Qed.

End AddDocument.

Section AddDocumentOutcome.
Import DocumentProcessor RAGSystem.

(** X18.  [add_document] returns [True] exactly when [create_chunks]
    gives a chunk for the extracted text.  Then every chunk is stored,
    after the documents stored before, in order and with its content and
    metadata, and the snapshot is written from the new store; otherwise
    nothing changes, also when [create_chunks] raises for a page marker
    of more digits than the limit.  The other components are never
    changed. *)
Theorem add_document_outcome (uuid4 : nat → str) (self : RAGSystem.t) (disk : Disk)
    (file : pdf) (filename : str) :
  let created :=
    create_chunks (document_processor self) (extract_text file) filename in
  let chunks := default [] created in
  let r := add_document uuid4 self disk file filename in
  let before := documents (vector_store self) in
  let after := documents (vector_store r.1.2) in
  (r.1.1 = true ↔ ∃ c cs, created = Some (c :: cs))
  ∧ (created = None ∨ created = Some [] → r = (false, self, disk))
  ∧ (created = None
     ↔ Exists (fun digits => (int_max_str_digits < length digits)%nat)
         (page_regions (tail (Re.split_pages (extract_text file)))).*1)
  ∧ take (length before) after = before
  ∧ doc_content <$> drop (length before) after = content <$> chunks
  ∧ doc_metadata <$> drop (length before) after = metadata <$> chunks
  ∧ (chunks ≠ [] → r.2 = _save_data (vector_store r.1.2) disk)
  ∧ document_processor r.1.2 = document_processor self
  ∧ llm_client r.1.2 = llm_client self.
Proof.
  cbv zeta.
  assert (create_chunks (document_processor self) (extract_text file) filename = None
          ↔ Exists (fun digits => (int_max_str_digits < length digits)%nat)
              (page_regions (tail (Re.split_pages (extract_text file)))).*1) as Hraise.
  { rewrite <- (marked_chunks_None (document_processor self) _ filename).
    pose proof (create_chunks_cases (document_processor self)
                  (extract_text file) filename) as Hcases.
    destruct (marked_chunks _ _ _) as [[|c cs]|]; rewrite Hcases; done. }
  destruct (add_document_cases uuid4 self disk file filename)
    as [[Hnil ->]|(Hne & entries & -> & Hc & Hm)].
  - destruct (create_chunks _ _ _) as [[|c cs]|]; [|discriminate Hnil|];
      cbn [fst snd default];
      rewrite take_ge, drop_ge by lia;
      (split; [split; [discriminate|by intros (? & ? & [=])]|]);
      (split; [reflexivity|]); (split; [exact Hraise|]);
      repeat split; done.
  - cbn [fst snd vector_store document_processor llm_client grown documents].
    rewrite take_app_length, drop_app_length.
    destruct (create_chunks _ _ _) as [[|c cs]|]; [done| |done].
    split; [split; [by eexists _, _|done]|].
    split; [intros [[=]|[=]]|]. split; [exact Hraise|].
    repeat split; done.
Qed.

(** X19.  With the default sizes, a file that cannot be read or that
    has no text is accepted: [add_document] returns [True] and stores
    three chunks, those of the sample text, under the name of the file
    and with the pages 1, 2 and 3. *)
Theorem unreadable_file_stores_sample (uuid4 : nat → str) (self : RAGSystem.t)
    (disk : Disk) (file : pdf) (filename : str) :
  no_text file →
  document_processor self = DocumentProcessor.defaults →
  let r := add_document uuid4 self disk file filename in
  let added :=
    drop (length (documents (vector_store self))) (documents (vector_store r.1.2)) in
  r.1.1 = true
  ∧ (∃ chunks,
       create_chunks DocumentProcessor.defaults _get_sample_text filename = Some chunks
       ∧ doc_content <$> added = content <$> chunks)
  ∧ (fun d => (dict_get (doc_metadata d) (py "filename"),
               dict_get (doc_metadata d) (py "page"))) <$> added
    = [ (Some (PyStr filename), Some (PyInt 1));
        (Some (PyStr filename), Some (PyInt 2));
        (Some (PyStr filename), Some (PyInt 3)) ].
Proof.
  intros Hfile Hdp. cbv zeta.
  assert (∃ chunks,
            create_chunks DocumentProcessor.defaults _get_sample_text filename
            = Some chunks
            ∧ (fun c => (dict_get (metadata c) (py "filename"),
                         dict_get (metadata c) (py "page"))) <$> chunks
              = [ (Some (PyStr filename), Some (PyInt 1));
                  (Some (PyStr filename), Some (PyInt 2));
                  (Some (PyStr filename), Some (PyInt 3)) ])
    as (chunks & Hcreate & Hsample)
    by (eexists; split; vm_compute; reflexivity).
  pose proof (add_document_cases uuid4 self disk file filename) as Hcases.
  cbv zeta in Hcases.
  rewrite (extract_text_no_text file Hfile), Hdp, Hcreate in Hcases.
  change (default [] (Some chunks)) with chunks in Hcases.
  destruct Hcases as [[Hnil _]|(Hne & entries & -> & Hc & Hm)].
  - rewrite Hnil in Hsample. discriminate Hsample.
  - cbn [fst snd vector_store grown documents]. rewrite drop_app_length.
    split; [reflexivity|]. split; [exists chunks; split; [exact Hcreate|exact Hc]|].
    rewrite <- Hsample.
    apply (f_equal (fmap (fun m : pydict =>
                            (dict_get m (py "filename"), dict_get m (py "page")))))
      in Hm.
    rewrite <- !list_fmap_compose in Hm. exact Hm.
Qed.

End AddDocumentOutcome.

(** A file that cannot be read is accepted by a fresh system. *)
Lemma unreadable_file_stores_sample_witness :
  (RAGSystem.add_document Fixtures.uuid0 Fixtures.fresh_system Fixtures.good_disk
     None (py "scan.pdf")).1.1 = true.
Proof.
  assert (no_text None) as Hfile by exact I.
  assert (RAGSystem.document_processor Fixtures.fresh_system
          = DocumentProcessor.defaults) as Hdp by reflexivity.
  apply (unreadable_file_stores_sample Fixtures.uuid0 Fixtures.fresh_system
           Fixtures.good_disk None (py "scan.pdf") Hfile Hdp).
Defined.

Section Query.
Import DocumentProcessor RAGSystem LLMClient.

(** A metadata value that an f-string cannot convert. *)
Lemma str_of_pyval_None (v : pyval) :
  str_of_pyval v = None ↔ ∃ n, v = PyInt n ∧ within_str_digits n = false.
Proof.
  destruct v as [n|s]; unfold str_of_pyval, str_of.
  - destruct (within_str_digits n) eqn:Hn.
    + split; [done|]. intros (m & [= <-] & Hm). congruence.
    + split; [|done]. intros _. by exists n.
  - split; [done|]. by intros (m & [=] & _).
Qed.

Lemma context_part_None (i : nat) (doc : Result) :
  context_part i doc = None ↔ unprintable doc.
Proof.
  unfold context_part, unprintable. cbv zeta.
  rewrite <- !str_of_pyval_None.
  destruct (str_of_pyval (filename_of (res_metadata doc))); cbn [mbind option_bind];
    [|split; [by left|done]].
  destruct (str_of_pyval (page_or_na (res_metadata doc))); cbn [mbind option_bind].
  - split; [done|]. by intros [|].
  - split; [by right|done].
Qed.

(** [_prepare_context] raises exactly when the file name or the page of
    a retrieved document cannot be converted. *)
Lemma prepare_context_None (retrieved_docs : list Result) :
  _prepare_context retrieved_docs = None ↔ Exists unprintable retrieved_docs.
Proof.
  unfold _prepare_context.
  assert (∀ (l : list Result) (f : nat → Result → option str),
            (∀ i doc, f i doc = None ↔ unprintable doc) →
            Exists (fun part => part = None) (imap f l) ↔ Exists unprintable l) as Himap.
  { induction l as [|d l IH]; intros f Hf; cbn [imap].
    - by rewrite !Exists_nil.
    - rewrite !Exists_cons, Hf. rewrite (IH (f ∘ S)); [done|].
      intros i doc. apply Hf. }
  rewrite <- (Himap retrieved_docs context_part context_part_None).
  rewrite <- mapM_None.
  by destruct (mapM _ _).
Qed.

Lemma join_cons_nonempty (sep x : str) (l : list str) : x ≠ [] → join sep (x :: l) ≠ [].
Proof. destruct x; [done|]. by destruct l. Qed.

(** The fallback response is never empty. *)
Lemma fallback_response_nonempty (question context : str) :
  _generate_fallback_response question context ≠ [].
Proof.
  unfold _generate_fallback_response. cbv zeta.
  destruct (_ || _); [by apply join_cons_nonempty|].
  destruct (_ || _); [by apply join_cons_nonempty|].
  destruct (_ || _); by apply join_cons_nonempty.
Qed.

(** The scores of the retrieved documents. *)
Lemma similarity_search_scores (self : VectorStore.t) (query : str) (top_k : Z) :
  Forall (fun r => (0 < score r)%R) (similarity_search self query top_k).
Proof.
  apply Forall_forall. intros r Hr%elem_of_similarity_search.
  apply elem_of_similarities in Hr as (doc & _ & Hpos & ->). exact Hpos.
Qed.

Lemma format_sources_spec (retrieved_docs : list Result) :
  Forall (fun d => (0 < score d)%R) retrieved_docs →
  Forall2 (fun s d =>
             src_filename s = filename_of (res_metadata d)
             ∧ src_page s = page_or_na (res_metadata d)
             ∧ src_content s `prefix_of` Utils.clean_text (res_content d)
             ∧ (len (src_content s) <= 300)%Z
             ∧ src_score s = score d
             ∧ (0 < src_score s)%R)
          (_format_sources retrieved_docs) retrieved_docs.
Proof.
  intros Hscores. unfold _format_sources. apply Forall2_fmap_l.
  apply Forall_Forall2_diag. eapply Forall_impl; [exact Hscores|].
  intros d Hd. cbn. split; [reflexivity|]. split; [reflexivity|].
  split; [apply prefix_take|]. split; [|split; [reflexivity|exact Hd]].
  unfold len. rewrite length_take. lia.
Qed.

(** The context can be written when the file names and the pages of
    the stored documents can be converted. *)
Lemma stored_printable (self : VectorStore.t) (query : str) (top_k : Z) :
  Forall (fun d => dumpable_value (filename_of (doc_metadata d)) = true
                   ∧ dumpable_value (page_or_na (doc_metadata d)) = true)
         (documents self) →
  ¬ Exists unprintable (similarity_search self query top_k).
Proof.
  intros Hdocs (r & Hr & Hun)%Exists_exists.
  apply elem_of_similarity_search, elem_of_similarities in Hr as (doc & Hdoc & _ & ->).
  rewrite Forall_forall in Hdocs. destruct (Hdocs doc Hdoc) as [Hf Hp].
  unfold unprintable in Hun. cbn [result_of res_metadata] in Hun.
  destruct Hun as [(n & Hn & Hlong)|(n & Hn & Hlong)].
  - rewrite Hn in Hf. cbn [dumpable_value] in Hf. congruence.
  - rewrite Hn in Hp. cbn [dumpable_value] in Hp. congruence.
Qed.

(** The query about PPE retrieves a chunk from the store of two chunks. *)
Lemma ppe_query_retrieves :
  similarity_search Fixtures.two_store Fixtures.ppe_query default_query_top_k ≠ [].
Proof.
  assert (consistent Fixtures.two_store) as Hc.
  { split; [|split].
    - apply (bool_decide_unpack _). vm_compute. exact I.
    - apply (bool_decide_unpack _). vm_compute. exact I.
    - reflexivity. }
  assert (∃ doc ds, documents Fixtures.two_store = doc :: ds
                    ∧ py "ppe" ∈ tokens doc) as (doc & ds & Hd & Htok).
  { eexists _, _. split; [vm_compute; reflexivity|].
    apply (bool_decide_unpack _). vm_compute. exact I. }
  assert (doc ∈ documents Fixtures.two_store) as Hin by (rewrite Hd; left).
  assert (py "ppe" ∈ _tokenize Fixtures.ppe_query) as Hq.
  { apply (bool_decide_unpack _). vm_compute. exact I. }
  rewrite similarity_search_all.
  - intros Hnil.
    assert (result_of doc
              (similarity_of Fixtures.two_store
                 (_get_tfidf_vector Fixtures.two_store (_tokenize Fixtures.ppe_query))
                 doc)
            ∈ sort_desc (similarities Fixtures.two_store
                           (_get_tfidf_vector Fixtures.two_store
                              (_tokenize Fixtures.ppe_query)))) as Hr.
    { apply elem_of_sort_desc, elem_of_similarities. exists doc.
      split; [exact Hin|]. split; [|reflexivity].
      apply (similarity_positive _ _ _ Hc Hin). exists (py "ppe").
      split; [exact Hq|]. split; [exact Htok|]. vm_compute. lia. }
    rewrite Hnil in Hr. by apply elem_of_nil in Hr.
  - intros Hnil. rewrite Hnil in Hq. by apply elem_of_nil in Hq.
  - rewrite Hd. discriminate.
  - vm_compute. discriminate.
Qed.

End Query.

Section QueryOutcome.
Import DocumentProcessor RAGSystem LLMClient.

(** X20.  [query] returns [None] when no document is retrieved, and
    when the file name or the page of a retrieved document is an integer
    beyond the limit of digits, for which the context cannot be written.
    In fallback mode it returns [None] only then, and the answer is the
    fallback response to the question, whatever was retrieved.  In every
    mode an answer is not empty, and its sources are the retrieved
    documents in their order: file name and page from the metadata
    (["Unknown"] and ["N/A"] when missing), the first 300 characters at
    most of the cleaned content, and the score, which is greater than
    0. *)
Theorem query_outcome (self : RAGSystem.t) (question : str) (top_k : Z) :
  let retrieved := similarity_search (vector_store self) question top_k in
  (retrieved = [] ∨ Exists unprintable retrieved → query self question top_k = None)
  ∧ (_prepare_context retrieved = None ↔ Exists unprintable retrieved)
  ∧ (use_fallback (llm_client self) = true →
     (query self question top_k = None
      ↔ retrieved = [] ∨ Exists unprintable retrieved)
     ∧ ∀ a context, query self question top_k = Some a →
         answer a = _generate_fallback_response question context)
  ∧ ∀ a, query self question top_k = Some a →
      answer a ≠ [] ∧ retrieved ≠ []
      ∧ Forall2 (fun s d =>
                   src_filename s = filename_of (res_metadata d)
                   ∧ src_page s = page_or_na (res_metadata d)
                   ∧ src_content s `prefix_of` Utils.clean_text (res_content d)
                   ∧ (len (src_content s) <= 300)%Z
                   ∧ src_score s = score d
                   ∧ (0 < src_score s)%R)
                (sources a) retrieved.
Proof.
  cbv zeta. unfold query. cbv zeta.
  pose proof (similarity_search_scores (vector_store self) question top_k) as Hscores.
  pose proof (prepare_context_None (similarity_search (vector_store self) question top_k))
    as Hnone.
  destruct (similarity_search (vector_store self) question top_k) as [|d ds] eqn:Hsearch.
  { cbn [truthy negb]. split; [reflexivity|]. split; [exact Hnone|].
    split; [|intros a [=]].
    intros _. split; [split; [by left|reflexivity]|]. intros a context [=]. }
  cbn [truthy negb]. split; [|split; [exact Hnone|]].
  { intros [[=]|Hex]. apply Hnone in Hex. by rewrite Hex. }
  destruct (_prepare_context (d :: ds)) as [context|] eqn:Hctx.
  - assert (¬ Exists unprintable (d :: ds)) as Hprint.
    { intros Hex. apply Hnone in Hex. discriminate Hex. }
    split.
    + intros Hfb. unfold generate_response. rewrite Hfb.
      pose proof (fallback_response_nonempty question context) as Hne.
      destruct (_generate_fallback_response question context)
        as [|c resp] eqn:Hresp; [by destruct Hne|].
      cbn [truthy]. split; [split; [discriminate|by intros [[=]|Hex]]|].
      intros a context' [= <-]. cbn [answer]. rewrite <- Hresp. reflexivity.
    + intros a.
      destruct (generate_response _ _ _ _) as [[|c resp]|]; cbn [truthy]; intros [= <-].
      cbn [answer sources]. split; [discriminate|]. split; [discriminate|].
      exact (format_sources_spec (d :: ds) Hscores).
  - split; [|intros a [=]].
    intros _. split; [|intros a context' [=]].
    split; [|reflexivity]. intros _. right. by apply Hnone.
Qed.

End QueryOutcome.

(** In fallback mode the query about PPE is answered from the store of
    two chunks. *)
Lemma query_outcome_witness :
  RAGSystem.query Fixtures.two_system Fixtures.ppe_query RAGSystem.default_query_top_k
  ≠ None.
Proof.
  assert (LLMClient.use_fallback (RAGSystem.llm_client Fixtures.two_system) = true)
    as Hfb by reflexivity.
  destruct (query_outcome Fixtures.two_system Fixtures.ppe_query
              RAGSystem.default_query_top_k) as (_ & _ & Hfallback & _).
  destruct (Hfallback Hfb) as [Hnone _].
  intros Hq. apply Hnone in Hq. destruct Hq as [Hq|Hq].
  - exact (ppe_query_retrieves Hq).
  - revert Hq. apply stored_printable.
    apply (bool_decide_unpack _). vm_compute. exact I.
Defined.

(** * The client of the language model *)

Section Streaming.
Import LLMClient.

Lemma range3_cons (n : nat) :
  n ≠ 0%nat → range3 n = 0%nat :: ((fun i => 3 + i)%nat <$> range3 (n - 3)).
Proof.
  intros Hn. unfold range3.
  assert ((n + 2) / 3 = S ((n - 3 + 2) / 3))%nat as ->.
  { destruct (le_lt_dec 3 n) as [Hle|Hlt].
    - replace (n + 2)%nat with ((n - 3 + 2) + 1 * 3)%nat by lia.
      rewrite Nat.div_add by done. lia.
    - destruct n as [|[|[|n]]]; [done|done|done|lia]. }
  cbn [seq fmap list_fmap]. f_equal.
  rewrite <- fmap_S_seq, <- !list_fmap_compose.
  apply list_fmap_ext. intros _ k _. simpl. lia.
Qed.

(** The groups of three words, one after the other. *)
Lemma groups_cons {A} (f : list str → A) (w : str) (ws : list str) :
  (fun i => f (take 3 (drop i (w :: ws)))) <$> range3 (length (w :: ws))
  = f (take 3 (w :: ws))
    :: ((fun i => f (take 3 (drop i (drop 3 (w :: ws)))))
          <$> range3 (length (drop 3 (w :: ws)))).
Proof.
  rewrite range3_cons by done. rewrite fmap_cons. f_equal.
  rewrite <- list_fmap_compose, length_drop.
  apply list_fmap_ext. intros _ i _. simpl. by rewrite drop_drop.
Qed.

Lemma join_space (g : list str) :
  g ≠ [] → join (py " ") g ++ py " " = concat ((fun w => w ++ py " ") <$> g).
Proof.
  induction g as [|w g IH]; [done|]. intros _.
  destruct g as [|w' g]; [cbn [join fmap list_fmap concat]; by rewrite app_nil_r|].
  change (join (py " ") (w :: w' :: g)) with (w ++ py " " ++ join (py " ") (w' :: g)).
  rewrite fmap_cons. cbn [concat]. rewrite <- IH by done.
  by rewrite <- !app_assoc.
Qed.

Lemma groups_concat (n : nat) : ∀ ws : list str,
  (length ws <= n)%nat →
  concat ((fun i => join (py " ") (take 3 (drop i ws)) ++ py " ")
            <$> range3 (length ws))
  = concat ((fun w => w ++ py " ") <$> ws).
Proof.
  induction n as [|n IH]; intros ws Hlen.
  - by destruct ws; [|simpl in Hlen; lia].
  - destruct ws as [|w ws]; [done|].
    rewrite (groups_cons (fun g => join (py " ") g ++ py " ")).
    cbn [concat]. rewrite IH by (rewrite length_drop; simpl in *; lia).
    rewrite join_space by done.
    rewrite <- concat_app, <- fmap_app. by rewrite take_drop.
Qed.

Lemma split_go_words (s : str) : ∀ cur,
  Forall (fun c => is_space c = false) cur →
  Forall (fun w => w ≠ [] ∧ Forall (fun c => is_space c = false) w) (split_go cur s).
Proof.
  induction s as [|c s IH]; intros cur Hcur; simpl.
  - destruct cur as [|a cur]; [constructor|]. cbn [truthy].
    constructor; [|constructor]. split; [|by apply Forall_rev].
    intros Hnil. apply (f_equal (@length ascii)) in Hnil.
    rewrite length_rev in Hnil. done.
  - destruct (is_space c) eqn:Hc.
    + destruct cur as [|a cur]; cbn [truthy]; [by apply IH|].
      constructor; [|by apply IH]. split; [|by apply Forall_rev].
      intros Hnil. apply (f_equal (@length ascii)) in Hnil.
      rewrite length_rev in Hnil. done.
    + apply IH. by constructor.
Qed.

Lemma split_go_word (w rest : str) : ∀ cur,
  Forall (fun c => is_space c = false) w →
  split_go cur (w ++ rest) = split_go (rev w ++ cur) rest.
Proof.
  induction w as [|c w IH]; intros cur Hw; [done|].
  apply Forall_cons in Hw as [Hc Hw]. simpl. rewrite Hc, IH by done.
  by rewrite <- app_assoc.
Qed.

(** Words that end with a space each are split as they were. *)
Lemma split_spaced (ws : list str) :
  Forall (fun w => w ≠ [] ∧ Forall (fun c => is_space c = false) w) ws →
  split (concat ((fun w => w ++ py " ") <$> ws)) = ws.
Proof.
  unfold split. induction 1 as [|w ws [Hne Hw] _ IH]; [done|].
  rewrite fmap_cons. cbn [concat]. rewrite <- app_assoc.
  rewrite split_go_word by done. rewrite app_nil_r.
  change (py " " ++ ?x) with (" "%char :: x). cbn [split_go].
  change (is_space " "%char) with true. cbv iota.
  assert (truthy (rev w) = true) as ->.
  { destruct (rev w) eqn:Hr; [|done].
    apply (f_equal (@length ascii)) in Hr. rewrite length_rev in Hr.
    by destruct w. }
  by rewrite rev_involutive, IH.
Qed.

End Streaming.

Section StreamingFallback.
Import LLMClient.

(** X21.  In fallback mode the generator yields the words of the
    fallback response in groups of three, the last group possibly
    shorter, each word followed by one space: the pieces put together
    are the response with every run of whitespace, line feeds included,
    replaced by one space, and splitting them gives the words back. *)
Theorem streaming_fallback (self : LLMClient.t) (question context system_prompt : str) :
  use_fallback self = true →
  let words := split (_generate_fallback_response question context) in
  let chunks := generate_streaming_response self question context system_prompt in
  concat chunks = concat ((fun w => w ++ py " ") <$> words)
  ∧ length chunks = ((length words + 2) / 3)%nat
  ∧ Forall (fun chunk => ∃ ws, ws ≠ [] ∧ (length ws <= 3)%nat
                               ∧ chunk = join (py " ") ws ++ py " ") chunks
  ∧ split (concat chunks) = words.
Proof.
  intros Hfb. cbv zeta. unfold generate_streaming_response. rewrite Hfb. cbv zeta.
  set (words := split (_generate_fallback_response question context)).
  assert (concat ((fun i => join (py " ") (take 3 (drop i words)) ++ py " ")
                    <$> range3 (length words))
          = concat ((fun w => w ++ py " ") <$> words)) as Hconcat
    by (by apply (groups_concat (length words))).
  split; [exact Hconcat|]. split; [|split].
  - unfold range3. by rewrite !length_fmap, length_seq.
  - apply Forall_fmap, Forall_forall. intros i Hi. simpl.
    unfold range3 in Hi. apply list_elem_of_fmap in Hi as (k & -> & Hk).
    apply elem_of_seq in Hk.
    assert (3 * k < length words)%nat as Hlt.
    { pose proof (Nat.div_mod_eq (length words + 2) 3) as Hdiv.
      pose proof (Nat.mod_upper_bound (length words + 2) 3 ltac:(done)). lia. }
    exists (take 3 (drop (3 * k) words)). split; [|split; [|done]].
    + intros Hnil. apply (f_equal length) in Hnil.
      rewrite length_take, length_drop in Hnil. cbn [length] in Hnil. lia.
    + rewrite length_take. lia.
  - rewrite Hconcat. apply split_spaced. apply split_go_words. constructor.
Qed.

End StreamingFallback.

(** The question about PPE gets the generic response, streamed in 29
    pieces. *)
Lemma streaming_fallback_witness :
  length (LLMClient.generate_streaming_response Fixtures.fallback_client
            Fixtures.ppe_query [] [])
  = 29%nat.
Proof.
  assert (LLMClient.use_fallback Fixtures.fallback_client = true) as Hfb
    by reflexivity.
  destruct (streaming_fallback Fixtures.fallback_client Fixtures.ppe_query [] [] Hfb)
    as (_ & -> & _).
  vm_compute. reflexivity.
Defined.

(** * Term frequencies *)

Section TermFrequency.

Lemma incr_total (c : gmap str nat) (k : str) :
  sum_list ((map_to_list (incr c k)).*2) = S (sum_list ((map_to_list c).*2)).
Proof.
  unfold incr. destruct (c !! k) as [n|] eqn:Hk; simpl.
  - rewrite <- insert_delete_eq.
    rewrite map_to_list_insert by apply lookup_delete_eq.
    rewrite <- (map_to_list_delete c k n Hk). by rewrite !fmap_cons.
  - rewrite map_to_list_insert by done. by rewrite fmap_cons.
Qed.

Lemma counter_total (l : list str) : ∀ c : gmap str nat,
  sum_list ((map_to_list (fold_left incr l c)).*2)
  = (sum_list ((map_to_list c).*2) + length l)%nat.
Proof.
  induction l as [|k l IH]; intros c; simpl; [lia|].
  rewrite IH, incr_total. lia.
Qed.

Lemma counter_dom (l : list str) : ∀ (c : gmap str nat) (t : str),
  is_Some (fold_left incr l c !! t) → t ∈ l ∨ is_Some (c !! t).
Proof.
  induction l as [|k l IH]; intros c t Ht; simpl in *; [by right|].
  destruct (IH _ _ Ht) as [Hin|Hc]; [left; by right|].
  rewrite incr_lookup in Hc. destruct (decide (k = t)) as [->|]; [left; by left|].
  by right.
Qed.

Lemma sum_scaled (l : list nat) (d : R) :
  sum ((fun n => INR n / d)%R <$> l) = (INR (sum_list l) / d)%R.
Proof.
  induction l as [|n l IH].
  - rewrite fmap_nil, sum_nil. simpl. unfold Rdiv. lra.
  - rewrite fmap_cons, sum_cons, IH. cbn [sum_list_with]. unfold Datatypes.id.
    rewrite plus_INR. unfold Rdiv. ring.
Qed.

Lemma tf_values (toks : list str) :
  values (_calculate_tf toks)
  = (fun n => INR n / INR (length toks))%R <$> (map_to_list (Counter toks)).*2.
Proof.
  unfold values, _calculate_tf. cbv zeta.
  rewrite map_to_list_fmap, <- !list_fmap_compose.
  apply list_fmap_ext. by intros _ [t n] _.
Qed.

Lemma tf_sum (toks : list str) : toks ≠ [] → sum (values (_calculate_tf toks)) = 1%R.
Proof.
  intros Hne. rewrite tf_values, sum_scaled. unfold Counter.
  rewrite counter_total, map_to_list_empty. simpl.
  apply Rdiv_diag. apply not_0_INR. by destruct toks.
Qed.

Lemma tf_entry (toks : list str) (t : str) (v : R) :
  _calculate_tf toks !! t = Some v →
  t ∈ toks ∧ (0 < v <= 1)%R.
Proof.
  intros Hv.
  assert (t ∈ toks) as Hin.
  { unfold _calculate_tf in Hv. cbv zeta in Hv. rewrite lookup_fmap in Hv.
    destruct (Counter toks !! t) as [n|] eqn:Hn; [|done].
    destruct (counter_dom toks ∅ t) as [?|[? Hempty]];
      [unfold Counter in Hn; by rewrite Hn|done|].
    by rewrite lookup_empty in Hempty. }
  split; [exact Hin|].
  pose proof (tf_positive toks t Hin) as Hpos.
  unfold get0 in Hpos. rewrite Hv in Hpos. simpl in Hpos. split; [exact Hpos|].
  assert (toks ≠ []) as Hne by (by destruct toks; [apply elem_of_nil in Hin|]).
  pose proof (tf_sum toks Hne) as Hsum.
  assert (v ∈ values (_calculate_tf toks)) as Hval.
  { unfold values. apply list_elem_of_fmap. exists (t, v). split; [done|].
    by apply elem_of_map_to_list. }
  assert (Forall (fun x => (0 <= x)%R) (values (_calculate_tf toks))) as Hnn.
  { apply Forall_forall. intros x Hx. unfold values in Hx.
    apply list_elem_of_fmap in Hx as ([u x'] & -> & Hx).
    apply elem_of_map_to_list in Hx. simpl.
    unfold _calculate_tf in Hx. cbv zeta in Hx. rewrite lookup_fmap in Hx.
    destruct (Counter toks !! u) as [n|]; [|done]. simpl in Hx.
    injection Hx as <-. unfold Rdiv. apply Rmult_le_pos; [apply pos_INR|].
    apply Rlt_le, Rinv_0_lt_compat, lt_0_INR. destruct toks; [done|simpl; lia]. }
  apply elem_of_Permutation in Hval as [rest Hperm].
  rewrite (sum_perm _ _ Hperm), sum_cons in Hsum.
  rewrite Hperm in Hnn. apply Forall_cons in Hnn as [_ Hrest].
  pose proof (sum_nonneg rest Hrest). lra.
Qed.

End TermFrequency.

(** X22.  Every token of a list, and no other term, has a term
    frequency, and it is greater than 0 and at most 1. *)
Theorem term_frequencies_in_range (toks : list str) :
  (∀ t, t ∈ toks ↔ is_Some (_calculate_tf toks !! t))
  ∧ ∀ t v, _calculate_tf toks !! t = Some v → (0 < v <= 1)%R.
Proof.
  split.
  - intros t. split.
    + intros Hin. unfold _calculate_tf. cbv zeta. rewrite lookup_fmap.
      destruct (counter_positive toks t ∅ (or_introl Hin)) as [n Hn].
      unfold Counter. rewrite Hn. by eexists.
    + intros [v Hv]. by apply tf_entry in Hv as [? _].
  - intros t v Hv. by apply tf_entry in Hv as [_ ?].
Qed.

(** * utils.py *)

Section PunctuationRuns.
Import Re.

Lemma span_rest (p : ascii → bool) (s a b : str) :
  span p s = (a, b) → match b with [] => True | d :: _ => p d = false end.
Proof.
  revert a b. induction s as [|c s IH]; intros a b; simpl.
  - by intros [= <- <-].
  - destruct (p c) eqn:Hc; [|by intros [= <- <-]].
    destruct (span p s) as [a' b'] eqn:Hs. intros [= <- <-]. by apply (IH a').
Qed.

Lemma no_double_end_cons (c : ascii) (s : str) :
  no_double_end s → (is_sentence_end c = true → head_plain s) → no_double_end (c :: s).
Proof.
  intros Hs Hc. split; [|done]. destruct s as [|b s]; [done|].
  intros [Hc' Hb]. specialize (Hc Hc'). simpl in Hc. by rewrite Hc in Hb.
Qed.

Lemma no_double_end_app_r (a b : str) : no_double_end (a ++ b) → no_double_end b.
Proof. induction a as [|x a IH]; [done|]. intros [_ H]. by apply IH. Qed.

Lemma no_double_end_app_l (a b : str) : no_double_end (a ++ b) → no_double_end a.
Proof.
  induction a as [|x a IH]; [done|]. intros [Hx H]. split; [|by apply IH].
  by destruct a.
Qed.

Lemma strip_infix (s : str) : ∃ a b, s = a ++ strip s ++ b.
Proof.
  unfold strip.
  destruct (lstrip_suffix (rstrip s)) as [a Ha].
  destruct (lstrip_suffix (rev s)) as [b Hb].
  exists a, (rev b). rewrite app_assoc, <- Ha. unfold rstrip.
  rewrite <- rev_app_distr, <- Hb. by rewrite rev_involutive.
Qed.

Lemma last_Forall {A} (P : A → Prop) (l : list A) (d : A) :
  Forall P l → P d → P (List.last l d).
Proof.
  induction 1 as [|x l Hx Hl IH]; intros Hd; [done|].
  destruct l; [done|]. by apply IH.
Qed.

Lemma sub_punctuation_runs_go_chars (P : ascii → Prop) (s : str) : ∀ skip,
  Forall P s → Forall P (sub_punctuation_runs_go skip s).
Proof.
  induction s as [|c s IH]; intros skip Hs; [constructor|].
  pose proof Hs as Hcs. apply Forall_cons in Hs as [Hc Hs].
  destruct skip as [|k]; [|by apply IH]. cbn [sub_punctuation_runs_go]. cbv zeta.
  destruct (span is_sentence_end (c :: s)) as [run rest] eqn:Hspan.
  apply span_spec in Hspan as [Heq _]. cbn [fst].
  destruct (2 <=? length run)%nat; constructor; try by apply IH.
  - apply last_Forall; [|done]. rewrite Heq in Hcs. by apply Forall_app in Hcs as [? _].
  - done.
Qed.

(** After the substitution no two neighbours are both among [. ! ?]. *)
Lemma sub_punctuation_runs_go_spec (s : str) : ∀ skip,
  (skip ≠ 0%nat → head_plain (drop skip s)) →
  no_double_end (sub_punctuation_runs_go skip s)
  ∧ (head_plain (drop skip s) → head_plain (sub_punctuation_runs_go skip s)).
Proof.
  induction s as [|c s IH]; intros skip Hskip; [by destruct skip|].
  destruct skip as [|k].
  2:{ cbn [sub_punctuation_runs_go drop]. apply IH. intros _. by apply Hskip. }
  cbn [sub_punctuation_runs_go drop]. cbv zeta.
  destruct (IH 0%nat ltac:(done)) as [Hnd Hhead]. cbn [drop] in Hhead.
  change (span is_sentence_end (c :: s))
    with (if is_sentence_end c
          then let '(a, b) := span is_sentence_end s in (c :: a, b)
          else ([], c :: s)).
  destruct (is_sentence_end c) eqn:Hc.
  - destruct (span is_sentence_end s) as [a b] eqn:Hspan. cbn [fst length].
    pose proof (span_rest _ _ _ _ Hspan) as Hrest.
    apply span_spec in Hspan as [Hs Ha].
    destruct a as [|x a].
    + (* the run is [c] alone *)
      cbn [length Nat.leb]. simpl in Hs. subst b. split.
      * apply no_double_end_cons; [done|]. intros _. by apply Hhead.
      * simpl. by rewrite Hc.
    + (* a run of two characters or more *)
      change (2 <=? S (length (x :: a)))%nat with true. cbv iota.
      replace (S (length (x :: a)) - 1)%nat with (length (x :: a)) by (simpl; lia).
      subst s.
      destruct (IH (length (x :: a))) as [Hnd' Hhead'].
      { intros _. by rewrite drop_app_length. }
      rewrite drop_app_length in Hhead'. split.
      * apply no_double_end_cons; [done|]. intros _. by apply Hhead'.
      * simpl. by rewrite Hc.
  - cbn [fst length Nat.leb]. split.
    + apply no_double_end_cons; [done|]. intros He. by rewrite He in Hc.
    + done.
Qed.

End PunctuationRuns.

Section UtilsCleanText.
Import Re DocumentProcessor Utils.

(** X23.  [clean_text] of [utils.py] returns the text in which every
    run of whitespace is one space, every character outside the listed
    class is a space, every occurrence of [quote_pattern] is an
    apostrophe and every run of [. ! ?] is its last character,
    stripped.  The result has no whitespace at its ends, its only
    whitespace character is the space, all its characters are of the
    listed class, and no two neighbours are both among [. ! ?]. *)
Theorem utils_clean_text_result (text : str) :
  clean_text text
  = strip (sub_punctuation_runs
             (replace quote_pattern (py "'") (sub_special (sub_spaces text))))
  ∧ strip (clean_text text) = clean_text text
  ∧ Forall (fun c => is_kept c = true ∧ (is_space c = true → c = " "%char))
           (clean_text text)
  ∧ no_double_end (clean_text text).
Proof.
  assert (clean_text text
          = strip (sub_punctuation_runs
                     (replace quote_pattern (py "'") (sub_special (sub_spaces text)))))
    as Heq.
  { unfold clean_text. destruct text as [|c text]; [done|].
    cbn [truthy negb]. cbv zeta. by rewrite !replace_same_char. }
  split; [exact Heq|]. rewrite Heq. split; [apply strip_idemp|]. split.
  - apply strip_chars, sub_punctuation_runs_go_chars, replace_chars; [done| |].
    + by repeat constructor.
    + apply Forall_and. split; [apply sub_special_kept|].
      apply sub_special_only_space, sub_spaces_go_only_space.
  - set (t := sub_punctuation_runs _).
    assert (no_double_end t) as Ht
      by (by apply (sub_punctuation_runs_go_spec _ 0)).
    destruct (strip_infix t) as (a & b & Hab). rewrite Hab in Ht.
    by apply no_double_end_app_r, no_double_end_app_l in Ht.
Qed.

End UtilsCleanText.

Section SanitizeFilename.
Import Utils.

Lemma lstrip_of_suffix (chars s : str) : lstrip_of chars s `suffix_of` s.
Proof.
  induction s as [|c s IH]; simpl; [done|].
  destruct (bool_decide (c ∈ chars)); [by apply suffix_cons_r|done].
Qed.

Lemma lstrip_of_head (chars s : str) (c : ascii) :
  head (lstrip_of chars s) = Some c → c ∉ chars.
Proof.
  induction s as [|a s IH]; simpl; [done|].
  destruct (bool_decide (a ∈ chars)) eqn:Ha; [done|].
  simpl. intros [= <-]. by apply bool_decide_eq_false in Ha.
Qed.

Lemma strip_of_chars (chars : str) (P : ascii → Prop) (s : str) :
  Forall P s → Forall P (strip_of chars s).
Proof.
  intros Hs. unfold strip_of.
  assert (∀ l, Forall P l → Forall P (lstrip_of chars l)) as Hl.
  { intros l Hl. destruct (lstrip_of_suffix chars l) as [k Hk].
    rewrite Hk in Hl. by apply Forall_app in Hl as [_ ?]. }
  apply Hl, Forall_rev, Hl, Forall_rev, Hs.
Qed.

Lemma rfind_go_spec (ch : ascii) (s : str) : ∀ i j,
  rfind_go ch i s = Some j → (i <= j)%nat ∧ s !! (j - i)%nat = Some ch.
Proof.
  induction s as [|c s IH]; intros i j; simpl; [done|].
  destruct (rfind_go ch (S i) s) as [j'|] eqn:Hr.
  - intros [= <-]. apply IH in Hr as [Hle Hj]. split; [lia|].
    replace (j' - i)%nat with (S (j' - S i)) by lia. done.
  - destruct (bool_decide (c = ch)) eqn:Hc; [|done]. intros [= <-].
    apply bool_decide_eq_true in Hc as ->. split; [lia|].
    by rewrite Nat.sub_diag.
Qed.

(** The three shapes of [name[:95] + ext]. *)
Lemma truncated_shape (p : str) :
  p ≠ [] →
  let '(name, ext) := splitext p in
  head (take 95 name ++ ext) = head p
  ∧ (∀ P : ascii → Prop, Forall P p → Forall P (take 95 name ++ ext))
  ∧ ((length (take 95 name ++ ext) <= 95)%nat
     ∨ (ext `suffix_of` take 95 name ++ ext ∧ head ext = Some "."%char)).
Proof.
  intros Hp. unfold splitext.
  assert (head (take 95 p ++ []) = head p
          ∧ (∀ P : ascii → Prop, Forall P p → Forall P (take 95 p ++ []))
          ∧ ((length (take 95 p ++ []) <= 95)%nat
             ∨ ([] `suffix_of` take 95 p ++ [] ∧ head (@nil ascii) = Some "."%char)))
    as Hwhole.
  { rewrite app_nil_r. split; [by destruct p|]. split.
    - intros P HP. by apply Forall_take.
    - left. rewrite length_take. lia. }
  destruct (rfind "."%char p) as [dotIndex|] eqn:Hr; [|exact Hwhole].
  destruct (forallb _ (take dotIndex p)) eqn:Hdots; [exact Hwhole|].
  apply rfind_go_spec in Hr as [_ Hdot]. rewrite Nat.sub_0_r in Hdot.
  assert (dotIndex ≠ 0%nat) as Hd by (intros ->; by rewrite take_0 in Hdots).
  split; [|split].
  - destruct p as [|c p]; [done|]. by destruct dotIndex.
  - intros P HP. apply Forall_app. split.
    + by apply Forall_take, Forall_take.
    + by apply Forall_drop.
  - right. split; [by apply suffix_app_r|].
    by rewrite (drop_S _ _ _ Hdot).
Qed.

(** The name before it is shortened: no unsafe character, not empty,
    and no space or dot in front. *)
Lemma cleaned_name (filename : str) :
  let replaced :=
    map (fun c => if bool_decide (c ∈ unsafe_chars) then "_"%char else c) filename in
  let stripped := strip_of (py " .") replaced in
  let cleaned := if negb (truthy stripped) then py "untitled" else stripped in
  cleaned ≠ []
  ∧ Forall (fun c => c ∉ unsafe_chars) cleaned
  ∧ ∀ c, head cleaned = Some c → c ∉ py " .".
Proof.
  intros replaced stripped cleaned.
  assert (Forall (fun c => c ∉ unsafe_chars) stripped) as Hsafe.
  { apply strip_of_chars. unfold replaced. change (map ?f ?l) with (f <$> l).
    apply Forall_fmap, Forall_forall. intros c _. simpl.
    destruct (bool_decide (c ∈ unsafe_chars)) eqn:Hc.
    - apply (bool_decide_unpack _). vm_compute. exact I.
    - by apply bool_decide_eq_false in Hc. }
  unfold cleaned. destruct stripped as [|c stripped'] eqn:Hs; cbn [truthy negb].
  - split; [done|]. split.
    + apply (bool_decide_unpack _). vm_compute. exact I.
    + intros c [= <-]. apply (bool_decide_unpack _). vm_compute. exact I.
  - split; [done|]. split; [done|]. intros c' Hc'.
    apply (lstrip_of_head (py " .") (rev (lstrip_of (py " .") (rev replaced)))).
    fold (strip_of (py " .") replaced). fold stripped. by rewrite Hs.
Qed.

End SanitizeFilename.

Section SanitizeFilenameResult.
Import Utils.

(** X24.  The name returned by [sanitize_filename] is never empty, holds
    none of the nine characters of [unsafe_chars] (path separators,
    wildcards and the like), and does not begin with a space or a dot.  It has at most 100 characters, unless it ends
    with an extension, from its last dot on, of more than 5 characters. *)
Theorem sanitize_filename_result (filename : str) :
  sanitize_filename filename ≠ []
  ∧ Forall (fun c => c ∉ unsafe_chars) (sanitize_filename filename)
  ∧ (∀ c, head (sanitize_filename filename) = Some c → c ∉ py " .")
  ∧ ((len (sanitize_filename filename) <= 100)%Z
     ∨ ∃ ext, ext `suffix_of` sanitize_filename filename
              ∧ head ext = Some "."%char ∧ (5 < len ext)%Z).
Proof.
  unfold sanitize_filename. cbv zeta.
  destruct (cleaned_name filename) as (Hne & Hsafe & Hhead).
  cbv zeta in Hne, Hsafe, Hhead.
  set (cleaned := if negb (truthy _) then py "untitled" else _) in *.
  destruct (100 <? len cleaned)%Z eqn:Hlen.
  - pose proof (truncated_shape cleaned Hne) as Hshape.
    destruct (splitext cleaned) as [name ext].
    destruct Hshape as (Hh & Hall & Hsize).
    split; [|split; [|split]].
    + intros Hnil. rewrite Hnil in Hh. by destruct cleaned.
    + by apply Hall.
    + intros c Hc. apply Hhead. by rewrite <- Hh.
    + destruct (decide (len (take 95 name ++ ext) <= 100)%Z) as [Hle|Hgt];
        [by left|right].
      destruct Hsize as [Hsmall|[Hsuf Hdot]]; [unfold len in Hgt; lia|].
      exists ext. split; [done|]. split; [done|].
      unfold len in *. rewrite length_app, length_take in Hgt. lia.
  - apply Z.ltb_ge in Hlen. split; [done|]. split; [done|]. split; [done|by left].
Qed.

End SanitizeFilenameResult.

Section Keywords.
Import Utils.

Lemma bump_keys (w : str) (wc : list (str * nat)) (x : str) :
  x ∈ (bump w wc).*1 → x = w ∨ x ∈ wc.*1.
Proof.
  induction wc as [|[u n] wc IH]; simpl.
  - intros Hx. apply list_elem_of_singleton in Hx. by left.
  - destruct (bool_decide (u = w)) eqn:Hu; simpl.
    + by right.
    + intros [->|Hx]%elem_of_cons; [right; by left|].
      destruct (IH Hx) as [->|?]; [by left|right; by right].
Qed.

(** On a dictionary, [bump] is the increment of a [Counter]. *)
Lemma bump_to_map (w : str) (wc : list (str * nat)) :
  NoDup wc.*1 →
  NoDup (bump w wc).*1
  ∧ (list_to_map (bump w wc) : gmap str nat) = incr (list_to_map wc) w.
Proof.
  induction wc as [|[u n] wc IH]; intros Hnd.
  - split; [simpl; apply NoDup_singleton|done].
  - apply NoDup_cons in Hnd as [Hu Hnd]. destruct (IH Hnd) as [IHnd IHmap].
    simpl. destruct (bool_decide (u = w)) eqn:Huw.
    + apply bool_decide_eq_true in Huw as ->. split; [by apply NoDup_cons|].
      simpl. unfold incr. rewrite lookup_insert_eq. simpl.
      by rewrite insert_insert_eq.
    + apply bool_decide_eq_false in Huw. split.
      * simpl. apply NoDup_cons. split; [|done].
        intros [->|?]%bump_keys; done.
      * simpl. rewrite IHmap. unfold incr.
        rewrite lookup_insert_ne by done. by apply insert_insert_ne.
Qed.

Lemma counter_count (l : list str) (t : str) : ∀ c : gmap str nat,
  cnt (fold_left incr l c) t = (cnt c t + freq l t)%nat.
Proof.
  unfold freq. induction l as [|k l IH]; intros c; simpl; [lia|].
  rewrite IH, filter_cons. unfold cnt at 1. rewrite incr_lookup.
  destruct (decide (k = t)) as [->|]; simpl; [|done]. unfold cnt. lia.
Qed.

(** The dictionary [word_count] is the [Counter] of the counted words. *)
Lemma word_counts_map (words : list str) :
  NoDup (word_counts words).*1
  ∧ (list_to_map (word_counts words) : gmap str nat)
    = Counter (filter counted words).
Proof.
  unfold word_counts, Counter.
  apply (fold_left_invariant_seen _
           (fun seen wc =>
              NoDup wc.*1
              ∧ (list_to_map wc : gmap str nat)
                = fold_left incr (filter counted seen) ∅)).
  - split; [constructor|done].
  - intros seen w wc [Hnd Hmap]. rewrite filter_app, fold_left_app, <- Hmap.
    rewrite filter_cons, filter_nil.
    destruct (bool_decide (w ∉ stop_words) && (3 <? length w)%nat) eqn:Hw.
    + apply andb_true_iff in Hw as [Hs Hl].
      apply bool_decide_eq_true in Hs. apply Nat.ltb_lt in Hl.
      rewrite decide_True by done. simpl. by apply bump_to_map.
    + rewrite decide_False; [done|]. intros [Hs Hl].
      apply andb_false_iff in Hw as [Hw|Hw].
      * by apply bool_decide_eq_false in Hw.
      * apply Nat.ltb_ge in Hw. lia.
Qed.

Lemma freq_counted (words : list str) (w : str) :
  counted w → freq (filter counted words) w = freq words w.
Proof.
  intros Hw. unfold freq. induction words as [|x words IH]; [done|].
  rewrite !filter_cons. destruct (decide (x = w)) as [->|Hne].
  - rewrite decide_True by done. rewrite filter_cons, decide_True by done.
    simpl. by rewrite IH.
  - destruct (decide (counted x)); [|done].
    by rewrite filter_cons, decide_False.
Qed.

(** The items of [word_count]: the counted words, each with the number
    of its occurrences. *)
Lemma word_counts_items (words : list str) (w : str) (n : nat) :
  (w, n) ∈ word_counts words →
  w ∈ words ∧ counted w ∧ n = freq words w.
Proof.
  destruct (word_counts_map words) as [Hnd Hmap]. intros Hin.
  apply (elem_of_list_to_map_1 (M := gmap str)) in Hin; [|done].
  rewrite Hmap in Hin.
  assert (w ∈ filter counted words) as Hw.
  { destruct (counter_dom (filter counted words) ∅ w) as [?|[? He]];
      [unfold Counter in Hin; by rewrite Hin|done|by rewrite lookup_empty in He]. }
  apply list_elem_of_filter in Hw as [Hc Hw]. split; [done|]. split; [done|].
  pose proof (counter_count (filter counted words) w ∅) as Hcnt.
  unfold Counter in Hin. unfold cnt in Hcnt. rewrite Hin, lookup_empty in Hcnt.
  simpl in Hcnt. by rewrite freq_counted in Hcnt.
Qed.

Lemma insert_by_count_perm (x : str * nat) (l : list (str * nat)) :
  insert_by_count x l ≡ₚ x :: l.
Proof.
  induction l as [|y l IH]; simpl; [done|].
  destruct (x.2 <? y.2)%nat; [|done]. rewrite IH. apply Permutation_swap.
Qed.

Lemma sorted_by_count_perm (l : list (str * nat)) : sorted_by_count l ≡ₚ l.
Proof.
  induction l as [|x l IH]; simpl; [done|].
  by rewrite insert_by_count_perm, IH.
Qed.

Lemma insert_by_count_sorted (x : str * nat) (l : list (str * nat)) :
  StronglySorted (fun a b => (b.2 <= a.2)%nat) l →
  StronglySorted (fun a b => (b.2 <= a.2)%nat) (insert_by_count x l).
Proof.
  induction 1 as [|y l Hl IH Hy]; simpl; [repeat constructor|].
  destruct (x.2 <? y.2)%nat eqn:Hxy.
  - apply Nat.ltb_lt in Hxy. constructor; [done|].
    rewrite insert_by_count_perm. constructor; [lia|done].
  - apply Nat.ltb_ge in Hxy. constructor; [by constructor|].
    constructor; [done|]. eapply Forall_impl; [exact Hy|]. simpl. lia.
Qed.

Lemma sorted_by_count_sorted (l : list (str * nat)) :
  StronglySorted (fun a b => (b.2 <= a.2)%nat) (sorted_by_count l).
Proof.
  induction l as [|x l IH]; simpl; [constructor|]. by apply insert_by_count_sorted.
Qed.

Lemma StronglySorted_fmap_with {A B} (Q : A → Prop) (R1 : relation A)
    (R2 : relation B) (f : A → B) (l : list A) :
  (∀ a b, Q a → Q b → R1 a b → R2 (f a) (f b)) →
  Forall Q l → StronglySorted R1 l → StronglySorted R2 (f <$> l).
Proof.
  intros Hf HQ. induction 1 as [|x l Hl IH Hx]; [constructor|].
  apply Forall_cons in HQ as [Hqx HQ]. rewrite fmap_cons.
  constructor; [by apply IH|].
  apply Forall_fmap, Forall_forall. intros y Hy. simpl.
  rewrite Forall_forall in Hx, HQ. apply Hf; auto.
Qed.

Lemma long_words_are_tokens (text : str) :
  findall_long_words (lower text) = _tokenize text.
Proof.
  unfold findall_long_words, _tokenize. apply list_filter_iff. intros w. lia.
Qed.

End Keywords.

Section KeywordsResult.
Import Utils.

(** X25.  The keywords returned by [extract_keywords] are distinct
    tokens of the text (lower-case words of letters, as in the store)
    of four characters at least that are no stop words; they come in
    descending order of their number of occurrences in the text, and
    there are at most [max_keywords] of them when that is not negative. *)
Theorem extract_keywords_result (text : str) (max_keywords : Z) :
  let keywords := extract_keywords text max_keywords in
  NoDup keywords
  ∧ Forall (fun w => w ∈ _tokenize text ∧ (4 <= length w)%nat ∧ w ∉ stop_words)
           keywords
  ∧ StronglySorted (fun a b => (freq (_tokenize text) b <= freq (_tokenize text) a)%nat)
                   keywords
  ∧ ((0 <= max_keywords)%Z → (len keywords <= max_keywords)%Z).
Proof.
  cbv zeta. unfold extract_keywords.
  destruct (negb (truthy text)).
  { split; [constructor|]. split; [constructor|]. split; [constructor|].
    unfold len. simpl. lia. }
  cbv zeta. rewrite long_words_are_tokens.
  set (words := _tokenize text).
  set (sorted_words := sorted_by_count (word_counts words)).
  pose proof (slice_to_prefix max_keywords sorted_words) as Hpre.
  set (top := slice_to max_keywords sorted_words) in *.
  assert (Forall (fun item => item.1 ∈ words ∧ counted item.1
                              ∧ item.2 = freq words item.1) sorted_words) as Hitems.
  { apply Forall_forall. intros [w n] Hin. unfold sorted_words in Hin.
    rewrite sorted_by_count_perm in Hin. by apply word_counts_items. }
  assert (Forall (fun item => item.1 ∈ words ∧ counted item.1
                              ∧ item.2 = freq words item.1) top) as Htop.
  { destruct Hpre as [k Hk]. rewrite Hk in Hitems.
    by apply Forall_app in Hitems as [? _]. }
  split; [|split; [|split]].
  - assert (NoDup sorted_words.*1) as Hnd.
    { unfold sorted_words. rewrite sorted_by_count_perm.
      apply word_counts_map. }
    destruct Hpre as [k Hk]. rewrite Hk, fmap_app in Hnd.
    by apply NoDup_app in Hnd as [? _].
  - apply Forall_fmap. eapply Forall_impl; [exact Htop|].
    intros [w n] (Hw & [Hstop Hlen] & _). simpl in *. split; [done|]. split; [lia|done].
  - apply (StronglySorted_fmap_with
             (fun item => item.1 ∈ words ∧ counted item.1
                          ∧ item.2 = freq words item.1)
             (fun a b => (b.2 <= a.2)%nat)); [|done|].
    + intros a b (_ & _ & Ha) (_ & _ & Hb) Hab. lia.
    + eapply StronglySorted_prefix; [exact Hpre|apply sorted_by_count_sorted].
  - intros Hk. unfold len. rewrite length_fmap.
    by apply slice_to_length.
Qed.

End KeywordsResult.

(** The two most frequent keywords of a short note. *)
Lemma extract_keywords_result_witness :
  (0 <= 2)%Z
  ∧ (len (Utils.extract_keywords
            (py "Bridge work and road work: the bridge over the road, bridge first.") 2)
     <= 2)%Z.
Proof.
  assert (0 <= 2)%Z as Hk by (vm_compute; discriminate).
  split; [exact Hk|].
  apply (extract_keywords_result
           (py "Bridge work and road work: the bridge over the road, bridge first.") 2).
  exact Hk.
Defined.

(** * Further properties of the ranking *)

Section RareTerms.

Lemma ln_ratio_decreasing (n k1 k2 : nat) :
  k1 ≠ 0%nat → (k1 < k2)%nat → n ≠ 0%nat →
  (ln (INR n / INR k2) < ln (INR n / INR k1))%R.
Proof.
  intros Hk1 Hlt Hn.
  pose proof (INR_pos_of_nonzero k1 Hk1) as H1.
  pose proof (INR_pos_of_nonzero n Hn) as Hnpos.
  assert (0 < INR k2)%R as H2 by (apply lt_0_INR; lia).
  apply lt_INR in Hlt.
  apply ln_increasing.
  - by apply Rdiv_lt_0_compat.
  - unfold Rdiv. apply Rmult_lt_compat_l; [done|].
    by apply Rinv_lt_contravar; [apply Rmult_lt_0_compat|].
Qed.

End RareTerms.

(** X26.  In a consistent store a term that occurs in fewer documents
    has the larger weight. *)
Theorem rarer_terms_weigh_more (self : VectorStore.t) (t1 t2 : str) (w1 w2 : R) :
  consistent self →
  idf_scores self !! t1 = Some w1 →
  idf_scores self !! t2 = Some w2 →
  (doc_freq (documents self) t1 < doc_freq (documents self) t2)%nat →
  (w2 < w1)%R.
Proof.
  intros (_ & _ & ->). rewrite !idf_table_lookup.
  destruct (decide (doc_freq (documents self) t1 = 0%nat)) as [|H1]; [done|].
  destruct (decide (doc_freq (documents self) t2 = 0%nat)) as [|H2]; [done|].
  intros [= <-] [= <-] Hlt. apply ln_ratio_decreasing; [done|done|].
  pose proof (doc_freq_le (documents self) t1). lia.
Qed.

(** In the store of two chunks about safety, ["helmets"] occurs in one
    chunk and ["safety"] in both. *)
Lemma rarer_terms_weigh_more_witness :
  ∃ w1 w2,
    idf_scores Fixtures.shared_store !! py "helmets" = Some w1
    ∧ idf_scores Fixtures.shared_store !! py "safety" = Some w2
    ∧ (w2 < w1)%R.
Proof.
  assert (consistent Fixtures.shared_store) as Hc.
  { split; [|split].
    - apply (bool_decide_unpack _). vm_compute. exact I.
    - apply (bool_decide_unpack _). vm_compute. exact I.
    - reflexivity. }
  assert (is_Some (idf_scores Fixtures.shared_store !! py "helmets")) as [w1 Hw1].
  { destruct Hc as (_ & _ & ->). rewrite idf_table_lookup.
    rewrite decide_False; [by eexists|]. vm_compute. discriminate. }
  assert (is_Some (idf_scores Fixtures.shared_store !! py "safety")) as [w2 Hw2].
  { destruct Hc as (_ & _ & ->). rewrite idf_table_lookup.
    rewrite decide_False; [by eexists|]. vm_compute. discriminate. }
  assert (doc_freq (documents Fixtures.shared_store) (py "helmets")
          < doc_freq (documents Fixtures.shared_store) (py "safety"))%nat as Hlt
    by (vm_compute; lia).
  exists w1, w2. split; [exact Hw1|]. split; [exact Hw2|].
  exact (rarer_terms_weigh_more Fixtures.shared_store (py "helmets") (py "safety")
           w1 w2 Hc Hw1 Hw2 Hlt).
Defined.

(** X27.  A negative [top_k] does not give an empty answer: the
    results are the full ranking without its last [- top_k] entries.
    With [top_k = 0] nothing is returned. *)
Theorem negative_top_k_drops_the_tail (self : VectorStore.t) (query : str) (top_k : Z) :
  (top_k < 0)%Z →
  let ranking := similarity_search self query (len (documents self)) in
  similarity_search self query top_k = take (Z.to_nat (len ranking + top_k)) ranking
  ∧ similarity_search self query 0 = [].
Proof.
  intros Hk. cbv zeta. unfold similarity_search.
  destruct (negb (truthy (strip query))); [by rewrite take_nil|].
  destruct (negb (truthy (documents self))); [by rewrite take_nil|].
  destruct (negb (truthy (_tokenize query))); [by rewrite take_nil|]. cbv zeta.
  set (ranked := sort_desc _).
  assert (slice_to (len (documents self)) ranked = ranked) as ->.
  { apply slice_to_all. unfold len, ranked. rewrite length_sort_desc.
    pose proof (length_similarities self
                  (_get_tfidf_vector self (_tokenize query))). lia. }
  split.
  - unfold slice_to. by destruct (Z.leb_spec 0 top_k); [lia|].
  - unfold slice_to. simpl. apply take_0.
Qed.

(** With [top_k = -1] the last entry of the ranking is dropped. *)
Lemma negative_top_k_drops_the_tail_witness :
  similarity_search Fixtures.two_store Fixtures.ppe_query (-1)
  = take (Z.to_nat
            (len (similarity_search Fixtures.two_store Fixtures.ppe_query
                    (len (documents Fixtures.two_store))) + -1))
      (similarity_search Fixtures.two_store Fixtures.ppe_query
         (len (documents Fixtures.two_store))).
Proof.
  assert (-1 < 0)%Z as Hk by reflexivity.
  exact (proj1 (negative_top_k_drops_the_tail Fixtures.two_store
                  Fixtures.ppe_query (-1) Hk)).
Defined.

(** * Batches *)

Section Batches.
Import DocumentProcessor.

Lemma term_doc_count_contents (docs : list DocEntry) : ∀ c : gmap str nat,
  fold_left
    (fun c doc =>
       let doc_tokens : gset str := list_to_set (_tokenize (doc_content doc)) in
       fold_left incr (elements doc_tokens) c)
    docs c
  = fold_left
      (fun c content =>
         let doc_tokens : gset str := list_to_set (_tokenize content) in
         fold_left incr (elements doc_tokens) c)
      (doc_content <$> docs) c.
Proof. induction docs as [|d docs IH]; intros c; simpl; [done|]. apply IH. Qed.

(** The table of weights depends on the contents only. *)
Lemma idf_table_contents (docs1 docs2 : list DocEntry) :
  doc_content <$> docs1 = doc_content <$> docs2 → idf_table docs1 = idf_table docs2.
Proof.
  intros Hc. unfold idf_table, term_doc_count. cbv zeta.
  rewrite !term_doc_count_contents, Hc.
  apply (f_equal length) in Hc. rewrite !length_fmap in Hc. by rewrite Hc.
Qed.

Lemma vocab_of_tokens (es1 es2 : list DocEntry) :
  tokens <$> es1 = tokens <$> es2 → vocab_of es1 = vocab_of es2.
Proof.
  revert es2. induction es1 as [|e es1 IH]; intros [|e' es2] Ht; try done.
  rewrite !fmap_cons in Ht. injection Ht as He Ht.
  change (vocab_of (e :: es1)) with (list_to_set (tokens e) ∪ vocab_of es1).
  change (vocab_of (e' :: es2)) with (list_to_set (tokens e') ∪ vocab_of es2).
  by rewrite He, (IH es2 Ht).
Qed.

Lemma new_entries_token_lists (uuid4 : nat → str) (docs : list Chunk) : ∀ n,
  tokens <$> new_entries uuid4 n docs
  = (fun d => _tokenize (content d)) <$> filter (fun d => valid d = true) docs.
Proof.
  induction docs as [|doc docs IH]; intros n; simpl; [done|].
  rewrite filter_cons. destruct (valid doc) eqn:Hv.
  - rewrite decide_True by done. simpl. by rewrite IH.
  - rewrite decide_False by done. apply IH.
Qed.

Lemma grown_grown (self : VectorStore.t) (es1 es2 : list DocEntry) :
  grown (grown self es1) es2 = grown self (es1 ++ es2).
Proof.
  unfold grown. cbn [documents vocabulary].
  by rewrite vocab_of_app, (assoc_L (∪)), <- !app_assoc.
Qed.

Lemma grown_same (self : VectorStore.t) (es1 es2 : list DocEntry) :
  doc_content <$> es1 = doc_content <$> es2 →
  doc_metadata <$> es1 = doc_metadata <$> es2 →
  tokens <$> es1 = tokens <$> es2 →
  same_content (grown self es1) (grown self es2).
Proof.
  intros Hc Hm Ht. unfold same_content, grown. cbn [documents vocabulary idf_scores].
  rewrite !fmap_app, Hc, Hm, Ht, (vocab_of_tokens es1 es2 Ht).
  repeat split. apply idf_table_contents. by rewrite !fmap_app, Hc.
Qed.

(** The state after [add_documents]. *)
Lemma add_documents_state (uuid4 : nat → str) (self : VectorStore.t) (disk : Disk)
    (docs : list Chunk) :
  (new_entries uuid4 0 docs = []
   ∧ filter (fun d => valid d = true) docs = []
   ∧ (add_documents uuid4 self disk docs).1 = (false, self))
  ∨ (filter (fun d => valid d = true) docs ≠ []
     ∧ (add_documents uuid4 self disk docs).1
       = (true, grown self (new_entries uuid4 0 docs))).
Proof.
  rewrite add_documents_eq. cbv zeta.
  pose proof (new_entries_length uuid4 docs 0) as Hlen.
  destruct (new_entries uuid4 0 docs) as [|e es] eqn:He; cbn [truthy fst].
  - left. split; [done|]. split; [|done].
    by destruct (filter _ docs).
  - right. split; [|done]. intros Hnil. by rewrite Hnil in Hlen.
Qed.

End Batches.

Section TwoCalls.
Import DocumentProcessor.

(** X28.  Adding a batch in two calls or in one gives the same store
    up to the identifiers of the documents: the same contents, metadata
    and tokens in the same order, the same vocabulary and the same
    weights; and one of the two calls returns [True] exactly when the
    single call does. *)
Theorem add_documents_in_two_calls (uuid4 uuid4' : nat → str) (self : VectorStore.t)
    (disk disk' : Disk) (first second : list Chunk) :
  let r1 := add_documents uuid4 self disk first in
  let r2 := add_documents uuid4 r1.1.2 disk' second in
  let r := add_documents uuid4' self disk (first ++ second) in
  same_content r2.1.2 r.1.2
  ∧ r1.1.1 || r2.1.1 = r.1.1.
Proof.
  cbv zeta.
  pose proof (new_entries_contents uuid4' (first ++ second) 0) as Hc.
  pose proof (new_entries_metadata uuid4' (first ++ second) 0) as Hm.
  pose proof (new_entries_token_lists uuid4' (first ++ second) 0) as Ht.
  rewrite filter_app in Hc, Hm, Ht.
  rewrite fmap_app in Hc. rewrite fmap_app in Hm. rewrite fmap_app in Ht.
  pose proof (new_entries_contents uuid4 first 0) as Hc1.
  pose proof (new_entries_metadata uuid4 first 0) as Hm1.
  pose proof (new_entries_token_lists uuid4 first 0) as Ht1.
  pose proof (new_entries_contents uuid4 second 0) as Hc2.
  pose proof (new_entries_metadata uuid4 second 0) as Hm2.
  pose proof (new_entries_token_lists uuid4 second 0) as Ht2.
  rewrite <- Hc1, <- Hc2 in Hc. rewrite <- Hm1, <- Hm2 in Hm.
  rewrite <- Ht1, <- Ht2 in Ht.
  rewrite <- fmap_app in Hc. rewrite <- fmap_app in Hm. rewrite <- fmap_app in Ht.
  destruct (add_documents_state uuid4' self disk (first ++ second))
    as [(He & Hf & Hr)|(Hf & Hr)];
    destruct (add_documents_state uuid4 self disk first)
      as [(He1 & Hf1 & Hr1)|(Hf1 & Hr1)];
    rewrite (surjective_pairing (add_documents uuid4 self disk first).1) in Hr1;
    injection Hr1 as Hb1 Hs1; rewrite Hs1, Hb1;
    destruct (add_documents_state uuid4
                (add_documents uuid4 self disk first).1.2 disk' second)
      as [(He2 & Hf2 & Hr2)|(Hf2 & Hr2)];
    rewrite Hs1 in Hr2;
    rewrite (surjective_pairing (add_documents uuid4 _ disk' second).1) in Hr2;
    injection Hr2 as Hb2 Hs2; rewrite Hs2, Hb2;
    rewrite (surjective_pairing (add_documents uuid4' self disk (first ++ second)).1)
      in Hr;
    injection Hr as Hb Hs; rewrite Hs, Hb;
    rewrite filter_app in Hf;
    try (apply app_eq_nil in Hf as [Hfa Hfb]);
    try done;
    try (exfalso; apply Hf; by rewrite ?Hf1, ?Hf2).
  - split; [|done]. rewrite He1 in Hc, Hm, Ht. by apply grown_same.
  - split; [|done]. rewrite He2, !app_nil_r in Hc, Hm, Ht. by apply grown_same.
  - split; [|done]. rewrite grown_grown. by apply grown_same.
Qed.

End TwoCalls.

(** * Page numbers *)

Section PageNumbers.
Import Re DocumentProcessor.

Lemma code_inj (c : ascii) (n : nat) : code c = n → c = ascii_of_nat n.
Proof. intros <-. unfold code. by rewrite ascii_nat_embedding. Qed.

Lemma match_page_marker_spec (s digits rest : str) :
  match_page_marker s = Some (digits, rest) →
  s = py "[PAGE " ++ digits ++ py "]" ++ rest
  ∧ Forall (fun c => is_digit c = true) digits ∧ digits ≠ [].
Proof.
  unfold match_page_marker.
  destruct (starts_with (py "[PAGE ") s) eqn:Hst; [|done].
  apply starts_with_take in Hst.
  destruct (span is_digit (drop 6 s)) as [ds rest'] eqn:Hspan.
  apply span_spec in Hspan as [Hdrop Hds].
  destruct ds as [|d ds]; [done|]. destruct rest' as [|c rest'']; [done|].
  destruct (code c =? 93) eqn:Hc; [|done]. intros [= <- <-].
  apply Nat.eqb_eq, code_inj in Hc. subst c.
  split; [|done].
  rewrite <- (take_drop 6 s) at 1. change (length (py "[PAGE ")) with 6%nat in Hst.
  by rewrite Hst, Hdrop.
Qed.

Lemma infix_cons (m s : str) (c : ascii) : infix m s → infix m (c :: s).
Proof. intros (a & b & ->). by exists (c :: a), b. Qed.

(** The numbers between the pieces of [split_pages] are the digits of
    markers of the text. *)
Lemma split_pages_go_regions (s : str) : ∀ skip cur,
  ∃ first rest,
    split_pages_go skip cur s = first :: rest
    ∧ Forall (fun region : str * str =>
                infix (py "[PAGE " ++ region.1 ++ py "]") s
                ∧ Forall (fun c => is_digit c = true) region.1
                ∧ region.1 ≠ [])
             (page_regions rest).
Proof.
  induction s as [|c s IH]; intros skip cur.
  - exists (rev cur), []. by split; [|constructor].
  - assert (∀ k cur',
              ∃ first rest,
                split_pages_go k cur' s = first :: rest
                ∧ Forall (fun region : str * str =>
                            infix (py "[PAGE " ++ region.1 ++ py "]") (c :: s)
                            ∧ Forall (fun c => is_digit c = true) region.1
                            ∧ region.1 ≠ [])
                         (page_regions rest)) as Hrec.
    { intros k cur'. destruct (IH k cur') as (first & rest & Heq & Hall).
      exists first, rest. split; [done|].
      eapply Forall_impl; [exact Hall|].
      intros region (Hin & Hd & Hne). split; [by apply infix_cons|done]. }
    destruct skip as [|k]; [|apply Hrec].
    cbn [split_pages_go].
    destruct (match_page_marker (c :: s)) as [[digits rest0]|] eqn:Hm; [|apply Hrec].
    apply match_page_marker_spec in Hm as (Hs & Hd & Hne).
    destruct (Hrec (length s - length rest0)%nat []) as (first & rest & Heq & Hall).
    exists (rev cur), (digits :: first :: rest). rewrite Heq. split; [done|].
    cbn [page_regions]. constructor; [|done]. cbn [fst].
    split; [|done]. exists [], rest0. rewrite Hs. by rewrite <- !app_assoc.
Qed.

Lemma marked_chunks_pages (self : DocumentProcessor.t) (text filename : str)
    (chunks : list Chunk) :
  marked_chunks self text filename = Some chunks →
  Forall (fun c => ∃ digits,
            page_of c = Some (PyInt (int_of_digits digits))
            ∧ infix (py "[PAGE " ++ digits ++ py "]") text
            ∧ Forall (fun c => is_digit c = true) digits
            ∧ digits ≠ []
            ∧ (length digits <= int_max_str_digits)%nat)
         chunks.
Proof.
  apply marked_chunks_Forall. unfold split_pages.
  destruct (split_pages_go_regions text 0 []) as (first & rest & -> & Hall).
  cbn [tail]. rewrite Forall_forall in Hall.
  intros [num body] cs (Hin & Hd & Hne)%Hall [Hle ->]%region_chunks_Some.
  cbn [fst snd] in *.
  destruct (truthy (strip body)); [|constructor].
  eapply Forall_impl; [apply keep_chunks_page|].
  intros c Hc. cbv beta in Hc. by exists num.
Qed.

End PageNumbers.

Section PageNumbersTheorem.
Import Re DocumentProcessor.

(** X29.  A page number in the metadata of a chunk is never invented:
    it is the value of the digits of a marker [[PAGE digits]] that
    occurs in the text given to [create_chunks], and the digits are not
    more than the limit. *)
Theorem page_numbers_come_from_markers
    (self : DocumentProcessor.t) (text filename : str) (chunks : list Chunk) :
  create_chunks self text filename = Some chunks →
  Forall (fun c => ∀ n, page_of c = Some (PyInt n) →
            ∃ digits,
              n = int_of_digits digits
              ∧ infix (py "[PAGE " ++ digits ++ py "]") text
              ∧ Forall (fun c => is_digit c = true) digits
              ∧ digits ≠ []
              ∧ (length digits <= int_max_str_digits)%nat)
         chunks.
Proof.
  intros Hcreate.
  pose proof (create_chunks_cases self text filename) as Hcases.
  destruct (marked_chunks self text filename) as [marked|] eqn:Hm; [|congruence].
  assert (Forall (fun c => ∀ n, page_of c = Some (PyInt n) →
            ∃ digits,
              n = int_of_digits digits
              ∧ infix (py "[PAGE " ++ digits ++ py "]") text
              ∧ Forall (fun c => is_digit c = true) digits
              ∧ digits ≠ []
              ∧ (length digits <= int_max_str_digits)%nat)
            marked) as Hmarked.
  { eapply Forall_impl; [exact (marked_chunks_pages self text filename marked Hm)|].
    intros c (digits & Hp & Hin & Hd & Hne & Hle) n Hn. rewrite Hp in Hn.
    injection Hn as <-. by exists digits. }
  destruct marked as [|c cs]; rewrite Hcases in Hcreate; injection Hcreate as <-;
    [|exact Hmarked].
  unfold fallback_chunks.
  eapply Forall_impl; [apply keep_chunks_page|].
  intros c Hc n Hn. cbv beta in Hc. rewrite Hc in Hn. discriminate Hn.
Qed.

End PageNumbersTheorem.

(** The chunk of the long page has the number of its marker. *)
Lemma page_numbers_come_from_markers_witness :
  ∃ c, DocumentProcessor.create_chunks DocumentProcessor.defaults
         Fixtures.long_page (py "a.pdf") = Some [c]
       ∧ ∃ digits,
           DocumentProcessor.page_of c
           = Some (DocumentProcessor.PyInt (int_of_digits digits))
           ∧ infix (py "[PAGE " ++ digits ++ py "]") Fixtures.long_page.
Proof.
  assert (∃ c, DocumentProcessor.create_chunks DocumentProcessor.defaults
                 Fixtures.long_page (py "a.pdf") = Some [c]
               ∧ DocumentProcessor.page_of c = Some (DocumentProcessor.PyInt 7))
    as (c & Hchunks & Hpage)
    by (eexists; split; vm_compute; reflexivity).
  pose proof (page_numbers_come_from_markers DocumentProcessor.defaults
                Fixtures.long_page (py "a.pdf") [c] Hchunks) as Hall.
  exists c. split; [exact Hchunks|].
  apply Forall_cons in Hall as [Hc _].
  destruct (Hc 7%Z Hpage) as (digits & Hn & Hin & _).
  exists digits. split; [by rewrite Hpage, Hn|exact Hin].
Defined.

(** * Letter case *)

Section LetterCase.

Lemma lower_char_space (c : ascii) : is_space (lower_char c) = is_space c.
Proof. by destruct c as [[] [] [] [] [] [] [] []]. Qed.

Lemma blank_lower (s : str) : strip s = [] ↔ strip (lower s) = [].
Proof.
  assert (Forall (fun c => is_space c = true) s
          ↔ Forall (fun c => is_space c = true) (lower s)) as Hiff.
  { unfold lower. change (map lower_char s) with (lower_char <$> s).
    rewrite Forall_fmap. apply Forall_iff. intros c. simpl.
    by rewrite lower_char_space. }
  split; intros H%strip_nil_inv; apply strip_all_space; by apply Hiff.
Qed.

End LetterCase.

(** X30.  The search does not depend on the letter case of the query:
    two queries with the same lower-case form get the same results. *)
Theorem search_ignores_letter_case
    (self : VectorStore.t) (query1 query2 : str) (top_k : Z) :
  lower query1 = lower query2 →
  similarity_search self query1 top_k = similarity_search self query2 top_k.
Proof.
  intros Hlow. unfold similarity_search.
  assert (_tokenize query1 = _tokenize query2) as ->
    by (unfold _tokenize; by rewrite Hlow).
  assert (truthy (strip query1) = truthy (strip query2)) as ->; [|done].
  pose proof (blank_lower query1) as H1. pose proof (blank_lower query2) as H2.
  rewrite Hlow in H1.
  destruct (strip query1) as [|c1 s1], (strip query2) as [|c2 s2]; try done.
  - exfalso. assert (c2 :: s2 = []) as Hnil by (apply H2, H1; done). done.
  - exfalso. assert (c1 :: s1 = []) as Hnil by (apply H1, H2; done). done.
Qed.

(** The query about PPE in capitals. *)
Lemma search_ignores_letter_case_witness :
  similarity_search Fixtures.two_store (py "WHAT PPE IS REQUIRED?") default_top_k
  = similarity_search Fixtures.two_store Fixtures.ppe_query default_top_k.
Proof.
  assert (lower (py "WHAT PPE IS REQUIRED?") = lower Fixtures.ppe_query) as Hlow
    by reflexivity.
  exact (search_ignores_letter_case Fixtures.two_store (py "WHAT PPE IS REQUIRED?")
           Fixtures.ppe_query default_top_k Hlow).
Defined.
